(** * Integer relations and constant recognition (mpmath/calculus.py)

    A shallow embedding of the PSLQ integer-relation engine [pslq], of the
    minimal-polynomial finder [findpoly], of the symbolic formatters
    ([fracgcd], [pslqstring], [prodstring], [quadraticstring]) and of the
    constant recogniser [identify], followed by the properties the
    specification states about them.

    Python integers are [Z]; [//] is [Z.div] (floor division), [%] is
    [Z.modulo], [>>] and [<<] are [Z.shiftr] and [Z.shiftl].  Dictionaries
    indexed by coordinate pairs are [gmap (Z * Z) Z]; a missing key raises
    [KeyError].  Lists keep Python's indexing (negative indices count from
    the end, an index out of range raises [IndexError]).  Exceptions are the
    [Raise] results of the monad [res]. *)

From stdpp Require Import gmap strings list pretty.
From Stdlib Require Import ZArith Lia Sorted Ring.

Local Open Scope Z_scope.

(** ** Exceptions and results *)

Inductive exn : Type :=
  | AssertionError
  | ZeroDivisionError
  | KeyError
  | IndexError
  | TypeError
  | ValueError
  | RuntimeError
  | OtherError (msg : string).

Inductive res (A : Type) : Type :=
  | Ret (a : A)
  | Raise (e : exn).
Arguments Ret {A} a.
Arguments Raise {A} e.

Global Instance res_ret : MRet res := fun A a => Ret a.
Global Instance res_bind : MBind res := fun A B f m =>
  match m with
  | Ret a => f a
  | Raise e => Raise e
  end.


(** [assert c] *)
Definition py_assert (c : bool) : res unit :=
  if c then Ret tt else Raise AssertionError.

(** ** Python values, lists and dictionaries *)

Inductive pyval : Type :=
  | PyNone
  | PyInt (z : Z).

(** Using a list element as a number: [None] in arithmetic is a TypeError. *)
Definition as_int (v : pyval) : res Z :=
  match v with
  | PyInt z => Ret z
  | PyNone => Raise TypeError
  end.

(** The position a Python index [k] denotes in a list of length [len]. *)
Definition py_index (len : nat) (k : Z) : option nat :=
  let k' := if k <? 0 then k + Z.of_nat len else k in
  if (0 <=? k') && (k' <? Z.of_nat len) then Some (Z.to_nat k') else None.

Definition list_get (l : list pyval) (k : Z) : res pyval :=
  match py_index (length l) k with
  | Some i =>
      match l !! i with
      | Some v => Ret v
      | None => Raise IndexError
      end
  | None => Raise IndexError
  end.

Definition list_set (l : list pyval) (k : Z) (v : pyval) : res (list pyval) :=
  match py_index (length l) k with
  | Some i => Ret (<[i := v]> l)
  | None => Raise IndexError
  end.

Definition list_get_int (l : list pyval) (k : Z) : res Z :=
  v ← list_get l k; as_int v.

Definition dict_get (d : gmap (Z * Z) Z) (i j : Z) : res Z :=
  match d !! (i, j) with
  | Some v => Ret v
  | None => Raise KeyError
  end.

Definition dict_set (d : gmap (Z * Z) Z) (i j : Z) (v : Z) : gmap (Z * Z) Z :=
  <[(i, j) := v]> d.

(** [a // b] *)
Definition floordiv (a b : Z) : res Z :=
  if b =? 0 then Raise ZeroDivisionError else Ret (a / b).

(** [range(a, b)] and [range(a, 0, -1)] *)
Definition py_range (a b : Z) : list Z := seqZ a (b - a).
Definition py_range_down (a : Z) : list Z := reverse (seqZ 1 a).

(** ** Loops *)

Fixpoint for_ {I S : Type} (l : list I) (body : I -> S -> res S) (s : S) : res S :=
  match l with
  | [] => Ret s
  | i :: l' => s' ← body i s; for_ l' body s'
  end.

(** A loop whose body may [break]. *)
Inductive ctl (S : Type) : Type :=
  | Next (s : S)
  | Break (s : S).
Arguments Next {S} s.
Arguments Break {S} s.

Fixpoint for_break {I S : Type} (l : list I) (body : I -> S -> res (ctl S)) (s : S)
  : res S :=
  match l with
  | [] => Ret s
  | i :: l' =>
      c ← body i s;
      match c with
      | Next s' => for_break l' body s'
      | Break s' => Ret s'
      end
  end.

(** ** Fixed-point helpers *)

(** round to nearest integer *)
Definition round_fixed (x prec : Z) : Z :=
  Z.shiftl (Z.shiftr (x + Z.shiftl 1 (prec - 1)) prec) prec.

Definition bool_to_Z (b : bool) : Z := if b then 1 else 0.

(** ** The relation engine: PSLQ on fixed-point integers *)

(** The vectors and matrices of one run: [y] is a list whose entry 0 is
    [None] (the code indexes from 1), [H], [A] and [B] are dictionaries
    keyed by coordinate pairs. *)
Record pslq_state : Type := mkState {
  st_y : list pyval;
  st_H : gmap (Z * Z) Z;
  st_A : gmap (Z * Z) Z;
  st_B : gmap (Z * Z) Z
}.

(** What one pass through the body of [for REP in range(100)] does:
    it falls through to the next pass, leaves the loop by [break], or
    leaves the function by [return vec]. *)
Inductive step_out : Type :=
  | Continue (st : pslq_state)
  | Stop
  | Found (vec : list Z).

Fixpoint map_res {A B : Type} (f : A -> res B) (l : list A) : res (list B) :=
  match l with
  | [] => Ret []
  | a :: l' => b ← f a; bs ← map_res f l'; Ret (b :: bs)
  end.

(** [max(abs(v) for v in vec)]; [max] of an empty sequence is a ValueError. *)
Definition py_max_abs (vec : list Z) : res Z :=
  match vec with
  | [] => Raise ValueError
  | v :: vs => Ret (foldl (fun acc w => Z.max acc (Z.abs w)) (Z.abs v) vs)
  end.

Section PslqCore.
(** [sqrt_fixed] comes from [lib] (it is chosen there by [MODE]); the
    engine only ever calls it on non-negative arguments. *)
Variable sqrt_fixed : Z -> Z -> Z.
(** The working precision (after [prec += extra]) and [n = len(x)]. *)
Variable prec : Z.
Variable n : Z.
(** The detection threshold, already converted by [to_fixed]. *)
Variable eps : Z.

(** Initialization, step 1: [A] and [B] are identities, [H] is zero. *)
Definition init_step1 : pslq_state :=
  foldl (fun st i =>
    foldl (fun st j =>
      let v := Z.shiftl (bool_to_Z (i =? j)) prec in
      mkState (st_y st) (dict_set (st_H st) i j 0)
              (dict_set (st_A st) i j v) (dict_set (st_B st) i j v))
      st (py_range 1 (n + 1)))
    (mkState [] ∅ ∅ ∅) (py_range 1 (n + 1)).

(** Step 2: the partial norms [s[k]]. *)
Definition init_norms (x : list pyval) : res (list pyval) :=
  for_ (py_range 1 (n + 1)) (fun k s =>
    t ← for_ (py_range k (n + 1)) (fun j t =>
           xj ← list_get_int x j;
           Ret (t + Z.shiftr (xj ^ 2) prec)) 0;
    list_set s k (PyInt (sqrt_fixed t prec)))
    (PyNone :: replicate (Z.to_nat n) (PyInt 0)).

(** [t = s[1]; y = x[:]] and the normalization of [y] and [s]. *)
Definition init_normalize (x s : list pyval) : res (list pyval * list pyval) :=
  t ← list_get_int s 1;
  for_ (py_range 1 (n + 1)) (fun k ys =>
    let '(y, s) := ys in
    xk ← list_get_int x k;
    yk ← floordiv (Z.shiftl xk prec) t;
    y ← list_set y k (PyInt yk);
    sk ← list_get_int s k;
    sk' ← floordiv (Z.shiftl sk prec) t;
    s ← list_set s k (PyInt sk');
    Ret (y, s)) (x, s).

(** Step 3: the initial [H]. *)
Definition init_H (y s : list pyval) (H : gmap (Z * Z) Z) : res (gmap (Z * Z) Z) :=
  for_ (py_range 1 (n + 1)) (fun i H =>
    let H := foldl (fun H j => dict_set H i j 0) H (py_range (i + 1) n) in
    H ← (if i <=? n - 1 then
           si1 ← list_get_int s (i + 1);
           si ← list_get_int s i;
           v ← floordiv (Z.shiftl si1 prec) si;
           Ret (dict_set H i i v)
         else Ret H);
    for_ (py_range 1 i) (fun j H =>
      yi ← list_get_int y i;
      yj ← list_get_int y j;
      sj ← list_get_int s j;
      sj1 ← list_get_int s (j + 1);
      v ← floordiv (Z.shiftl (- yi * yj) prec) (sj * sj1);
      Ret (dict_set H i j v)) H) H.

(** [t = round_fixed((H[i,j] << prec)//H[j,j], prec)] *)
Definition reduce_quotient (st : pslq_state) (i j : Z) : res Z :=
  hij ← dict_get (st_H st) i j;
  hjj ← dict_get (st_H st) j j;
  q ← floordiv (Z.shiftl hij prec) hjj;
  Ret (round_fixed q prec).

(** The row operation with multiplier [t] on [y], [H], [A] and [B]. *)
Definition reduce_apply (t i j : Z) (st : pslq_state) : res pslq_state :=
  yj ← list_get_int (st_y st) j;
  yi ← list_get_int (st_y st) i;
  y' ← list_set (st_y st) j (PyInt (yj + Z.shiftr (t * yi) prec));
  H' ← for_ (py_range 1 (j + 1)) (fun k H =>
          hik ← dict_get H i k;
          hjk ← dict_get H j k;
          Ret (dict_set H i k (hik - Z.shiftr (t * hjk) prec))) (st_H st);
  AB ← for_ (py_range 1 (n + 1)) (fun k AB =>
          let '(A, B) := AB in
          aik ← dict_get A i k;
          ajk ← dict_get A j k;
          let A := dict_set A i k (aik - Z.shiftr (t * ajk) prec) in
          bkj ← dict_get B k j;
          bki ← dict_get B k i;
          let B := dict_set B k j (bkj + Z.shiftr (t * bki) prec) in
          Ret (A, B)) (st_A st, st_B st);
  Ret (mkState y' H' AB.1 AB.2).

(** Step 4 of the initialization; a zero diagonal is not caught here. *)
Definition init_reduce (st : pslq_state) : res pslq_state :=
  for_ (py_range 2 (n + 1)) (fun i st =>
    for_ (py_range_down (i - 1)) (fun j st =>
      t ← reduce_quotient st i j;
      reduce_apply t i j st) st) st.

Definition pslq_init (x : list pyval) : res pslq_state :=
  let st := init_step1 in
  s ← init_norms x;
  ys ← init_normalize x s;
  H ← init_H ys.1 ys.2 (st_H st);
  init_reduce (mkState ys.1 H (st_A st) (st_B st)).

(** Main loop, step 1: the pivot [m] and its size [szmax]. *)
Definition pivot (H : gmap (Z * Z) Z) : res (Z * Z) :=
  for_ (py_range 1 n) (fun i mz =>
    h ← dict_get H i i;
    let sz := Z.shiftr (sqrt_fixed (Z.shiftl 4 prec / 3) prec ^ i * Z.abs h)
                       (prec * (i - 1)) in
    Ret (if mz.2 <? sz then (i, sz) else mz)) (-1, -1).

(** [d[a], d[b] = d[b], d[a]] on the listed key pairs. *)
Definition dict_swap (keys : list ((Z * Z) * (Z * Z))) (d : gmap (Z * Z) Z)
  : res (gmap (Z * Z) Z) :=
  foldl (fun r ab =>
    d ← r;
    vb ← dict_get d ab.2.1 ab.2.2;
    va ← dict_get d ab.1.1 ab.1.2;
    Ret (dict_set (dict_set d ab.1.1 ab.1.2 vb) ab.2.1 ab.2.2 va)) (Ret d) keys.

(** Step 2: exchange entries [m] and [m+1]. *)
Definition swap_rows (m : Z) (st : pslq_state) : res pslq_state :=
  a ← list_get (st_y st) (m + 1);
  b ← list_get (st_y st) m;
  y ← list_set (st_y st) m a;
  y ← list_set y (m + 1) b;
  let cols := py_range 1 (n + 1) in
  H ← dict_swap (map (fun i => ((m, i), (m + 1, i))) cols) (st_H st);
  A ← dict_swap (map (fun i => ((m, i), (m + 1, i))) cols) (st_A st);
  B ← dict_swap (map (fun i => ((i, m), (i, m + 1))) cols) (st_B st);
  Ret (mkState y H A B).

(** [t0] of step 3, the norm of the 2x2 rotation. *)
Definition rotation_norm (m : Z) (H : gmap (Z * Z) Z) : res Z :=
  hmm ← dict_get H m m;
  hmm1 ← dict_get H m (m + 1);
  Ret (sqrt_fixed (Z.shiftr (hmm ^ 2 + hmm1 ^ 2) prec) prec).

Definition rotate (m t0 : Z) (H : gmap (Z * Z) Z) : res (gmap (Z * Z) Z) :=
  hmm ← dict_get H m m;
  t1 ← floordiv (Z.shiftl hmm prec) t0;
  hmm1 ← dict_get H m (m + 1);
  t2 ← floordiv (Z.shiftl hmm1 prec) t0;
  for_ (py_range m (n + 1)) (fun i H =>
    t3 ← dict_get H i m;
    t4 ← dict_get H i (m + 1);
    let H := dict_set H i m (Z.shiftr (t1 * t3 + t2 * t4) prec) in
    Ret (dict_set H i (m + 1) (Z.shiftr (- t2 * t3 + t1 * t4) prec))) H.

(** Step 4: a zero diagonal ends the inner loop only. *)
Definition reduce_rows (m : Z) (st : pslq_state) : res pslq_state :=
  for_ (py_range (m + 1) (n + 1)) (fun i st =>
    for_break (py_range_down (Z.min (i - 1) (m + 1))) (fun j st =>
      match reduce_quotient st i j with
      | Raise ZeroDivisionError => Ret (Break st)
      | Raise e => Raise e
      | Ret t => st' ← reduce_apply t i j st; Ret (Next st')
      end) st) st.

(** [vec = [int(round_fixed(B[j,i], prec) >> prec) for j in range(1,n+1)]] *)
Definition candidate (B : gmap (Z * Z) Z) (i : Z) : res (list Z) :=
  map_res (fun j => b ← dict_get B j i; Ret (Z.shiftr (round_fixed b prec) prec))
          (py_range 1 (n + 1)).

(** The termination check over the coordinates [coords]. *)
Fixpoint check_from (coords : list Z) (st : pslq_state) : res (option (list Z)) :=
  match coords with
  | [] => Ret None
  | i :: rest =>
      yi ← list_get_int (st_y st) i;
      if Z.abs yi <? eps then
        vec ← candidate (st_B st) i;
        mx ← py_max_abs vec;
        if mx <? 10 ^ 6 then Ret (Some vec) else check_from rest st
      else check_from rest st
  end.

Definition check (st : pslq_state) : res (option (list Z)) :=
  check_from (py_range 1 (n + 1)) st.

(** Steps 1 to 4 of one pass: [None] is the [break] of step 3. *)
Definition reduce_pass (st : pslq_state) : res (option pslq_state) :=
  mz ← pivot (st_H st);
  let m := mz.1 in
  st ← swap_rows m st;
  if m <=? n - 2 then
    t0 ← rotation_norm m (st_H st);
    if t0 =? 0 then Ret None
    else
      H ← rotate m t0 (st_H st);
      st ← reduce_rows m (mkState (st_y st) H (st_A st) (st_B st));
      Ret (Some st)
  else
    st ← reduce_rows m st;
    Ret (Some st).

(** The body of [for REP in range(100)]. *)
Definition pslq_iteration (st : pslq_state) : res step_out :=
  o ← reduce_pass st;
  match o with
  | None => Ret Stop
  | Some st' =>
      c ← check st';
      match c with
      | Some vec => Ret (Found vec)
      | None => Ret (Continue st')
      end
  end.

(** [for REP in range(reps): ...] followed by [return None]. *)
Fixpoint main_loop (reps : nat) (st : pslq_state) : res (option (list Z)) :=
  match reps with
  | O => Ret None
  | S k =>
      o ← pslq_iteration st;
      match o with
      | Continue st' => main_loop k st'
      | Stop => Ret None
      | Found vec => Ret (Some vec)
      end
  end.

(** The state the first [k] passes leave when each of them falls through
    to the next one. *)
Fixpoint after_passes (k : nat) (st : pslq_state) : option pslq_state :=
  match k with
  | O => Some st
  | S k' =>
      match pslq_iteration st with
      | Ret (Continue st') => after_passes k' st'
      | _ => None
      end
  end.

(** The engine from the initialization on ([x] already holds [None]
    followed by the fixed-point values). *)
Definition pslq_fixed (x : list pyval) : res (option (list Z)) :=
  st ← pslq_init x;
  main_loop 100 st.

End PslqCore.

(** ** The numeric engine

    The arbitrary-precision reals [mpf], the ambient precision [mp.prec],
    the elementary functions and the fixed-point conversions live outside
    this file (module [lib] and the rest of mpmath).  The engine is what
    the code asks of them; operations that can raise return a [res]. *)
Class Engine : Type := {
  mpf : Type;
  (** [mp.prec] and the global [eps] *)
  mp_prec : Z;
  mp_eps : mpf;
  (** the float literal [0.7] *)
  float_0_7 : mpf;
  (** [mpf(k)] for an integer [k] *)
  mpf_of_Z : Z -> mpf;
  mpf_neg : mpf -> mpf;
  mpf_abs : mpf -> mpf;
  mpf_add : mpf -> mpf -> mpf;
  mpf_sub : mpf -> mpf -> mpf;
  mpf_mul : mpf -> mpf -> mpf;
  mpf_div : mpf -> mpf -> res mpf;
  (** [x ** k] for an integer [k], [x ** y] *)
  mpf_pow_int : mpf -> Z -> res mpf;
  mpf_pow : mpf -> mpf -> res mpf;
  mpf_sqrt : mpf -> res mpf;
  mpf_exp : mpf -> res mpf;
  mpf_log : mpf -> res mpf;
  mpf_eqb : mpf -> mpf -> bool;
  mpf_ltb : mpf -> mpf -> bool;
  (** [to_fixed(x._mpf_, prec)] and [sqrt_fixed(x, prec)] of [lib] *)
  to_fixed : mpf -> Z -> Z;
  sqrt_fixed : Z -> Z -> Z
}.

(** ** Formatting helpers *)

(** [str(z)] *)
Definition str (z : Z) : string := pretty z.

(** [sub in s] *)
Definition py_contains (sub s : string) : bool :=
  match String.index 0 sub s with
  | Some _ => true
  | None => false
  end.

(** [s.replace(old, new)] for a non-empty [old]: every occurrence, left to
    right, without overlap.  [skip] counts the characters of a matched
    occurrence still to be dropped. *)
Fixpoint replace_from (skip : nat) (old new s : string) : string :=
  match s with
  | EmptyString => EmptyString
  | String c s' =>
      match skip with
      | S k => replace_from k old new s'
      | O =>
          if String.prefix old s
          then new +:+ replace_from (String.length old - 1) old new s'
          else String c (replace_from 0 old new s')
      end
  end.

Definition replace (s old new : string) : string := replace_from 0 old new s.

(** [while y: x, y = y, x % y], at most [fuel] turns; [None] when the
    turns run out before [y] is zero. *)
Fixpoint gcd_loop (fuel : nat) (x y : Z) : option Z :=
  if y =? 0 then Some x
  else match fuel with
       | O => None
       | S fuel' => gcd_loop fuel' y (x mod y)
       end.

(** What [fracgcd] returns: an integer, or a pair [(p, q)]. *)
Inductive frac : Type :=
  | FInt (p : Z)
  | FPair (p q : Z).

Definition fracgcd (p q : Z) : res frac :=
  match gcd_loop (Z.abs_nat q) p q with
  | None => Raise RuntimeError
  | Some x =>
      pq ← (if negb (x =? 1) then
              p' ← floordiv p x;
              q' ← floordiv q x;
              Ret (p', q')
            else Ret (p, q));
      if pq.2 =? 1 then Ret (FInt pq.1) else Ret (FPair pq.1 pq.2)
  end.

(** [constants[i][1]] *)
Definition const_name {V : Type} (constants : list (V * string)) (i : nat) : res string :=
  match constants !! i with
  | Some c => Ret c.2
  | None => Raise IndexError
  end.

(** The terms [pslqstring] collects for [r[1:]]. *)
Fixpoint pslq_terms {V : Type} (q : Z) (r : list Z) (i : nat)
    (constants : list (V * string)) : res (list string) :=
  match r with
  | [] => Ret []
  | p :: r' =>
      if p =? 0 then pslq_terms q r' (S i) constants
      else
        z ← fracgcd (- p) q;
        cs ← const_name constants i;
        let cs := if String.eqb cs "1" then "" else "*" +:+ cs in
        let term :=
          match z with
          | FInt z => if 0 <? z then str z +:+ cs
                      else "(" +:+ str z +:+ ")" +:+ cs
          | FPair a b => "(" +:+ str a +:+ "/" +:+ str b +:+ ")" +:+ cs
          end in
        rest ← pslq_terms q r' (S i) constants;
        Ret (term :: rest)
  end.

Definition pslqstring {V : Type} (r : list Z) (constants : list (V * string))
  : res string :=
  match r with
  | [] => Raise IndexError
  | q :: r =>
      s ← pslq_terms q r 0 constants;
      let s := String.concat " + " s in
      let s := if py_contains "+" s || py_contains "*" s
               then "(" +:+ s +:+ ")" else s in
      Ret (if String.eqb s "" then "0" else s)
  end.

(** The numerator and denominator factors [prodstring] collects. *)
Fixpoint prod_terms {V : Type} (q : Z) (r : list Z) (i : nat)
    (constants : list (V * string)) (num den : list string)
  : res (list string * list string) :=
  match r with
  | [] => Ret (num, den)
  | p :: r' =>
      if p =? 0 then prod_terms q r' (S i) constants num den
      else
        z ← fracgcd (- p) q;
        cs ← const_name constants i;
        match z with
        | FInt z =>
            let t := if Z.abs z =? 1 then cs else cs +:+ "**" +:+ str (Z.abs z) in
            if z <? 0 then prod_terms q r' (S i) constants num (den ++ [t])
            else prod_terms q r' (S i) constants (num ++ [t]) den
        | FPair a b =>
            let t := cs +:+ "**(" +:+ str (Z.abs a) +:+ "/" +:+ str b +:+ ")" in
            if a <? 0 then prod_terms q r' (S i) constants num (den ++ [t])
            else prod_terms q r' (S i) constants (num ++ [t]) den
        end
  end.

(** [prodstring] falls off its end, returning [None], when no factor was
    collected. *)
Definition prodstring {V : Type} (r : list Z) (constants : list (V * string))
  : res (option string) :=
  match r with
  | [] => Raise IndexError
  | q :: r =>
      nd ← prod_terms q r 0 constants [] [];
      let num := String.concat "*" nd.1 in
      let den := String.concat "*" nd.2 in
      if negb (String.eqb num "") && negb (String.eqb den "")
      then Ret (Some ("(" +:+ num +:+ ")/(" +:+ den +:+ ")"))
      else if negb (String.eqb num "") then Ret (Some num)
      else if negb (String.eqb den "") then Ret (Some ("1/(" +:+ den +:+ ")"))
      else Ret None
  end.

(** What [identify] returns: [None], a formula, or a list of formulas. *)
Inductive py_result : Type :=
  | RNone
  | RStr (s : string)
  | RList (l : list string).

(** A loop whose body may [return] from the enclosing function. *)
Inductive flow (S R : Type) : Type :=
  | Go (s : S)
  | Return (r : R).
Arguments Go {S R} s.
Arguments Return {S R} r.

Fixpoint for_ret {I S R : Type} (l : list I) (body : I -> S -> res (flow S R)) (s : S)
  : res (flow S R) :=
  match l with
  | [] => Ret (Go s)
  | i :: l' =>
      c ← body i s;
      match c with
      | Go s' => for_ret l' body s'
      | Return r => Ret (Return r)
      end
  end.

(** [sorted(solutions, key=len)]: a stable sort by length; [len(None)] is
    a TypeError. *)
Fixpoint insert_by_len (s : string) (l : list string) : list string :=
  match l with
  | [] => [s]
  | t :: l' =>
      if (String.length t <=? String.length s)%nat
      then t :: insert_by_len s l'
      else s :: l
  end.

Definition sort_by_len (l : list string) : list string :=
  foldl (fun acc s => insert_by_len s acc) [] l.

Definition sorted_by_len (solutions : list (option string)) : res (list string) :=
  strs ← map_res (fun o => match o with
                           | Some s => Ret s
                           | None => Raise TypeError
                           end) solutions;
  Ret (sort_by_len strs).

(** ["-(%s)" % s] *)
Definition negated (s : string) : string := "-(" +:+ s +:+ ")".

(** The [constants] argument of [identify]: a list of expression strings,
    or a dictionary from names to values (its items in iteration order). *)
Inductive constants_arg (V : Type) : Type :=
  | ConstList (l : list string)
  | ConstDict (items : list (string * V)).
Arguments ConstList {V} l.
Arguments ConstDict {V} items.

(** [1 == name] for a string [name]: an integer never equals a string. *)
Definition int_eq_str (k : Z) (name : string) : bool := false.

(** [target], as [pslq] computes it before the threshold.  [int(prec * 0.75)]
    is the integer part of three quarters of [prec]. *)
Definition pslq_target (prec n : Z) : Z :=
  let target := prec / Z.max 2 n in
  if target <? 30 then Z.quot (prec * 3) 4 else target.

Section Recognizer.
Context `{Engine}.

(** [eval(p, mpmath.__dict__)]: Python's evaluation of the expression
    string [p] in mpmath's namespace. *)
Variable py_eval : string -> res mpf.

(** *** pslq *)

(** [pslq(x, eps)] up to the conversions to fixed point: the raised
    precision, [n], the threshold and the vector, with [None] in front.
    The low-precision warning is only printed. *)
Definition pslq_args (x : list mpf) (eps : option mpf)
  : res (Z * Z * Z * list pyval) :=
  let n := Z.of_nat (length x) in
  _ ← py_assert (1 <=? n);
  let prec := mp_prec in
  _ ← py_assert (53 <=? prec);
  let target := pslq_target prec n in
  eps ← match eps with
        | None => mpf_pow_int (mpf_of_Z 2) (- target)
        | Some e => Ret e
        end;
  let extra := 60 in
  let prec := prec + extra in
  let eps := to_fixed eps prec in
  let x := PyNone :: map (fun xk => PyInt (to_fixed xk prec)) x in
  Ret (prec, n, eps, x).

(** [pslq(x, eps)].  The value [g] the code computes before the
    initialization is never read. *)
Definition pslq (x : list mpf) (eps : option mpf) : res (option (list Z)) :=
  a ← pslq_args x eps;
  let '(prec, n, eps, x) := a in
  pslq_fixed sqrt_fixed prec n eps x.

(** *** findpoly *)

Fixpoint findpoly_from (x : mpf) (degrees : list Z) (xs : list mpf)
  : res (option (list Z)) :=
  match degrees with
  | [] => Ret None
  | i :: rest =>
      xi ← mpf_pow_int x i;
      let xs := xs ++ [xi] in
      a ← pslq xs None;
      match a with
      | Some a => Ret (Some (reverse a))
      | None => findpoly_from x rest xs
      end
  end.

Definition findpoly (x : mpf) (n : Z) : res (option (list Z)) :=
  if mpf_eqb x (mpf_of_Z 0) then Ret (Some [1; 0])
  else findpoly_from x (py_range 1 (n + 1)) [mpf_of_Z 1].

(** *** quadraticstring *)

Definition quadraticstring (t : mpf) (a b c : Z) : res string :=
  let '(a, b, c) := if c <? 0 then (- a, - b, - c) else (a, b, c) in
  d1 ← mpf_sqrt (mpf_of_Z (b ^ 2 - 4 * a * c));
  u1 ← mpf_div (mpf_add (mpf_of_Z (- b)) d1) (mpf_of_Z (2 * c));
  d2 ← mpf_sqrt (mpf_of_Z (b ^ 2 - 4 * a * c));
  u2 ← mpf_div (mpf_sub (mpf_of_Z (- b)) d2) (mpf_of_Z (2 * c));
  if mpf_ltb (mpf_abs (mpf_sub u1 t)) (mpf_abs (mpf_sub u2 t)) then
    if negb (b =? 0)
    then Ret ("((" +:+ str (- b) +:+ "+sqrt(" +:+ str (b ^ 2 - 4 * a * c)
              +:+ "))/" +:+ str (2 * c) +:+ ")")
    else Ret ("(sqrt(" +:+ str (- 4 * a * c) +:+ ")/" +:+ str (2 * c) +:+ ")")
  else
    if negb (b =? 0)
    then Ret ("((" +:+ str (- b) +:+ "-sqrt(" +:+ str (b ^ 2 - 4 * a * c)
              +:+ "))/" +:+ str (2 * c) +:+ ")")
    else Ret ("(-sqrt(" +:+ str (- 4 * a * c) +:+ ")/" +:+ str (2 * c) +:+ ")").

(** *** The transform catalog *)

Definition sqr (x : mpf) : res mpf := mpf_pow_int x 2.

(** Transformation [y = f(x,c)], the template of its inverse, and whether
    it is redundant when [c = 1]. *)
Definition transforms : list ((mpf -> mpf -> res mpf) * string * bool) :=
  [ (fun x c => Ret (mpf_mul x c), "$y/$c", false);
    (fun x c => mpf_div x c, "$c*$y", true);
    (fun x c => mpf_div c x, "$c/$y", false);
    (fun x c => sqr (mpf_mul x c), "sqrt($y)/$c", false);
    (fun x c => u ← mpf_div x c; sqr u, "$c*sqrt($y)", true);
    (fun x c => u ← mpf_div c x; sqr u, "$c/sqrt($y)", false);
    (fun x c => u ← sqr x; Ret (mpf_mul c u), "sqrt($y)/sqrt($c)", true);
    (fun x c => u ← sqr x; mpf_div u c, "sqrt($c)*sqrt($y)", true);
    (fun x c => u ← sqr x; mpf_div c u, "sqrt($c)/sqrt($y)", true);
    (fun x c => mpf_sqrt (mpf_mul x c), "$y**2/$c", false);
    (fun x c => u ← mpf_div x c; mpf_sqrt u, "$c*$y**2", true);
    (fun x c => u ← mpf_div c x; mpf_sqrt u, "$c/$y**2", false);
    (fun x c => u ← mpf_sqrt x; Ret (mpf_mul c u), "$y**2/$c**2", true);
    (fun x c => u ← mpf_sqrt x; mpf_div u c, "$c**2*$y**2", true);
    (fun x c => u ← mpf_sqrt x; mpf_div c u, "$c**2/$y**2", true);
    (fun x c => mpf_exp (mpf_mul x c), "log($y)/$c", false);
    (fun x c => u ← mpf_div x c; mpf_exp u, "$c*log($y)", true);
    (fun x c => u ← mpf_div c x; mpf_exp u, "$c/log($y)", false);
    (fun x c => u ← mpf_exp x; Ret (mpf_mul c u), "log($y/$c)", true);
    (fun x c => u ← mpf_exp x; mpf_div u c, "log($c*$y)", true);
    (fun x c => u ← mpf_exp x; mpf_div c u, "log($c/$y)", false);
    (fun x c => mpf_log (mpf_mul x c), "exp($y)/$c", false);
    (fun x c => u ← mpf_div x c; mpf_log u, "$c*exp($y)", true);
    (fun x c => u ← mpf_div c x; mpf_log u, "$c/exp($y)", false);
    (fun x c => u ← mpf_log x; Ret (mpf_mul c u), "exp($y/$c)", true);
    (fun x c => u ← mpf_log x; mpf_div u c, "exp($c*$y)", true);
    (fun x c => u ← mpf_log x; mpf_div c u, "exp($c/$y)", false) ].

(** *** identify *)

(** [max(abs(uw) for uw in r) <= maxcoeff and r[0]] *)
Definition accepts (r : list Z) (maxcoeff : Z) : res bool :=
  mx ← py_max_abs r;
  if mx <=? maxcoeff then
    match r with
    | [] => Raise IndexError
    | r0 :: _ => Ret (negb (r0 =? 0))
    end
  else Ret false.

(** The inverse template [ftn] filled with the formula [s] and the
    constant's name [cn]. *)
Definition fill_template (ftn cn s : string) : string :=
  if String.eqb cn "1" && py_contains "/$c" ftn
  then replace (replace ftn "$y" s) "/$c" ""
  else replace (replace ftn "$y" s) "$c" cn.

(** [solutions[0]] as the value [identify] returns. *)
Definition first_solution (solutions : list (option string)) : res py_result :=
  match solutions with
  | [] => Raise IndexError
  | Some s :: _ => Ret (RStr s)
  | None :: _ => Ret RNone
  end.

(** The formula, if any, for the transformed value [t]: the linear
    combination of the base constants first, then the quadratic. *)
Definition formula_for (t : mpf) (constants : list (mpf * string))
    (maxcoeff : Z) (weps : mpf) (quadratics : bool) : res (option string) :=
  r ← pslq (t :: map fst constants) (Some weps);
  lin ← match r with
        | Some r => accepts r maxcoeff
        | None => Ret false
        end;
  match r, lin with
  | Some r, true => s ← pslqstring r constants; Ret (Some s)
  | _, _ =>
      if quadratics then
        t2 ← sqr t;
        q ← pslq [mpf_of_Z 1; t; t2] (Some weps);
        match q with
        | Some [aa; bb; cc] =>
            if negb (cc =? 0) then
              if Z.max (Z.max (Z.abs aa) (Z.abs bb)) (Z.abs cc) <=? maxcoeff
              then s ← quadraticstring t aa bb cc; Ret (Some s)
              else Ret None
            else Ret None
        | _ => Ret None
        end
      else Ret None
  end.

(** The body of the two nested loops over transforms and constants. *)
Definition try_pair (x : mpf) (constants : list (mpf * string)) (full : bool)
    (maxcoeff : Z) (weps : mpf) (quadratics : bool)
    (tr : (mpf -> mpf -> res mpf) * string * bool) (c : mpf * string)
    (solutions : list (option string))
  : res (flow (list (option string)) py_result) :=
  let '(ft, ftn, red) := tr in
  let '(cv, cn) := c in
  if red && String.eqb cn "1" then Ret (Go solutions)
  else
    t ← ft x cv;
    if mpf_ltb (mpf_of_Z (maxcoeff ^ 2)) (mpf_abs t) || mpf_ltb (mpf_abs t) weps
    then Ret (Go solutions)
    else
      s ← formula_for t constants maxcoeff weps quadratics;
      match s with
      | Some s =>
          if String.eqb s "" then Ret (Go solutions)
          else
            let solutions := solutions ++ [Some (fill_template ftn cn s)] in
            if negb full then r ← first_solution solutions; Ret (Return r)
            else Ret (Go solutions)
      | None => Ret (Go solutions)
      end.

Definition transform_search (x : mpf) (constants : list (mpf * string))
    (full : bool) (maxcoeff : Z) (weps : mpf) (quadratics : bool)
  : res (flow (list (option string)) py_result) :=
  for_ret transforms (fun tr solutions =>
    for_ret constants (fun c solutions =>
      try_pair x constants full maxcoeff weps quadratics tr c solutions)
      solutions) [].

Definition ilogs : list Z := [2; 3; 5; 7].

(** [sum(bool(findpoly(log(a)/log(i),1)) for i in ilogs)] *)
Definition prime_power_count (a : mpf) : res Z :=
  for_ ilogs (fun i count =>
    la ← mpf_log a;
    li ← mpf_log (mpf_of_Z i);
    v ← mpf_div la li;
    p ← findpoly v 1;
    Ret (count + match p with
                 | Some (_ :: _) => 1
                 | _ => 0
                 end)) 0.

(** The list [logs] of the multiplicative search. *)
Definition product_logs (constants : list (mpf * string)) : res (list (mpf * string)) :=
  logs ← for_ constants (fun c logs =>
            count ← prime_power_count c.1;
            if count =? 0 then la ← mpf_log c.1; Ret (logs ++ [(la, c.2)])
            else Ret logs) [];
  small ← map_res (fun i => li ← mpf_log (mpf_of_Z i); Ret (li, str i)) ilogs;
  Ret (small ++ logs).

(** The direct multiplicative formula. *)
Definition product_search (x : mpf) (constants : list (mpf * string))
    (full : bool) (maxcoeff : Z) (weps : mpf) (solutions : list (option string))
  : res (flow (list (option string)) py_result) :=
  logs ← product_logs constants;
  lx ← mpf_log x;
  r ← pslq (lx :: map fst logs) (Some weps);
  lin ← match r with
        | Some r => accepts r maxcoeff
        | None => Ret false
        end;
  match r, lin with
  | Some r, true =>
      s ← prodstring r logs;
      let solutions := solutions ++ [s] in
      if negb full then r ← first_solution solutions; Ret (Return r)
      else Ret (Go solutions)
  | _, _ => Ret (Go solutions)
  end.

(** The base constants as pairs of a value and a name. *)
Definition resolve_constants (constants : constants_arg mpf)
  : res (list (mpf * string)) :=
  match constants with
  | ConstDict items => Ret (map (fun nv => (nv.2, nv.1)) items)
  | ConstList l => map_res (fun p => v ← py_eval p; Ret (v, p)) l
  end.

(** [if 1 not in [value for (name, value) in constants]]: the pairs are
    (value, name) pairs, so the list the test reads holds their second
    components. *)
Definition with_one (constants : list (mpf * string)) : list (mpf * string) :=
  if negb (existsb (int_eq_str 1) (map snd constants))
  then (mpf_of_Z 1, "1") :: constants
  else constants.

(** The constants the searches range over. *)
Definition searched_constants (constants : constants_arg mpf)
  : res (list (mpf * string)) :=
  cs ← resolve_constants constants;
  Ret (with_one cs).

(** [weps] *)
Definition threshold (tolerance : option mpf) : res mpf :=
  match tolerance with
  | Some t => if mpf_eqb t (mpf_of_Z 0) then mpf_pow mp_eps float_0_7 else Ret t
  | None => mpf_pow mp_eps float_0_7
  end.

(** [identify] from [sols = []] on, where [x] is taken to be positive. *)
Definition identify_positive (x : mpf) (constants : constants_arg mpf)
    (full : bool) (maxcoeff : Z) (tolerance : option mpf) (quadratics : bool)
  : res py_result :=
  weps ← threshold tolerance;
  constants ← searched_constants constants;
  f ← transform_search x constants full maxcoeff weps quadratics;
  match f with
  | Return r => Ret r
  | Go solutions =>
      f ← (if negb (mpf_eqb x (mpf_of_Z 1))
           then product_search x constants full maxcoeff weps solutions
           else Ret (Go solutions));
      match f with
      | Return r => Ret r
      | Go solutions =>
          if full then l ← sorted_by_len solutions; Ret (RList l)
          else Ret RNone
      end
  end.

(** What the negative case makes of the recursive call's result.  With
    [full] the recursive call returns a list, without it a string or
    [None]; the two other combinations do not arise. *)
Definition negate_result (full : bool) (sol : py_result) : res py_result :=
  match sol with
  | RNone => Ret RNone
  | RList l => if full then Ret (RList (map negated l)) else Raise TypeError
  | RStr s => if full then Raise TypeError else Ret (RStr (negated s))
  end.

(** [identify]; [depth] bounds the nesting of its calls, as the
    interpreter's recursion limit does.  [verbose] only prints. *)
Fixpoint identify (depth : nat) (x : mpf) (constants : constants_arg mpf)
    (full : bool) (maxcoeff : Z) (tolerance : option mpf) (quadratics : bool)
  : res py_result :=
  match depth with
  | O => Raise RuntimeError
  | S depth' =>
      if mpf_eqb x (mpf_of_Z 0) then
        Ret (if full then RList ["0"] else RStr "0")
      else if mpf_ltb x (mpf_of_Z 0) then
        sol ← identify depth' (mpf_neg x) constants full maxcoeff tolerance quadratics;
        negate_result full sol
      else identify_positive x constants full maxcoeff tolerance quadratics
  end.

End Recognizer.

(** ** A concrete engine

    Reals as integers scaled by [2^64], with elementary functions computed
    in that fixed point.  It instantiates [Engine] so that the definitions
    above can be run. *)
Module Dyadic.

Definition one : Z := Z.shiftl 1 64.
Definition of_Z (k : Z) : Z := Z.shiftl k 64.
Definition mul (a b : Z) : Z := Z.shiftr (a * b) 64.
Definition div (a b : Z) : res Z :=
  if b =? 0 then Raise ZeroDivisionError else Ret (Z.shiftl a 64 / b).
(** The square root of a number that is not negative.  These numbers have
    no complex values: for a negative argument, where [sqrt] of mpmath
    gives a complex number, this engine raises, and it is used on inputs
    that take no negative square root only. *)
Definition sqrt (a : Z) : res Z :=
  if a <? 0 then Raise ValueError else Ret (Z.sqrt (Z.shiftl a 64)).

(** Partial sums of the exponential series: [term] is [a^(k-1)/(k-1)!]. *)
Fixpoint exp_series (terms : nat) (k term acc a : Z) : Z :=
  match terms with
  | O => acc
  | S terms' =>
      let term' := mul term a / k in
      exp_series terms' (k + 1) term' (acc + term') a
  end.

Fixpoint square_times (j : nat) (v : Z) : Z :=
  match j with
  | O => v
  | S j' => square_times j' (mul v v)
  end.

(** [exp a = (exp (a / 2^j))^(2^j)] with [|a| / 2^j < 1]. *)
Definition exp (a : Z) : res Z :=
  let j := Z.log2 (Z.shiftr (Z.abs a) 64) + 1 in
  Ret (square_times (Z.to_nat j) (exp_series 30 1 one one (Z.shiftr a j))).

(** [2 * atanh z] by its series in odd powers of [z]. *)
Fixpoint atanh_series (terms : nat) (k power acc z2 : Z) : Z :=
  match terms with
  | O => 2 * acc
  | S terms' =>
      let power' := mul power z2 in
      atanh_series terms' (k + 2) power' (acc + power' / (k + 2)) z2
  end.

Definition log_mantissa (m : Z) : Z :=
  let z := Z.shiftl (m - one) 64 / (m + one) in
  atanh_series 45 1 z z (mul z z).

(** [log (m * 2^k) = k * log 2 + log m] with [1 <= m < 2]. *)
Definition log (a : Z) : res Z :=
  if a <=? 0 then Raise ValueError
  else
    let k := Z.log2 a - 64 in
    let m := Z.shiftl a (- k) in
    Ret (k * log_mantissa (of_Z 2) + log_mantissa m).

Definition pow (x y : Z) : res Z :=
  l ← log x; exp (mul y l).

Fixpoint pow_pos (x : Z) (k : nat) : Z :=
  match k with
  | O => one
  | S k' => mul x (pow_pos x k')
  end.

Definition pow_int (x k : Z) : res Z :=
  if 0 <=? k then Ret (pow_pos x (Z.to_nat k))
  else div one (pow_pos x (Z.to_nat (- k))).

#[export] Instance engine : Engine := {|
  mpf := Z;
  mp_prec := 53;
  mp_eps := Z.shiftl 1 12;
  float_0_7 := 7 * one / 10;
  mpf_of_Z := of_Z;
  mpf_neg := Z.opp;
  mpf_abs := Z.abs;
  mpf_add := Z.add;
  mpf_sub := Z.sub;
  mpf_mul := mul;
  mpf_div := div;
  mpf_pow_int := pow_int;
  mpf_pow := pow;
  mpf_sqrt := sqrt;
  mpf_exp := exp;
  mpf_log := log;
  mpf_eqb := Z.eqb;
  mpf_ltb := Z.ltb;
  to_fixed := fun x prec => Z.shiftl x (prec - 64);
  sqrt_fixed := fun x prec => Z.sqrt (Z.shiftl x prec)
|}.

(** [eval] on the expression strings of the docstring's examples; any
    other string is a NameError here. *)
Definition eval (p : string) : res Z :=
  if String.eqb p "pi" then Ret 57952155664616982739
  else if String.eqb p "sqrt(2)" then sqrt (of_Z 2)
  else if String.eqb p "log(2)" then log (of_Z 2)
  else Raise (OtherError "NameError").

(** Two sample values: 2/9 and 1/2. *)
Definition two_ninths : Z := 2 * one / 9.
Definition one_half : Z := Z.shiftl 1 63.

End Dyadic.

(** ** The vocabulary of the statements *)

(** The target as the specification words it: the working precision
    divided by [n], floored at a minimum useful precision [floor]. *)
Definition spec_target (floor prec n : Z) : Z := Z.max (prec / n) floor.

(** The formulas a result of [identify] holds. *)
Definition formulas (r : py_result) : list string :=
  match r with
  | RNone => []
  | RStr s => [s]
  | RList l => l
  end.

(** Nondecreasing length. *)
Definition shorter (a b : string) : Prop := (String.length a <= String.length b)%nat.

(** The result has the type [full] selects: a list with it, a string or
    [None] without it. *)
Definition result_shape (full : bool) (r : py_result) : Prop :=
  if full then exists l, r = RList l /\ Sorted shorter l
  else r = RNone \/ exists s, r = RStr s.

Section Origins.
Context `{Engine}.
Variable py_eval : string -> res mpf.

(** [s] was built from a linear relation, found for a transform of [x]
    and the base constants, none of whose coefficients exceeds [maxcoeff]. *)
Definition linear_origin (x : mpf) (constants : list (mpf * string))
    (maxcoeff : Z) (weps : mpf) (s : string) : Prop :=
  exists ft ftn red cv cn t r s0,
    In (ft, ftn, red) transforms /\ In (cv, cn) constants /\
    ft x cv = Ret t /\
    pslq (t :: map fst constants) (Some weps) = Ret (Some r) /\
    Forall (fun v => Z.abs v <= maxcoeff) r /\
    pslqstring r constants = Ret s0 /\
    s = fill_template ftn cn s0.

(** [s] was built from a quadratic relation [aa, bb, cc] for a transform
    of [x], none of whose coefficients exceeds [maxcoeff]. *)
Definition quadratic_origin (x : mpf) (constants : list (mpf * string))
    (maxcoeff : Z) (weps : mpf) (s : string) : Prop :=
  exists ft ftn red cv cn t t2 aa bb cc s0,
    In (ft, ftn, red) transforms /\ In (cv, cn) constants /\
    ft x cv = Ret t /\ sqr t = Ret t2 /\
    pslq [mpf_of_Z 1; t; t2] (Some weps) = Ret (Some [aa; bb; cc]) /\
    Forall (fun v => Z.abs v <= maxcoeff) [aa; bb; cc] /\
    quadraticstring t aa bb cc = Ret s0 /\
    s = fill_template ftn cn s0.

(** [o] was built by the multiplicative search from a relation none of
    whose coefficients exceeds [maxcoeff]. *)
Definition product_origin (x : mpf) (constants : list (mpf * string))
    (maxcoeff : Z) (weps : mpf) (o : option string) : Prop :=
  exists logs lx r,
    product_logs constants = Ret logs /\ mpf_log x = Ret lx /\
    pslq (lx :: map fst logs) (Some weps) = Ret (Some r) /\
    Forall (fun v => Z.abs v <= maxcoeff) r /\
    prodstring r logs = Ret o.

Definition bounded_origin (x : mpf) (constants : list (mpf * string))
    (maxcoeff : Z) (weps : mpf) (o : option string) : Prop :=
  (exists s, o = Some s /\
             (linear_origin x constants maxcoeff weps s \/
              quadratic_origin x constants maxcoeff weps s)) \/
  product_origin x constants maxcoeff weps o.

(** Where a formula returned by [identify] for [x] comes from: the
    shortcut for zero, the negation of a formula for [-x], or one of the
    two searches. *)
Inductive formula_origin (constants : constants_arg mpf) (maxcoeff : Z)
    (tolerance : option mpf) : mpf -> string -> Prop :=
  | origin_zero x :
      mpf_eqb x (mpf_of_Z 0) = true ->
      formula_origin constants maxcoeff tolerance x "0"
  | origin_negative x s :
      mpf_eqb x (mpf_of_Z 0) = false ->
      mpf_ltb x (mpf_of_Z 0) = true ->
      formula_origin constants maxcoeff tolerance (mpf_neg x) s ->
      formula_origin constants maxcoeff tolerance x (negated s)
  | origin_search x weps cs s :
      mpf_eqb x (mpf_of_Z 0) = false ->
      mpf_ltb x (mpf_of_Z 0) = false ->
      threshold tolerance = Ret weps ->
      searched_constants py_eval constants = Ret cs ->
      bounded_origin x cs maxcoeff weps (Some s) ->
      formula_origin constants maxcoeff tolerance x s.

(** The list [solutions] the two searches leave for a positive [x] when
    [full] is set: the search over transforms and constants, followed,
    unless [x == 1], by the multiplicative search. *)
Definition solutions_found (x : mpf) (cs : list (mpf * string)) (maxcoeff : Z)
    (weps : mpf) (quadratics : bool) (solutions : list (option string)) : Prop :=
  exists found,
    transform_search x cs true maxcoeff weps quadratics = Ret (Go found) /\
    if mpf_eqb x (mpf_of_Z 1) then solutions = found
    else product_search x cs true maxcoeff weps found = Ret (Go solutions).

(** The list [identify] returns for [x] when [full] is set: [['0']] for
    zero, the wrapped list for [-x], or a rearrangement of the solutions
    the searches found. *)
Inductive full_result (constants : constants_arg mpf) (maxcoeff : Z)
    (tolerance : option mpf) (quadratics : bool) : mpf -> list string -> Prop :=
  | full_zero x :
      mpf_eqb x (mpf_of_Z 0) = true ->
      full_result constants maxcoeff tolerance quadratics x ["0"]
  | full_negative x l :
      mpf_eqb x (mpf_of_Z 0) = false ->
      mpf_ltb x (mpf_of_Z 0) = true ->
      full_result constants maxcoeff tolerance quadratics (mpf_neg x) l ->
      full_result constants maxcoeff tolerance quadratics x (map negated l)
  | full_search x weps cs solutions l :
      mpf_eqb x (mpf_of_Z 0) = false ->
      mpf_ltb x (mpf_of_Z 0) = false ->
      threshold tolerance = Ret weps ->
      searched_constants py_eval constants = Ret cs ->
      solutions_found x cs maxcoeff weps quadratics solutions ->
      Permutation (map Some l) solutions ->
      full_result constants maxcoeff tolerance quadratics x l.

(** No match is found for [x]: the searches, for [x] or for [-x] when [x]
    is negative, leave no solution. *)
Inductive no_match (constants : constants_arg mpf) (maxcoeff : Z)
    (tolerance : option mpf) (quadratics : bool) : mpf -> Prop :=
  | no_match_negative x :
      mpf_eqb x (mpf_of_Z 0) = false ->
      mpf_ltb x (mpf_of_Z 0) = true ->
      no_match constants maxcoeff tolerance quadratics (mpf_neg x) ->
      no_match constants maxcoeff tolerance quadratics x
  | no_match_search x weps cs :
      mpf_eqb x (mpf_of_Z 0) = false ->
      mpf_ltb x (mpf_of_Z 0) = false ->
      threshold tolerance = Ret weps ->
      searched_constants py_eval constants = Ret cs ->
      solutions_found x cs maxcoeff weps quadratics [] ->
      no_match constants maxcoeff tolerance quadratics x.

End Origins.

(** What a loop of [identify] may leave: solutions that all satisfy [Q],
    or, only without [full], the first of them as the returned value. *)
Definition search_post (full : bool) (Q : option string -> Prop)
    (out : flow (list (option string)) py_result) : Prop :=
  match out with
  | Go solutions => Forall Q solutions
  | Return r =>
      full = false /\
      match r with
      | RStr s => Q (Some s)
      | RNone => True
      | RList _ => False
      end
  end.

(** ** Vectors and ODE steps *)

(** [l[i]] for an index that is not negative. *)
Definition list_item {A : Type} (l : list A) (i : nat) : res A :=
  match l !! i with
  | Some v => Ret v
  | None => Raise IndexError
  end.

Section Numerics.
Context `{Engine}.

(** [smul(a, x)] *)
Definition smul (a : mpf) (x : list mpf) : list mpf := map (mpf_mul a) x.

(** [vadd(x, y, ...)]: [args] is the tuple of the vectors. *)
Definition vadd (args : list (list mpf)) : res (list mpf) :=
  _ ← py_assert (2 <=? Z.of_nat (length args));
  x0 ← list_item args 0;
  let n := length x0 in
  let rest := drop 1 args in
  _ ← for_ args (fun x _ => py_assert (length x =? n)%nat) tt;
  map_res (fun i =>
             s ← list_item x0 i;
             for_ rest (fun x s => xi ← list_item x i; Ret (mpf_add s xi)) s)
          (seq 0 n).

(** The sum of the entries at position [i], taken from left to right. *)
Definition column_sum (args : list (list mpf)) (i : nat) : option mpf :=
  match args with
  | [] => None
  | x0 :: rest =>
      s0 ← x0 !! i;
      foldl (fun acc x => s ← acc; xi ← x !! i; Some (mpf_add s xi)) (Some s0) rest
  end.

(** [ODE_step_euler(x, y, h, derivs)] *)
Definition ODE_step_euler (derivs : list mpf -> mpf -> res (list mpf))
    (x : mpf) (y : list mpf) (h : mpf) : res (list mpf) :=
  X ← derivs y x;
  vadd [y; smul h X].

Section RungeKutta.
(** [ldexp(x, k)] and the module constant [half = mpf(0.5)]. *)
Variable ldexp : mpf -> Z -> mpf.
Variable half : mpf.

(** [ODE_step_rk4(x, y, h, derivs)] *)
Definition ODE_step_rk4 (derivs : list mpf -> mpf -> res (list mpf))
    (x : mpf) (y : list mpf) (h : mpf) : res (list mpf) :=
  let h2 := ldexp h (-1) in
  third ← mpf_div (mpf_of_Z 1) (mpf_of_Z 3);
  d1 ← derivs y x;
  let k1 := smul h d1 in
  a2 ← vadd [y; smul half k1];
  d2 ← derivs a2 (mpf_add x h2);
  let k2 := smul h d2 in
  a3 ← vadd [y; smul half k2];
  d3 ← derivs a3 (mpf_add x h2);
  let k3 := smul h d3 in
  a4 ← vadd [y; k3];
  d4 ← derivs a4 (mpf_add x h);
  let k4 := smul h d4 in
  map_res (fun i =>
             yi ← list_item y i;
             k2i ← list_item k2 i;
             k3i ← list_item k3 i;
             k1i ← list_item k1 i;
             k4i ← list_item k4 i;
             Ret (mpf_add yi
                    (mpf_mul third
                       (mpf_add (mpf_add k2i k3i)
                                (mpf_mul half (mpf_add k1i k4i))))))
          (seq 0 (length y)).
End RungeKutta.

(** [odeint(derivs, x0, t_list, step)]: [step t x dt] stands for
    [step(t, x, dt, derivs)]. *)
Definition odeint {X : Type} (step : mpf -> X -> mpf -> res X)
    (x0 : X) (t_list : list mpf) : res (list X) :=
  xr ← for_ (seq 0 (length t_list - 1)) (fun i xr =>
          t1 ← list_item t_list (i + 1);
          t0 ← list_item t_list i;
          x ← step t0 xr.1 (mpf_sub t1 t0);
          Ret (x, xr.2 ++ [x])) (x0, [x0]);
  Ret xr.2.

End Numerics.

(** ** Chebyshev polynomials in expanded form *)

Section Chebyshev.
(** The numbers [a] and [b] are of: Python integers by default, [mpf] in
    [chebyfit]. *)
Variable num : Type.
Variable num_of_Z : Z -> num.
Variables nadd nsub nmul : num -> num -> num.

(** [l[i] = f(l[i])] *)
Definition update_item (f : num -> num) (i : nat) (l : list num) : res (list num) :=
  match l !! i with
  | Some v => Ret (<[i := f v]> l)
  | None => Raise IndexError
  end.

(** Entry [i] of [vals] combined into entry [k + i] of [l]. *)
Fixpoint combine_from (f : num -> num -> num) (k : nat) (vals l : list num) : list num :=
  match vals with
  | [] => l
  | c :: vals' => combine_from f (S k) vals' (alter (fun v => f v c) k l)
  end.

(** [enumerate(l)] *)
Definition enumerate (l : list num) : list (nat * num) := zip (seq 0 (length l)) l.

(** One turn of the [while] loop of [chebT] after its [yield]: the new
    [Ta] and [Tb]. *)
Definition chebT_step (a b : num) (T : list num * list num)
  : res (list num * list num) :=
  let '(Ta, Tb) := T in
  let Tmp := num_of_Z 0 :: map (fun t => nmul (nmul (num_of_Z 2) a) t) Ta in
  Tmp ← for_ (enumerate Ta) (fun ic Tmp =>
           update_item (fun v => nadd v (nmul (nmul (num_of_Z 2) b) ic.2)) ic.1 Tmp)
         Tmp;
  Tmp ← for_ (enumerate Tb) (fun ic Tmp =>
           update_item (fun v => nsub v ic.2) ic.1 Tmp) Tmp;
  Ret (Tmp, Ta).

(** The pair [(Ta, Tb)] when [Ta] is yielded for the [k]th time. *)
Fixpoint chebT_state (a b : num) (k : nat) : res (list num * list num) :=
  match k with
  | O => Ret ([b; a], [num_of_Z 1])
  | S k' => T ← chebT_state a b k'; chebT_step a b T
  end.

(** The list the generator [chebT(a, b)] yields at its call number [k],
    counted from 0. *)
Definition chebT (a b : num) (k : nat) : res (list num) :=
  match k with
  | O => Ret [num_of_Z 1]
  | S k' => T ← chebT_state a b k'; Ret T.1
  end.

End Chebyshev.

(** The value of the polynomial with the integer coefficients [l], lowest
    degree first. *)
Definition eval_ascending (l : list Z) (x : Z) : Z :=
  foldr (fun c acc => c + x * acc) 0 l.

(** The Chebyshev polynomial [T_k] at the integer [y], by its recurrence. *)
Fixpoint chebyshev_pair (k : nat) (y : Z) : Z * Z :=
  match k with
  | O => (1, y)
  | S k' => let '(t0, t1) := chebyshev_pair k' y in (t1, 2 * y * t1 - t0)
  end.

Definition chebyshev (k : nat) (y : Z) : Z := (chebyshev_pair k y).1.

(** ** Polynomial evaluation *)

Section Polyval.
(** The numbers of [polyval] ([mpf] or [mpc] values), with [mpf(0)], the
    sum and the product. *)
Variable num : Type.
Variable nzero : num.
Variables nadd nmul : num -> num -> num.

(** What [polyval] returns: the value, or the pair of the value and the
    derivative. *)
Inductive polyval_result : Type :=
  | PolyValue (p : num)
  | PolyPair (p q : num).

(** One turn of the loop of [polyval] for the coefficient [c]. *)
Definition polyval_step (x : num) (derivative : bool) (pq : num * num) (c : num)
  : num * num :=
  let q := if derivative then nadd pq.1 (nmul x pq.2) else pq.2 in
  let p := nadd c (nmul x pq.1) in
  (p, q).

(** [polyval(coeffs, x, derivative)]; the coefficients are numbers
    already, so [mpnumeric] leaves the first one as it is. *)
Definition polyval (coeffs : list num) (x : num) (derivative : bool)
  : polyval_result :=
  match coeffs with
  | [] => PolyValue nzero
  | c0 :: rest =>
      let pq := foldl (polyval_step x derivative) (c0, nzero) rest in
      if derivative then PolyPair pq.1 pq.2 else PolyValue pq.1
  end.

(** [x^k] and [k*y] by repeated product and sum, and the polynomial with
    the coefficients [coeffs], highest degree first, with its derivative,
    written as sums of powers. *)
Variable none : num.

Fixpoint power (x : num) (k : nat) : num :=
  match k with
  | O => none
  | S k' => nmul x (power x k')
  end.

Fixpoint times (k : nat) (y : num) : num :=
  match k with
  | O => nzero
  | S k' => nadd y (times k' y)
  end.

Fixpoint power_sum (coeffs : list num) (x : num) : num :=
  match coeffs with
  | [] => nzero
  | c :: cs => nadd (nmul c (power x (length cs))) (power_sum cs x)
  end.

Fixpoint derivative_sum (coeffs : list num) (x : num) : num :=
  match coeffs with
  | [] => nzero
  | c :: cs =>
      nadd (times (length cs) (nmul c (power x (pred (length cs)))))
           (derivative_sum cs x)
  end.

End Polyval.
Arguments PolyValue {num} p.
Arguments PolyPair {num} p q.

(** ** The secant method *)

Section Secant.
Context `{Engine}.
(** [a <= b] on [mpf] and the constant [mpf(0.25)]. *)
Variable mpf_leb : mpf -> mpf -> bool.
Variable quarter : mpf.

(** The start of [secant]: the two start points. *)
Definition secant_start (x0 : mpf) (x1 : option mpf) : mpf * mpf :=
  (mpf_mul x0 (mpf_of_Z 1),
   match x1 with
   | None => mpf_add x0 quarter
   | Some x1 => mpf_mul x1 (mpf_of_Z 1)
   end).

(** [deriv = xdiff / ydiff] under its [try]: the quotient and the new
    [deriv_prev]; a zero division falls back on [deriv_prev], and is
    raised again when there is none. *)
Definition secant_deriv (xdiff ydiff : mpf) (deriv_prev : option mpf)
  : res (mpf * option mpf) :=
  match mpf_div xdiff ydiff with
  | Ret deriv => Ret (deriv, Some deriv)
  | Raise ZeroDivisionError =>
      match deriv_prev with
      | None => Raise ZeroDivisionError
      | Some deriv => Ret (deriv, deriv_prev)
      end
  | Raise e => Raise e
  end.

(** [for i in xrange(steps): ...] followed by [return x]. *)
Fixpoint secant_loop (f : mpf -> res mpf) (weps : mpf) (steps : nat)
    (x xprev fxprev : mpf) (deriv_prev : option mpf) : res mpf :=
  match steps with
  | O => Ret x
  | S steps' =>
      fx ← f x;
      let ydiff := mpf_sub fx fxprev in
      let xdiff := mpf_sub x xprev in
      dd ← secant_deriv xdiff ydiff deriv_prev;
      let x' := mpf_sub x (mpf_mul fx dd.1) in
      if mpf_leb (mpf_abs xdiff) weps then Ret x'
      else secant_loop f weps steps' x' x fx dd.2
  end.

(** [secant(f, x0, x1, maxsteps)]; [verbose] only prints. *)
Definition secant (f : mpf -> res mpf) (x0 : mpf) (x1 : option mpf) (maxsteps : Z)
  : res mpf :=
  let weps := mpf_mul (mpf_of_Z 2) mp_eps in
  let x := mpf_mul x0 (mpf_of_Z 1) in
  let xprev := match x1 with
               | None => mpf_add x0 quarter
               | Some x1 => mpf_mul x1 (mpf_of_Z 1)
               end in
  fxprev ← f xprev;
  secant_loop f weps (Z.to_nat maxsteps) x xprev fxprev None.

End Secant.

(** ** The integer matrices behind [A] and [B] *)

(** The sum of [f k] over the indices [k] of [l]. *)
Definition sumZ (l : list Z) (f : Z -> Z) : Z := foldr (fun k acc => f k + acc) 0 l.

(** [1] on the diagonal, [0] elsewhere. *)
Definition delta (a b : Z) : Z := if a =? b then 1 else 0.

(** The dictionary [d] holds, at every pair of indices from 1 to [n], the
    integer [M a b] scaled by [2^prec]. *)
Definition represents (prec n : Z) (d : gmap (Z * Z) Z) (M : Z -> Z -> Z) : Prop :=
  forall a b, 1 <= a <= n -> 1 <= b <= n -> d !! (a, b) = Some (M a b * 2 ^ prec).

(** The product of [MA] and [MB], as matrices of size [n], is the
    identity. *)
Definition inverse (n : Z) (MA MB : Z -> Z -> Z) : Prop :=
  forall a b, 1 <= a <= n -> 1 <= b <= n ->
              sumZ (py_range 1 (n + 1)) (fun k => MA a k * MB k b) = delta a b.

(** [A] and [B] hold integer matrices that are inverse to each other. *)
Definition unimodular (prec n : Z) (st : pslq_state) : Prop :=
  exists MA MB, represents prec n (st_A st) MA /\
                represents prec n (st_B st) MB /\
                inverse n MA MB.

(** The exchange of two indices. *)
Definition exchange (m a : Z) : Z :=
  if a =? m then m + 1 else if a =? m + 1 then m else a.

(** The sum of the products of the entries of [u] and [v]. *)
Definition dot (u v : list Z) : Z := foldr Z.add 0 (zip_with Z.mul u v).

(** ** The layout of the state of [pslq] *)

(** A computation returns a value with [P] or raises an exception with
    [E]. *)
Definition outcome {A : Type} (E : exn -> Prop) (P : A -> Prop) (r : res A) : Prop :=
  match r with
  | Ret a => P a
  | Raise e => E e
  end.

(** A list indexed from 1 to [n] that holds integers there. *)
Definition int_list (n : Z) (y : list pyval) : Prop :=
  length y = S (Z.to_nat n) /\
  forall k, 1 <= k <= n -> exists z, y !! Z.to_nat k = Some (PyInt z).

(** A dictionary that has every key [(a, b)] with [1 <= a, b <= n]. *)
Definition full (n : Z) (d : gmap (Z * Z) Z) : Prop :=
  forall a b, 1 <= a <= n -> 1 <= b <= n -> is_Some (d !! (a, b)).

Definition well_formed (n : Z) (st : pslq_state) : Prop :=
  int_list n (st_y st) /\ full n (st_H st) /\ full n (st_A st) /\ full n (st_B st).

(** The three dictionaries of a state have the key [key]. *)
Definition has_key (key : Z * Z) (st : pslq_state) : Prop :=
  is_Some (st_H st !! key) /\ is_Some (st_A st !! key) /\ is_Some (st_B st !! key).

(** The sum [t] of step 2 of the initialization for [k = 1]: the squares
    of the fixed-point values, each shifted back by [prec]. *)
Definition squared_norm (prec : Z) (xs : list Z) : Z :=
  foldl (fun t xj => t + Z.shiftr (xj ^ 2) prec) 0 xs.

(** ** Chebyshev approximation *)

(** [l[i] = v] *)
Definition set_item {A : Type} (l : list A) (i : nat) (v : A) : res (list A) :=
  match l !! i with
  | Some _ => Ret (<[i := v]> l)
  | None => Raise IndexError
  end.

(** A loop over a state that an exception leaves as it is at that moment:
    the loop gives the state it ended with and the exception, if any. *)
Fixpoint for_keep {I S : Type} (l : list I) (body : I -> S -> S * option exn) (s : S)
  : S * option exn :=
  match l with
  | [] => (s, None)
  | i :: l' =>
      match body i s with
      | (s', None) => for_keep l' body s'
      | r => r
      end
  end.

(** A step that replaces the state [s] by the value of [r], or raises and
    leaves [s]. *)
Definition keep {S : Type} (s : S) (r : res S) : S * option exn :=
  match r with
  | Ret s' => (s', None)
  | Raise e => (s, Some e)
  end.

(** A local variable that is read: unbound, it is an UnboundLocalError. *)
Definition read_local {A : Type} (v : option A) : res A :=
  match v with
  | Some a => Ret a
  | None => Raise (OtherError "UnboundLocalError")
  end.

Section ChebyshevFit.
(** The [mpf] numbers with their operations at a working precision, which
    is the first argument: [chebyfit] sets [mp.prec] for its body. *)
Variable num : Type.
Variable of_Z : Z -> num.
(** [mpf(0.5)] *)
Variable half : num.
Variables add sub mul : Z -> num -> num -> num.
Variable div : Z -> num -> num -> res num.
Variables neg abs pos cos : Z -> num -> num.
Variable pi : Z -> num.
Variable ltb : num -> num -> bool.
(** [int(N**0.5)] for [N >= 0]. *)
Variable int_sqrt : Z -> Z.

(** [chebcoeff(f,a,b,j,N)] at the precision [prec]. *)
Definition chebcoeff (prec : Z) (f : num -> res num) (a b : num) (j N : Z) : res num :=
  let h := half in
  s ← for_ (py_range 1 (N + 1)) (fun k s =>
         q ← div prec (mul prec (pi prec) (sub prec (of_Z k) h)) (of_Z N);
         let t := cos prec q in
         fx ← f (add prec (mul prec (mul prec t (sub prec b a)) h)
                          (mul prec (add prec b a) h));
         q' ← div prec (mul prec (mul prec (pi prec) (of_Z j)) (sub prec (of_Z k) h))
                  (of_Z N);
         Ret (add prec s (mul prec fx (cos prec q')))) (of_Z 0);
  div prec (mul prec (of_Z 2) s) (of_Z N).

(** [max(a, b)] *)
Definition py_max (a b : num) : num := if ltb a b then b else a.

(** [polyval(d, x)] *)
Definition polyval_value (prec : Z) (d : list num) (x : num) : num :=
  match polyval num (of_Z 0) (add prec) (mul prec) d x false with
  | PolyValue p => p
  | PolyPair p _ => p
  end.

(** [d[i] += c[k]*Tk[i]] for the entries of [Tk]. *)
Definition accumulate (prec : Z) (c Tk : list num) (k : nat) (d : list num)
  : list num * option exn :=
  for_keep (seq 0 (length Tk)) (fun i d =>
    keep d (di ← list_item d i;
            ck ← list_item c k;
            ti ← list_item Tk i;
            set_item d i (add prec di (mul prec ck ti)))) d.

(** The estimate of the maximum error. *)
Definition error_estimate (prec : Z) (f : num -> res num) (a b : num) (N : Z)
    (d : list num) : num * option exn :=
  let h := half in
  for_keep (py_range 0 N) (fun k err =>
    keep err (q ← div prec (mul prec (pi prec) (of_Z k)) (of_Z N);
              let x := add prec (mul prec (mul prec (cos prec q) (sub prec b a)) h)
                                (mul prec (add prec b a) h) in
              fx ← f x;
              Ret (py_max err (abs prec (sub prec fx (polyval_value prec d x))))))
    (of_Z 0).

(** [d[0] = -c[0]/2] *)
Definition set_first (prec : Z) (c d : list num) : res (list num) :=
  c0 ← list_item c 0;
  v ← div prec (neg prec c0) (of_Z 2);
  set_item d 0 v.

(** The arguments [mpf(2)/(b-a)] and [mpf(-1)*(b+a)/(b-a)] of [chebT]. *)
Definition chebT_arguments (prec : Z) (a b : num) : res (num * num) :=
  ta ← div prec (of_Z 2) (sub prec b a);
  tb ← div prec (mul prec (of_Z (-1)) (add prec b a)) (sub prec b a);
  Ret (ta, tb).

(** [for k in range(N): Tk = T.next(); ...] *)
Definition accumulate_all (prec : Z) (c : list num) (ta tb : num) (N : Z)
    (d : list num) : list num * option exn :=
  for_keep (seq 0 (Z.to_nat N)) (fun k d =>
    match chebT num of_Z (add prec) (sub prec) (mul prec) ta tb k with
    | Raise e => (d, Some e)
    | Ret Tk => accumulate prec c Tk k d
    end) d.

(** The coefficients [c]. *)
Definition coefficients (prec : Z) (f : num -> res num) (a b : num) (N : Z)
  : res (list num) :=
  map_res (fun k => chebcoeff prec f a b k N) (py_range 0 N).

(** The [try] block of [chebyfit]: the locals [d] and [err] when it is
    left, by its end or by an exception, each [None] while unbound.  [f]
    takes the precision it is called at. *)
Definition chebyfit_try (orig : Z) (f : Z -> num -> res num) (a b : num) (N : Z)
  : option (list num) * option num :=
  if N <? 0 then (None, None)
  else
    let prec := orig + int_sqrt N + 20 in
    match coefficients prec (f prec) a b N with
    | Raise _ => (None, None)
    | Ret c =>
        let d := replicate (Z.to_nat N) (of_Z 0) in
        match set_first prec c d with
        | Raise _ => (Some d, None)
        | Ret d =>
            match chebT_arguments prec a b with
            | Raise _ => (Some d, None)
            | Ret (ta, tb) =>
                match accumulate_all prec c ta tb N d with
                | (d, Some _) => (Some d, None)
                | (d, None) =>
                    let d := reverse d in
                    (Some d, Some (error_estimate prec (f prec) a b N d).1)
                end
            end
        end
    end.

(** [chebyfit(f,a,b,N,error)] called at the precision [orig]: the
    [finally] block returns, so that whatever the [try] block raised is
    dropped.  The result is [d], with [+err] when [error] is set. *)
Definition chebyfit (orig : Z) (f : Z -> num -> res num) (a b : num) (N : Z)
    (error : bool) : res (list num * option num) :=
  let locals := chebyfit_try orig f a b N in
  if error then
    d ← read_local locals.1;
    err ← read_local locals.2;
    Ret (d, Some (pos orig err))
  else
    d ← read_local locals.1;
    Ret (d, None).

End ChebyshevFit.

(** * Properties *)

(** ** The result monad *)

Lemma bind_Ret {A B} (f : A -> res B) (a : A) : (Ret a ≫= f) = f a.
Proof. reflexivity. Qed.

Lemma bind_Raise {A B} (f : A -> res B) (e : exn) : (Raise e ≫= f) = Raise e.
Proof. reflexivity. Qed.

Lemma bind_Ret_inv {A B} (f : A -> res B) (m : res A) (b : B) :
  (m ≫= f) = Ret b -> exists a, m = Ret a /\ f a = Ret b.
Proof. destruct m as [a|e]; simpl; [eauto | discriminate]. Qed.

(** ** Ranges, maxima and the termination check *)

Lemma elem_of_py_range (a b i : Z) : In i (py_range a b) <-> a <= i < b.
Proof.
  unfold py_range. rewrite <- list_elem_of_In, elem_of_seqZ. lia.
Qed.

Lemma py_max_abs_bound (vec : list Z) (mx : Z) :
  py_max_abs vec = Ret mx -> Forall (fun v => Z.abs v <= mx) vec.
Proof.
  destruct vec as [|v vs]; simpl; [discriminate|].
  intros [= <-].
  assert (Hfold : forall l acc,
             acc <= foldl (fun a w => Z.max a (Z.abs w)) acc l /\
             Forall (fun w => Z.abs w <= foldl (fun a w => Z.max a (Z.abs w)) acc l) l).
  { induction l as [|w l IH]; intros acc; simpl.
    - split; [lia | constructor].
    - destruct (IH (Z.max acc (Z.abs w))) as [Hle Hall].
      split; [lia|]. constructor; [lia | exact Hall]. }
  destruct (Hfold vs (Z.abs v)) as [Hle Hall].
  constructor; assumption.
Qed.

Lemma map_res_Forall2 {A B : Type} (f : A -> res B) (l : list A) (l' : list B) :
  map_res f l = Ret l' -> Forall2 (fun a b => f a = Ret b) l l'.
Proof.
  revert l'. induction l as [|a l IH]; simpl; intros l' Hm.
  - injection Hm as <-. constructor.
  - apply bind_Ret_inv in Hm as (b & Hb & Hm).
    apply bind_Ret_inv in Hm as (bs & Hbs & Hm).
    injection Hm as <-. constructor; auto.
Qed.

Section PslqCoreProperties.
Variable sq : Z -> Z -> Z.
Variables prec n eps : Z.

Local Abbreviation pass := (pslq_iteration sq prec n eps).
Local Abbreviation loop := (main_loop sq prec n eps).
Local Abbreviation passes := (after_passes sq prec n eps).

(** Every entry of a candidate is the rounded entry of column [i] of [B]. *)
Lemma candidate_entries (B : gmap (Z * Z) Z) (i : Z) (vec : list Z) :
  candidate prec n B i = Ret vec ->
  Forall2 (fun j v => exists b, B !! (j, i) = Some b /\
                                v = Z.shiftr (round_fixed b prec) prec)
          (py_range 1 (n + 1)) vec.
Proof.
  intros Hc. apply map_res_Forall2 in Hc.
  eapply Forall2_impl; [exact Hc|].
  intros j v Hj. simpl in Hj. unfold dict_get in Hj.
  destruct (B !! (j, i)) as [b|]; [|discriminate].
  injection Hj as <-. eauto.
Qed.

(** A vector the termination check returns was taken at a coordinate
    whose [y] is below the threshold, and is bounded. *)
Lemma check_from_found (coords : list Z) (st : pslq_state) (vec : list Z) :
  check_from prec n eps coords st = Ret (Some vec) ->
  exists i yi, In i coords /\ list_get_int (st_y st) i = Ret yi /\
               Z.abs yi < eps /\ candidate prec n (st_B st) i = Ret vec /\
               Forall (fun v => Z.abs v < 10 ^ 6) vec.
Proof.
  induction coords as [|i rest IH]; simpl; [discriminate|].
  intros Hc. apply bind_Ret_inv in Hc as (yi & Hyi & Hc).
  destruct (Z.ltb_spec (Z.abs yi) eps) as [Hlt|Hge].
  - apply bind_Ret_inv in Hc as (v & Hv & Hc).
    apply bind_Ret_inv in Hc as (mx & Hmx & Hc).
    destruct (Z.ltb_spec mx (10 ^ 6)) as [Hb|Hb].
    + injection Hc as <-. exists i, yi.
      repeat split; auto.
      apply py_max_abs_bound in Hmx.
      eapply Forall_impl; [exact Hmx|]. simpl. intros; lia.
    + destruct (IH Hc) as (i' & yi' & Hin & Hrest). exists i', yi'. auto.
  - destruct (IH Hc) as (i' & yi' & Hin & Hrest). exists i', yi'. auto.
Qed.

(** A pass that returns a vector took it from the termination check on
    the state steps 1 to 4 left. *)
Lemma pass_found (st : pslq_state) (vec : list Z) :
  pass st = Ret (Found vec) ->
  exists st', reduce_pass sq prec n st = Ret (Some st') /\
              check prec n eps st' = Ret (Some vec).
Proof.
  unfold pslq_iteration. intros Hp.
  apply bind_Ret_inv in Hp as (o & Ho & Hp).
  destruct o as [st'|]; [|discriminate].
  apply bind_Ret_inv in Hp as (c & Hc & Hp).
  destruct c as [v|]; [|discriminate].
  injection Hp as <-. eauto.
Qed.

Lemma loop_after_passes (k reps : nat) (st0 st : pslq_state) :
  passes k st0 = Some st -> loop (k + reps) st0 = loop reps st.
Proof.
  revert st0. induction k as [|k IH]; simpl; intros st0 Hk.
  - injection Hk as ->. reflexivity.
  - destruct (pass st0) as [[st'| |vec]|e]; try discriminate.
    simpl. apply IH, Hk.
Qed.

(** With the budget used up the loop ends and [None] is returned. *)
Lemma loop_exhausted (reps : nat) (st0 st : pslq_state) :
  passes reps st0 = Some st -> loop reps st0 = Ret None.
Proof.
  intros Hk. rewrite <- (Nat.add_0_r reps).
  rewrite (loop_after_passes _ _ _ _ Hk). reflexivity.
Qed.

(** How the loop ends: after all its passes, or in an earlier pass that
    breaks, returns or raises. *)
Lemma loop_outcome (reps : nat) (st0 : pslq_state) :
  (exists st, passes reps st0 = Some st /\ loop reps st0 = Ret None) \/
  (exists k st, (k < reps)%nat /\ passes k st0 = Some st /\
     ((pass st = Ret Stop /\ loop reps st0 = Ret None) \/
      (exists vec, pass st = Ret (Found vec) /\ loop reps st0 = Ret (Some vec)) \/
      (exists e, pass st = Raise e /\ loop reps st0 = Raise e))).
Proof.
  revert st0. induction reps as [|reps IH]; intros st0.
  - left. exists st0. split; reflexivity.
  - simpl. destruct (pass st0) as [[st'| |vec]|e] eqn:Hp; simpl.
    + destruct (IH st') as [(st & Hk & Hl)|(k & st & Hlt & Hk & Hend)].
      * left. exists st. split; assumption.
      * right. exists (S k), st. split; [lia|]. simpl. rewrite Hp.
        split; assumption.
    + right. exists 0%nat, st0. split; [lia|]. split; [reflexivity|].
      left. split; [assumption | reflexivity].
    + right. exists 0%nat, st0. split; [lia|]. split; [reflexivity|].
      right. left. exists vec. split; [assumption | reflexivity].
    + right. exists 0%nat, st0. split; [lia|]. split; [reflexivity|].
      right. right. exists e. split; [assumption | reflexivity].
Qed.

(** A returned vector comes from one of the passes. *)
Lemma loop_found (reps : nat) (st0 : pslq_state) (vec : list Z) :
  loop reps st0 = Ret (Some vec) ->
  exists k st, (k < reps)%nat /\ passes k st0 = Some st /\ pass st = Ret (Found vec).
Proof.
  intros Hl.
  destruct (loop_outcome reps st0) as [(st & _ & Hn)|(k & st & Hlt & Hk & Hend)].
  - congruence.
  - exists k, st. repeat split; auto.
    destruct Hend as [[_ Hn]|[(v & Hv & Hs)|(e & _ & He)]]; try congruence.
Qed.

(** Step 3 with a zero rotation norm leaves the loop. *)
Lemma pass_zero_norm (st st1 : pslq_state) (m sz : Z) :
  pivot sq prec n (st_H st) = Ret (m, sz) ->
  swap_rows n m st = Ret st1 ->
  m <= n - 2 ->
  rotation_norm sq prec m (st_H st1) = Ret 0 ->
  pass st = Ret Stop.
Proof.
  intros Hp Hs Hm Ht. unfold pslq_iteration, reduce_pass.
  rewrite Hp. simpl. rewrite Hs. simpl.
  destruct (Z.leb_spec m (n - 2)); [|lia].
  rewrite Ht. reflexivity.
Qed.

End PslqCoreProperties.

(** ** The relation engine *)


Section PslqProperties.
Context `{Engine}.

Lemma pslq_unfold (x : list mpf) (eps : option mpf) (prec n epsf : Z) (xf : list pyval) :
  pslq_args x eps = Ret (prec, n, epsf, xf) ->
  pslq x eps = (st ← pslq_init sqrt_fixed prec n xf;
                main_loop sqrt_fixed prec n epsf 100 st).
Proof. intros Ha. unfold pslq. rewrite Ha. reflexivity. Qed.

Lemma pslq_args_inv (x : list mpf) (eps : option mpf) (prec n epsf : Z) (xf : list pyval) :
  pslq_args x eps = Ret (prec, n, epsf, xf) ->
  prec = mp_prec + 60 /\ n = Z.of_nat (length x) /\ 1 <= n /\ 53 <= mp_prec /\
  xf = PyNone :: map (fun xk => PyInt (to_fixed xk prec)) x /\
  exists e, epsf = to_fixed e prec /\
            match eps with
            | Some e' => e = e'
            | None => mpf_pow_int (mpf_of_Z 2) (- pslq_target mp_prec n) = Ret e
            end.
Proof.
  unfold pslq_args, py_assert. intros Ha.
  destruct (Z.leb_spec 1 (Z.of_nat (length x))) as [Hn|]; [|discriminate].
  destruct (Z.leb_spec 53 mp_prec) as [Hp|]; [|discriminate].
  simpl in Ha. apply bind_Ret_inv in Ha as (e & He & Ha).
  injection Ha as <- <- <- <-.
  repeat split; auto. exists e. split; [reflexivity|].
  destruct eps as [e'|]; [congruence | exact He].
Qed.

(** C4, as the code has it: on an empty vector the assertion [n >= 1]
    fails, so [pslq] raises AssertionError whatever the threshold. *)
Theorem pslq_empty_raises (eps : option mpf) :
  pslq [] eps = Raise AssertionError.
Proof. reflexivity. Qed.

(** C6, as the code has it: without [eps] the threshold is [2 ** -target]
    where [target] is the precision divided by [max(2, n)], replaced by
    three quarters of the precision when that quotient is below 30; the
    target is never below 30 and is [prec // n] when [n >= 2] leaves at
    least 30 bits per element. *)
Theorem pslq_default_threshold (x : list mpf) :
  x <> [] ->
  53 <= mp_prec ->
  let n := Z.of_nat (length x) in
  let q := mp_prec / Z.max 2 n in
  let target := if q <? 30 then Z.quot (mp_prec * 3) 4 else q in
  pslq x None = (e ← mpf_pow_int (mpf_of_Z 2) (- target); pslq x (Some e)) /\
  30 <= target /\
  (2 <= n -> 30 * n <= mp_prec -> target = mp_prec / n).
Proof.
  intros Hx Hp n q target.
  assert (Hn : 1 <= n) by (destruct x; [congruence | simpl length in n; lia]).
  split; [|split].
  - unfold pslq, pslq_args, py_assert. fold n.
    destruct (Z.leb_spec 1 n); [|lia].
    destruct (Z.leb_spec 53 mp_prec); [|lia].
    simpl. unfold pslq_target. fold q. fold target.
    destruct (mpf_pow_int (mpf_of_Z 2) (- target)); reflexivity.
  - subst target. destruct (Z.ltb_spec q 30) as [Hq|Hq]; [|lia].
    pose proof (Z.quot_div_nonneg (mp_prec * 3) 4) as Hd.
    rewrite Hd by lia.
    apply Z.div_le_lower_bound; lia.
  - intros Hn2 Hbits. subst target q.
    rewrite Z.max_r by lia.
    destruct (Z.ltb_spec (mp_prec / n) 30) as [Hq|Hq]; [|reflexivity].
    pose proof (Z.div_le_lower_bound mp_prec n 30) as Hd. lia.
Qed.

(** C1: a vector [pslq] returns is returned at the termination check of
    one of the at most 100 passes of the main loop, at a coordinate [i]
    with [|y[i]| < eps]; its entries are the rounded entries of column
    [i] of [B], and each is below [10^6] in absolute value. *)
Theorem pslq_returns_checked_candidate (x : list mpf) (eps : option mpf) (vec : list Z) :
  pslq x eps = Ret (Some vec) ->
  exists prec n epsf xf st0 k st st' i yi,
    pslq_args x eps = Ret (prec, n, epsf, xf) /\
    pslq_init sqrt_fixed prec n xf = Ret st0 /\
    (k < 100)%nat /\
    after_passes sqrt_fixed prec n epsf k st0 = Some st /\
    reduce_pass sqrt_fixed prec n st = Ret (Some st') /\
    1 <= i <= n /\
    list_get_int (st_y st') i = Ret yi /\
    Z.abs yi < epsf /\
    Forall2 (fun j v => exists b, st_B st' !! (j, i) = Some b /\
                                  v = Z.shiftr (round_fixed b prec) prec)
            (py_range 1 (n + 1)) vec /\
    Forall (fun v => Z.abs v < 10 ^ 6) vec.
Proof.
  intros Hr. unfold pslq in Hr.
  apply bind_Ret_inv in Hr as ([[[prec n] epsf] xf] & Ha & Hr).
  unfold pslq_fixed in Hr.
  apply bind_Ret_inv in Hr as (st0 & Hi & Hl).
  apply loop_found in Hl as (k & st & Hk & Hst & Hp).
  apply pass_found in Hp as (st' & Hred & Hc).
  apply check_from_found in Hc as (i & yi & Hin & Hyi & Hlt & Hcand & Hb).
  apply elem_of_py_range in Hin.
  apply candidate_entries in Hcand.
  exists prec, n, epsf, xf, st0, k, st, st', i, yi.
  repeat split; auto; lia.
Qed.

(** C3: the main loop of [pslq] makes at most 100 passes.  Either the
    setup raises, or the outcome is settled by the passes: when all 100
    fall through, [pslq] returns [None]; otherwise a pass among the first
    100 breaks (and [pslq] returns [None]), returns its vector, or raises.
    In each case [pslq] has a result. *)
Theorem pslq_iteration_budget (x : list mpf) (eps : option mpf) :
  x <> [] ->
  (exists e, pslq x eps = Raise e /\
     (pslq_args x eps = Raise e \/
      exists prec n epsf xf, pslq_args x eps = Ret (prec, n, epsf, xf) /\
                             pslq_init sqrt_fixed prec n xf = Raise e)) \/
  (exists prec n epsf xf st0,
     pslq_args x eps = Ret (prec, n, epsf, xf) /\
     pslq_init sqrt_fixed prec n xf = Ret st0 /\
     (forall st, after_passes sqrt_fixed prec n epsf 100 st0 = Some st ->
                 pslq x eps = Ret None) /\
     ((exists st, after_passes sqrt_fixed prec n epsf 100 st0 = Some st /\
                  pslq x eps = Ret None) \/
      (exists k st, (k < 100)%nat /\
         after_passes sqrt_fixed prec n epsf k st0 = Some st /\
         ((pslq_iteration sqrt_fixed prec n epsf st = Ret Stop /\
           pslq x eps = Ret None) \/
          (exists vec, pslq_iteration sqrt_fixed prec n epsf st = Ret (Found vec) /\
                       pslq x eps = Ret (Some vec)) \/
          (exists e, pslq_iteration sqrt_fixed prec n epsf st = Raise e /\
                     pslq x eps = Raise e))))).
Proof.
  intros _.
  destruct (pslq_args x eps) as [[[[prec n] epsf] xf]|e] eqn:Ha.
  2:{ left. exists e. split; [|left; reflexivity].
      unfold pslq. rewrite Ha. reflexivity. }
  rewrite (pslq_unfold _ _ _ _ _ _ Ha).
  destruct (pslq_init sqrt_fixed prec n xf) as [st0|e] eqn:Hi.
  2:{ left. exists e. split; [reflexivity|]. right.
      exists prec, n, epsf, xf. split; [reflexivity | assumption]. }
  rewrite bind_Ret.
  right. exists prec, n, epsf, xf, st0.
  split; [reflexivity|]. split; [exact Hi|]. split.
  - intros st Hst. eapply loop_exhausted, Hst.
  - exact (loop_outcome sqrt_fixed prec n epsf 100 st0).
Qed.

(** C7: when a pass of the main loop, with pivot [m <= n - 2], finds the
    rotation norm [t0] to be zero, the pass breaks out of the loop and
    [pslq] returns [None]. *)
Theorem pslq_zero_rotation_norm (x : list mpf) (eps : option mpf)
    (prec n epsf : Z) (xf : list pyval) (st0 st st1 : pslq_state) (k : nat) (m sz : Z) :
  pslq_args x eps = Ret (prec, n, epsf, xf) ->
  pslq_init sqrt_fixed prec n xf = Ret st0 ->
  (k < 100)%nat ->
  after_passes sqrt_fixed prec n epsf k st0 = Some st ->
  pivot sqrt_fixed prec n (st_H st) = Ret (m, sz) ->
  swap_rows n m st = Ret st1 ->
  m <= n - 2 ->
  rotation_norm sqrt_fixed prec m (st_H st1) = Ret 0 ->
  pslq_iteration sqrt_fixed prec n epsf st = Ret Stop /\ pslq x eps = Ret None.
Proof.
  intros Ha Hi Hk Hst Hp Hs Hm Ht.
  pose proof (pass_zero_norm _ _ _ epsf _ _ _ _ Hp Hs Hm Ht) as Hstop.
  split; [exact Hstop|].
  rewrite (pslq_unfold _ _ _ _ _ _ Ha), Hi, bind_Ret.
  replace 100%nat with (k + S (99 - k))%nat by lia.
  rewrite (loop_after_passes _ _ _ _ _ _ _ _ Hst).
  simpl. rewrite Hstop. reflexivity.
Qed.

End PslqProperties.

(** ** The constant recogniser *)

(** *** Loops with return, sorting *)

Lemma for_ret_post {I S R : Type} (Inv : S -> Prop) (P : R -> Prop)
    (l : list I) (body : I -> S -> res (flow S R)) :
  (forall i s out, In i l -> Inv s -> body i s = Ret out ->
                   match out with
                   | Go s' => Inv s'
                   | Return r => P r
                   end) ->
  forall s out, Inv s -> for_ret l body s = Ret out ->
                match out with
                | Go s' => Inv s'
                | Return r => P r
                end.
Proof.
  induction l as [|i l IH]; intros Hbody s out Hs Hf; simpl in Hf.
  - injection Hf as <-. exact Hs.
  - apply bind_Ret_inv in Hf as (c & Hc & Hf).
    pose proof (Hbody i s c (or_introl eq_refl) Hs Hc) as Hpost.
    destruct c as [s'|r].
    + apply (IH (fun j s0 o Hj => Hbody j s0 o (or_intror Hj)) s' out Hpost Hf).
    + injection Hf as <-. exact Hpost.
Qed.

Lemma string_length_app (a b : string) :
  String.length (a +:+ b) = (String.length a + String.length b)%nat.
Proof. induction a as [|c a IH]; simpl; [reflexivity | now rewrite IH]. Qed.

Lemma negated_length (s : string) :
  String.length (negated s) = (String.length s + 3)%nat.
Proof.
  unfold negated. rewrite !string_length_app. simpl. lia.
Qed.

Lemma negated_sorted (l : list string) :
  Sorted shorter l -> Sorted shorter (map negated l).
Proof.
  induction 1 as [|a l Hs IH Hhd]; simpl; constructor; auto.
  destruct Hhd as [|b l Hab]; simpl; constructor.
  unfold shorter in *. rewrite !negated_length. lia.
Qed.

Lemma insert_by_len_In (s x : string) (l : list string) :
  In x (insert_by_len s l) <-> x = s \/ In x l.
Proof.
  induction l as [|t l IH]; simpl.
  - intuition.
  - destruct (String.length t <=? String.length s)%nat; simpl; rewrite ?IH; intuition.
Qed.

Lemma insert_by_len_sorted (s : string) (l : list string) :
  Sorted shorter l -> Sorted shorter (insert_by_len s l).
Proof.
  induction 1 as [|t l Hs IH Hhd]; simpl.
  - repeat constructor.
  - destruct (Nat.leb_spec (String.length t) (String.length s)) as [Hle|Hgt].
    + constructor; [exact IH|].
      destruct Hhd as [|u l Htu]; simpl.
      * constructor. exact Hle.
      * destruct (String.length u <=? String.length s)%nat; constructor; assumption.
    + constructor; [constructor; assumption|].
      constructor. unfold shorter. lia.
Qed.

Lemma sort_by_len_spec (l : list string) :
  Sorted shorter (sort_by_len l) /\ (forall x, In x (sort_by_len l) <-> In x l).
Proof.
  unfold sort_by_len.
  assert (Hgen : forall acc, Sorted shorter acc ->
            Sorted shorter (foldl (fun acc s => insert_by_len s acc) acc l) /\
            (forall x, In x (foldl (fun acc s => insert_by_len s acc) acc l) <->
                       In x acc \/ In x l)).
  { induction l as [|s l IH]; intros acc Hacc; simpl.
    - split; [exact Hacc | intuition].
    - destruct (IH (insert_by_len s acc) (insert_by_len_sorted s acc Hacc)) as [Hs Hin].
      split; [exact Hs|]. intros x. rewrite Hin, insert_by_len_In. intuition. }
  destruct (Hgen [] (Sorted_nil _)) as [Hs Hin].
  split; [exact Hs|]. intros x. rewrite Hin. simpl. intuition.
Qed.

Lemma sorted_by_len_spec (solutions : list (option string)) (l : list string) :
  sorted_by_len solutions = Ret l ->
  Sorted shorter l /\ (forall s, In s l -> In (Some s) solutions).
Proof.
  unfold sorted_by_len. intros Hs.
  apply bind_Ret_inv in Hs as (strs & Hm & Hs). injection Hs as <-.
  destruct (sort_by_len_spec strs) as [Hsorted Hin].
  split; [exact Hsorted|]. intros s Hs. apply Hin in Hs.
  apply map_res_Forall2 in Hm.
  clear Hsorted Hin. induction Hm as [|o t sols strs Ho Hm IH]; simpl in *.
  - contradiction.
  - destruct Hs as [<-|Hs].
    + left. destruct o; congruence.
    + right. auto.
Qed.

Lemma insert_by_len_perm (s : string) (l : list string) :
  Permutation (insert_by_len s l) (s :: l).
Proof.
  induction l as [|t l IH]; simpl; [reflexivity|].
  destruct (String.length t <=? String.length s)%nat; [|reflexivity].
  rewrite IH. apply perm_swap.
Qed.

Lemma sort_by_len_perm (l : list string) : Permutation (sort_by_len l) l.
Proof.
  unfold sort_by_len.
  assert (Hgen : forall acc,
            Permutation (foldl (fun acc s => insert_by_len s acc) acc l) (acc ++ l)).
  { induction l as [|s l IH]; intros acc; simpl.
    - rewrite app_nil_r. reflexivity.
    - rewrite IH, insert_by_len_perm. apply Permutation_middle. }
  apply (Hgen []).
Qed.

(** The sorted list holds the solutions, each once for each time it was
    found. *)
Lemma sorted_by_len_perm (solutions : list (option string)) (l : list string) :
  sorted_by_len solutions = Ret l -> Permutation (map Some l) solutions.
Proof.
  unfold sorted_by_len. intros Hs.
  apply bind_Ret_inv in Hs as (strs & Hm & Hs). injection Hs as <-.
  assert (Hsols : solutions = map Some strs).
  { apply map_res_Forall2 in Hm.
    induction Hm as [|o s sols strs Hos Hm IH]; simpl; [reflexivity|].
    destruct o as [s'|]; [|discriminate]. injection Hos as ->. f_equal. exact IH. }
  rewrite Hsols. apply Permutation_map, sort_by_len_perm.
Qed.

Section RecognizerProperties.
Context `{Engine}.
Variable py_eval : string -> res mpf.

Lemma accepts_bound (r : list Z) (maxcoeff : Z) :
  accepts r maxcoeff = Ret true -> Forall (fun v => Z.abs v <= maxcoeff) r.
Proof.
  unfold accepts. intros Ha.
  apply bind_Ret_inv in Ha as (mx & Hmx & Ha).
  destruct (Z.leb_spec mx maxcoeff) as [Hle|]; [|discriminate].
  apply py_max_abs_bound in Hmx.
  eapply Forall_impl; [exact Hmx|]. simpl. intros; lia.
Qed.

(** The formula found for a transformed value comes from a relation
    whose coefficients are within [maxcoeff]. *)
Lemma formula_for_bounded (t : mpf) (constants : list (mpf * string))
    (maxcoeff : Z) (weps : mpf) (quadratics : bool) (s : string) :
  formula_for t constants maxcoeff weps quadratics = Ret (Some s) ->
  (exists r, pslq (t :: map fst constants) (Some weps) = Ret (Some r) /\
             Forall (fun v => Z.abs v <= maxcoeff) r /\
             pslqstring r constants = Ret s) \/
  (exists t2 aa bb cc,
      sqr t = Ret t2 /\
      pslq [mpf_of_Z 1; t; t2] (Some weps) = Ret (Some [aa; bb; cc]) /\
      Forall (fun v => Z.abs v <= maxcoeff) [aa; bb; cc] /\
      quadraticstring t aa bb cc = Ret s).
Proof.
  unfold formula_for. intros Hf.
  apply bind_Ret_inv in Hf as (r & Hr & Hf).
  apply bind_Ret_inv in Hf as (lin & Hlin & Hf).
  assert (Hquad :
    (if quadratics then
       t2 ← sqr t;
       q ← pslq [mpf_of_Z 1; t; t2] (Some weps);
       match q with
       | Some [aa; bb; cc] =>
           if negb (cc =? 0) then
             if Z.max (Z.max (Z.abs aa) (Z.abs bb)) (Z.abs cc) <=? maxcoeff
             then s ← quadraticstring t aa bb cc; Ret (Some s)
             else Ret None
           else Ret None
       | _ => Ret None
       end
     else Ret None) = Ret (Some s) ->
    exists t2 aa bb cc,
      sqr t = Ret t2 /\
      pslq [mpf_of_Z 1; t; t2] (Some weps) = Ret (Some [aa; bb; cc]) /\
      Forall (fun v => Z.abs v <= maxcoeff) [aa; bb; cc] /\
      quadraticstring t aa bb cc = Ret s).
  { destruct quadratics; [|discriminate]. intros Hq.
    apply bind_Ret_inv in Hq as (t2 & Ht2 & Hq).
    apply bind_Ret_inv in Hq as (q & Hq1 & Hq).
    destruct q as [[|aa [|bb [|cc [|? ?]]]]|]; try discriminate.
    destruct (negb (cc =? 0)); [|discriminate].
    destruct (Z.leb_spec (Z.max (Z.max (Z.abs aa) (Z.abs bb)) (Z.abs cc)) maxcoeff)
      as [Hle|]; [|discriminate].
    apply bind_Ret_inv in Hq as (s' & Hs' & Hq). injection Hq as <-.
    exists t2, aa, bb, cc. repeat split; auto.
    repeat constructor; lia. }
  destruct r as [r|].
  - destruct lin.
    + left. apply bind_Ret_inv in Hf as (s' & Hs' & Hf). injection Hf as <-.
      exists r. repeat split; auto. apply accepts_bound, Hlin.
    + right. apply Hquad, Hf.
  - right. apply Hquad, Hf.
Qed.


Lemma first_solution_post (Q : option string -> Prop)
    (solutions : list (option string)) (r : py_result) :
  Forall Q solutions -> first_solution solutions = Ret r ->
  match r with
  | RStr s => Q (Some s)
  | RNone => True
  | RList _ => False
  end.
Proof.
  intros HQ Hf. destruct solutions as [|[s|] rest]; simpl in Hf.
  - discriminate.
  - injection Hf as <-. inversion HQ; assumption.
  - injection Hf as <-. exact I.
Qed.

Lemma try_pair_post (x : mpf) (constants : list (mpf * string)) (full : bool)
    (maxcoeff : Z) (weps : mpf) (quadratics : bool)
    (tr : (mpf -> mpf -> res mpf) * string * bool) (c : mpf * string)
    (solutions : list (option string))
    (out : flow (list (option string)) py_result) :
  In tr transforms -> In c constants ->
  Forall (bounded_origin x constants maxcoeff weps) solutions ->
  try_pair x constants full maxcoeff weps quadratics tr c solutions = Ret out ->
  search_post full (bounded_origin x constants maxcoeff weps) out.
Proof.
  intros Htr Hc Hsol. destruct tr as [[ft ftn] red], c as [cv cn].
  unfold try_pair. intros Ht.
  destruct (red && String.eqb cn "1").
  { injection Ht as <-. exact Hsol. }
  apply bind_Ret_inv in Ht as (t & Hft & Ht).
  destruct (mpf_ltb (mpf_of_Z (maxcoeff ^ 2)) (mpf_abs t) || mpf_ltb (mpf_abs t) weps).
  { injection Ht as <-. exact Hsol. }
  apply bind_Ret_inv in Ht as (o & Hform & Ht).
  destruct o as [s|]; [|injection Ht as <-; exact Hsol].
  destruct (String.eqb s ""); [injection Ht as <-; exact Hsol|].
  assert (Hnew : bounded_origin x constants maxcoeff weps
                   (Some (fill_template ftn cn s))).
  { left. exists (fill_template ftn cn s). split; [reflexivity|].
    apply formula_for_bounded in Hform
      as [(r & Hr & Hb & Hs)|(t2 & aa & bb & cc & Ht2 & Hq & Hb & Hs)].
    - left. exists ft, ftn, red, cv, cn, t, r, s. repeat split; auto.
    - right. exists ft, ftn, red, cv, cn, t, t2, aa, bb, cc, s. repeat split; auto. }
  assert (Hall : Forall (bounded_origin x constants maxcoeff weps)
                   (solutions ++ [Some (fill_template ftn cn s)])).
  { apply Forall_app; split; [exact Hsol | constructor; [exact Hnew | constructor]]. }
  destruct full; simpl in Ht.
  - injection Ht as <-. exact Hall.
  - apply bind_Ret_inv in Ht as (r & Hr & Ht). injection Ht as <-.
    split; [reflexivity|]. eapply first_solution_post; eauto.
Qed.

Lemma transform_search_post (x : mpf) (constants : list (mpf * string))
    (full : bool) (maxcoeff : Z) (weps : mpf) (quadratics : bool)
    (out : flow (list (option string)) py_result) :
  transform_search x constants full maxcoeff weps quadratics = Ret out ->
  search_post full (bounded_origin x constants maxcoeff weps) out.
Proof.
  unfold transform_search. intros Hs.
  refine (for_ret_post (Forall (bounded_origin x constants maxcoeff weps))
            (fun r => full = false /\
                      match r with
                      | RStr s => bounded_origin x constants maxcoeff weps (Some s)
                      | RNone => True
                      | RList _ => False
                      end) transforms _ _ [] out ltac:(constructor) Hs).
  intros tr sols o Htr Hsols Hin.
  refine (for_ret_post (Forall (bounded_origin x constants maxcoeff weps))
            (fun r => full = false /\
                      match r with
                      | RStr s => bounded_origin x constants maxcoeff weps (Some s)
                      | RNone => True
                      | RList _ => False
                      end) constants _ _ sols o Hsols Hin).
  intros c sols' o' Hc Hsols' Hp.
  exact (try_pair_post _ _ _ _ _ _ _ _ _ _ Htr Hc Hsols' Hp).
Qed.

Lemma product_search_post (x : mpf) (constants : list (mpf * string))
    (full : bool) (maxcoeff : Z) (weps : mpf) (solutions : list (option string))
    (out : flow (list (option string)) py_result) :
  Forall (bounded_origin x constants maxcoeff weps) solutions ->
  product_search x constants full maxcoeff weps solutions = Ret out ->
  search_post full (bounded_origin x constants maxcoeff weps) out.
Proof.
  intros Hsol. unfold product_search. intros Hp.
  apply bind_Ret_inv in Hp as (logs & Hlogs & Hp).
  apply bind_Ret_inv in Hp as (lx & Hlx & Hp).
  apply bind_Ret_inv in Hp as (r & Hr & Hp).
  apply bind_Ret_inv in Hp as (lin & Hlin & Hp).
  destruct r as [r|]; [|injection Hp as <-; exact Hsol].
  destruct lin; [|injection Hp as <-; exact Hsol].
  apply bind_Ret_inv in Hp as (o & Ho & Hp).
  assert (Hall : Forall (bounded_origin x constants maxcoeff weps) (solutions ++ [o])).
  { apply Forall_app; split; [exact Hsol|]. constructor; [|constructor].
    right. exists logs, lx, r. repeat split; auto. apply accepts_bound, Hlin. }
  destruct full; simpl in Hp.
  - injection Hp as <-. exact Hall.
  - apply bind_Ret_inv in Hp as (r' & Hr' & Hp). injection Hp as <-.
    split; [reflexivity|]. eapply first_solution_post; eauto.
Qed.

(** The search for a positive [x]: the shape of its result and the origin
    of its formulas. *)
Lemma identify_positive_spec (x : mpf) (constants : constants_arg mpf)
    (full : bool) (maxcoeff : Z) (tolerance : option mpf) (quadratics : bool)
    (r : py_result) :
  identify_positive py_eval x constants full maxcoeff tolerance quadratics = Ret r ->
  result_shape full r /\
  exists weps cs,
    threshold tolerance = Ret weps /\
    searched_constants py_eval constants = Ret cs /\
    Forall (fun s => bounded_origin x cs maxcoeff weps (Some s)) (formulas r).
Proof.
  unfold identify_positive. intros Hi.
  apply bind_Ret_inv in Hi as (weps & Hw & Hi).
  apply bind_Ret_inv in Hi as (cs & Hcs & Hi).
  apply bind_Ret_inv in Hi as (f & Hf & Hi).
  apply transform_search_post in Hf.
  assert (Hret : forall r', search_post full (bounded_origin x cs maxcoeff weps) (Return r') ->
            result_shape full r' /\
            Forall (fun s => bounded_origin x cs maxcoeff weps (Some s)) (formulas r')).
  { intros r' [-> Hr']. destruct r' as [|s|l]; simpl in *.
    - split; [left; reflexivity | constructor].
    - split; [right; eauto | constructor; [assumption | constructor]].
    - contradiction. }
  assert (Hend : forall sols,
            Forall (bounded_origin x cs maxcoeff weps) sols ->
            (if full then l ← sorted_by_len sols; Ret (RList l) else Ret RNone) = Ret r ->
            result_shape full r /\
            Forall (fun s => bounded_origin x cs maxcoeff weps (Some s)) (formulas r)).
  { intros sols Hsols Hfin. destruct full.
    - apply bind_Ret_inv in Hfin as (l & Hl & Hfin). injection Hfin as <-.
      apply sorted_by_len_spec in Hl as [Hsorted Hin].
      split; [exists l; split; [reflexivity | exact Hsorted]|].
      simpl. apply List.Forall_forall. intros s Hs.
      rewrite List.Forall_forall in Hsols. apply Hsols, Hin, Hs.
    - injection Hfin as <-. split; [left; reflexivity | constructor]. }
  assert (Hgoal : result_shape full r /\
            Forall (fun s => bounded_origin x cs maxcoeff weps (Some s)) (formulas r)).
  { destruct f as [sols|r'].
    - apply bind_Ret_inv in Hi as (f' & Hf' & Hi).
      assert (Hpost : search_post full (bounded_origin x cs maxcoeff weps) f').
      { destruct (negb (mpf_eqb x (mpf_of_Z 1))).
        - eapply product_search_post; eauto.
        - injection Hf' as <-. exact Hf. }
      destruct f' as [sols'|r'].
      + apply (Hend sols' Hpost Hi).
      + injection Hi as <-. apply Hret, Hpost.
    - injection Hi as <-. apply Hret, Hf. }
  destruct Hgoal as [Hshape Hall].
  split; [exact Hshape|]. exists weps, cs. auto.
Qed.

End RecognizerProperties.

Section IdentifyProperties.
Context `{Engine}.
Variable py_eval : string -> res mpf.

(** The shape of every result of [identify] and the origin of each of its
    formulas. *)
Lemma identify_spec (depth : nat) (x : mpf) (constants : constants_arg mpf)
    (full : bool) (maxcoeff : Z) (tolerance : option mpf) (quadratics : bool)
    (r : py_result) :
  identify py_eval depth x constants full maxcoeff tolerance quadratics = Ret r ->
  result_shape full r /\
  Forall (formula_origin py_eval constants maxcoeff tolerance x) (formulas r).
Proof.
  revert x r. induction depth as [|depth IH]; intros x r; simpl; [discriminate|].
  destruct (mpf_eqb x (mpf_of_Z 0)) eqn:Hz.
  { intros [= <-]. destruct full; simpl.
    - split; [exists ["0"]; split; [reflexivity | repeat constructor]|].
      constructor; [apply origin_zero, Hz | constructor].
    - split; [right; eauto|].
      constructor; [apply origin_zero, Hz | constructor]. }
  destruct (mpf_ltb x (mpf_of_Z 0)) eqn:Hneg.
  - intros Hi. apply bind_Ret_inv in Hi as (sol & Hsol & Hi).
    destruct (IH _ _ Hsol) as [Hshape Horig].
    unfold negate_result in Hi.
    destruct sol as [|s|l]; simpl in *.
    + injection Hi as <-. split; [|constructor].
      destruct full; simpl in *; [|left; reflexivity].
      destruct Hshape as (l & Hl & _). discriminate.
    + destruct full; [discriminate|]. injection Hi as <-.
      split; [right; eauto|]. simpl.
      constructor; [|constructor].
      apply origin_negative; auto. inversion Horig; assumption.
    + destruct full; [|discriminate]. injection Hi as <-.
      destruct Hshape as (l' & [= <-] & Hsorted).
      split; [exists (map negated l); split; [reflexivity | apply negated_sorted, Hsorted]|].
      simpl. clear Hsorted Hsol. induction Horig as [|s l Hs Hl IHl]; simpl; constructor; auto.
      apply origin_negative; auto.
  - intros Hi. apply identify_positive_spec in Hi
      as (Hshape & weps & cs & Hw & Hcs & Hall).
    split; [exact Hshape|].
    eapply Forall_impl; [exact Hall|]. simpl. intros s Hs.
    eapply origin_search; eauto.
Qed.

Lemma identify_unfold (depth : nat) (x : mpf) (constants : constants_arg mpf)
    (full : bool) (maxcoeff : Z) (tolerance : option mpf) (quadratics : bool) :
  identify py_eval (S depth) x constants full maxcoeff tolerance quadratics =
  if mpf_eqb x (mpf_of_Z 0) then Ret (if full then RList ["0"] else RStr "0")
  else if mpf_ltb x (mpf_of_Z 0) then
    sol ← identify py_eval depth (mpf_neg x) constants full maxcoeff tolerance quadratics;
    negate_result full sol
  else identify_positive py_eval x constants full maxcoeff tolerance quadratics.
Proof. reflexivity. Qed.

(** Nesting depth 2 is enough when the negation of a negative number is
    zero or not negative: deeper calls return the same. *)
Lemma identify_depth (depth : nat) (x : mpf) (constants : constants_arg mpf)
    (full : bool) (maxcoeff : Z) (tolerance : option mpf) (quadratics : bool) :
  (forall z, mpf_ltb z (mpf_of_Z 0) = true ->
             mpf_eqb (mpf_neg z) (mpf_of_Z 0) = true \/
             mpf_ltb (mpf_neg z) (mpf_of_Z 0) = false) ->
  identify py_eval (2 + depth) x constants full maxcoeff tolerance quadratics =
  identify py_eval 2 x constants full maxcoeff tolerance quadratics.
Proof.
  intros Hsign.
  assert (Hone : forall d y,
             mpf_eqb y (mpf_of_Z 0) = true \/ mpf_ltb y (mpf_of_Z 0) = false ->
             identify py_eval (S d) y constants full maxcoeff tolerance quadratics =
             identify py_eval 1 y constants full maxcoeff tolerance quadratics).
  { intros d y Hy. rewrite !identify_unfold.
    destruct (mpf_eqb y (mpf_of_Z 0)); [reflexivity|].
    destruct Hy as [Hy|Hy]; [discriminate|]. rewrite Hy. reflexivity. }
  change (2 + depth)%nat with (S (S depth)).
  rewrite (identify_unfold (S depth)), (identify_unfold 1).
  destruct (mpf_eqb x (mpf_of_Z 0)); [reflexivity|].
  destruct (mpf_ltb x (mpf_of_Z 0)) eqn:Hneg; [|reflexivity].
  rewrite (Hone depth (mpf_neg x) (Hsign x Hneg)). reflexivity.
Qed.

(** C2: every formula [identify] returns is the formula for zero, the
    negation of a formula for [-x], or was built, in the search over
    transforms and constants or in the multiplicative search, from a
    relation vector none of whose coefficients exceeds [maxcoeff] in
    absolute value. *)
Theorem identify_formulas_bounded (depth : nat) (x : mpf)
    (constants : constants_arg mpf) (full : bool) (maxcoeff : Z)
    (tolerance : option mpf) (quadratics : bool) (r : py_result) :
  identify py_eval depth x constants full maxcoeff tolerance quadratics = Ret r ->
  Forall (formula_origin py_eval constants maxcoeff tolerance x) (formulas r).
Proof. intros Hi. apply (identify_spec _ _ _ _ _ _ _ _ Hi). Qed.

(** With [full], when neither search adds a solution the result is the
    empty list. *)
Lemma identify_positive_no_match (x : mpf) (constants : constants_arg mpf)
    (maxcoeff : Z) (tolerance : option mpf) (quadratics : bool)
    (weps : mpf) (cs : list (mpf * string)) :
  threshold tolerance = Ret weps ->
  searched_constants py_eval constants = Ret cs ->
  transform_search x cs true maxcoeff weps quadratics = Ret (Go []) ->
  (mpf_eqb x (mpf_of_Z 1) = true \/
   product_search x cs true maxcoeff weps [] = Ret (Go [])) ->
  identify_positive py_eval x constants true maxcoeff tolerance quadratics
    = Ret (RList []).
Proof.
  intros Hw Hcs Ht Hp. unfold identify_positive.
  rewrite Hw, bind_Ret, Hcs, bind_Ret, Ht, bind_Ret.
  destruct (mpf_eqb x (mpf_of_Z 1)); simpl.
  - reflexivity.
  - destruct Hp as [Hp|Hp]; [discriminate|]. rewrite Hp. reflexivity.
Qed.

(** With [full] the result of [identify] is the list described by
    [full_result], which is empty when no match is found. *)
Lemma identify_full_result (depth : nat) (x : mpf)
    (constants : constants_arg mpf) (maxcoeff : Z)
    (tolerance : option mpf) (quadratics : bool) (r : py_result) :
  identify py_eval depth x constants true maxcoeff tolerance quadratics = Ret r ->
  exists l, r = RList l /\
            full_result py_eval constants maxcoeff tolerance quadratics x l /\
            (no_match py_eval constants maxcoeff tolerance quadratics x -> l = []).
Proof.
  revert x r. induction depth as [|depth IH]; intros x r; simpl; [discriminate|].
  destruct (mpf_eqb x (mpf_of_Z 0)) eqn:Hz.
  { intros [= <-]. exists ["0"]. split; [reflexivity|].
    split; [apply full_zero, Hz|].
    intros Hn. inversion Hn; congruence. }
  destruct (mpf_ltb x (mpf_of_Z 0)) eqn:Hneg.
  - intros Hi. apply bind_Ret_inv in Hi as (sol & Hsol & Hi).
    destruct (IH _ _ Hsol) as (l & -> & Hl & Hno).
    simpl in Hi. injection Hi as <-.
    exists (map negated l). split; [reflexivity|].
    split; [apply full_negative; assumption|].
    intros Hn. inversion Hn as [x' _ _ Hn'|]; [|congruence].
    rewrite (Hno Hn'). reflexivity.
  - unfold identify_positive. intros Hi.
    apply bind_Ret_inv in Hi as (weps & Hw & Hi).
    apply bind_Ret_inv in Hi as (cs & Hcs & Hi).
    apply bind_Ret_inv in Hi as (f & Hf & Hi).
    pose proof (transform_search_post _ _ _ _ _ _ _ Hf) as Hpost.
    destruct f as [found|r']; [|destruct Hpost; discriminate].
    apply bind_Ret_inv in Hi as (f' & Hf' & Hi).
    assert (Hfound : exists solutions,
              f' = Go solutions /\
              solutions_found x cs maxcoeff weps quadratics solutions).
    { destruct (mpf_eqb x (mpf_of_Z 1)) eqn:H1; simpl in Hf'.
      - injection Hf' as <-. exists found. split; [reflexivity|].
        exists found. rewrite H1. auto.
      - pose proof (product_search_post _ _ _ _ _ _ _ Hpost Hf') as Hpost'.
        destruct f' as [solutions|r']; [|destruct Hpost'; discriminate].
        exists solutions. split; [reflexivity|].
        exists found. rewrite H1. auto. }
    destruct Hfound as (solutions & -> & Hsols).
    apply bind_Ret_inv in Hi as (l & Hl & Hi). injection Hi as <-.
    exists l. split; [reflexivity|].
    split; [eapply full_search; eauto using sorted_by_len_perm|].
    intros Hn. inversion Hn as [|x' weps' cs' _ _ Hw' Hcs' Hnone]; [congruence|].
    rewrite Hw in Hw'. injection Hw' as <-.
    rewrite Hcs in Hcs'. injection Hcs' as <-.
    destruct Hsols as (f1 & Hf1 & Hs1). destruct Hnone as (f2 & Hf2 & Hs2).
    rewrite Hf1 in Hf2. injection Hf2 as <-.
    assert (solutions = []).
    { destruct (mpf_eqb x (mpf_of_Z 1)); [congruence|].
      rewrite Hs1 in Hs2. congruence. }
    subst solutions. simpl in Hl. injection Hl as <-. reflexivity.
Qed.

(** C10: with [full] a call of [identify] that returns, returns a list
    (never [None]) of formulas in order of nondecreasing length.  The
    list is [['0']] for zero, the wrapped list of the call on [-x] for a
    negative [x], and otherwise holds exactly the solutions the searches
    found; it is the empty list when no match is found. *)
Theorem identify_full_sorted (depth : nat) (x : mpf)
    (constants : constants_arg mpf) (maxcoeff : Z)
    (tolerance : option mpf) (quadratics : bool) (r : py_result) :
  identify py_eval depth x constants true maxcoeff tolerance quadratics = Ret r ->
  exists l, r = RList l /\
            Sorted (fun a b => (String.length a <= String.length b)%nat) l /\
            full_result py_eval constants maxcoeff tolerance quadratics x l /\
            (no_match py_eval constants maxcoeff tolerance quadratics x -> l = []).
Proof.
  intros Hi.
  destruct (identify_full_result _ _ _ _ _ _ _ Hi) as (l & -> & Hl & Hno).
  destruct (proj1 (identify_spec _ _ _ _ _ _ _ _ Hi)) as (l' & [= <-] & Hsorted).
  exists l. auto.
Qed.

(** C8: for a negative [x] the result is that of the call on [|x| = -x]
    with the same remaining arguments, each formula wrapped as ["-(...)"];
    [None] and the empty list are passed on as they are. *)
Theorem identify_negative (depth : nat) (x : mpf)
    (constants : constants_arg mpf) (full : bool) (maxcoeff : Z)
    (tolerance : option mpf) (quadratics : bool) (sol : py_result) :
  mpf_eqb x (mpf_of_Z 0) = false ->
  mpf_ltb x (mpf_of_Z 0) = true ->
  mpf_abs x = mpf_neg x ->
  identify py_eval depth (mpf_abs x) constants full maxcoeff tolerance quadratics
    = Ret sol ->
  identify py_eval (S depth) x constants full maxcoeff tolerance quadratics
    = Ret match sol with
          | RNone => RNone
          | RStr s => RStr ("-(" +:+ s +:+ ")")
          | RList l => RList (map (fun s => "-(" +:+ s +:+ ")") l)
          end.
Proof.
  intros Hz Hneg Habs Hsol. simpl. rewrite Hz, Hneg, <- Habs, Hsol, bind_Ret.
  apply identify_spec in Hsol as [Hshape _].
  destruct sol as [|s|l]; simpl; [reflexivity| |].
  - destruct full; simpl in Hshape; [|reflexivity].
    destruct Hshape as (l & Hl & _). discriminate.
  - destruct full; simpl in Hshape; [reflexivity|].
    destruct Hshape as [Hn|(s & Hs)]; discriminate.
Qed.

(** The constant 1 is put in front whatever the resolved constants are:
    the membership test reads the names, and no name equals the integer 1. *)
Lemma with_one_prepends (cs : list (mpf * string)) :
  with_one cs = (mpf_of_Z 1, "1") :: cs.
Proof.
  unfold with_one.
  assert (Hno : existsb (int_eq_str 1) (map snd cs) = false).
  { induction (map snd cs) as [|name names IH]; simpl; auto. }
  rewrite Hno. reflexivity.
Qed.

(** C9: the list of constants the searches range over contains the
    constant 1 under the name ["1"]; when no supplied constant has the
    value 1, it stands in front of the supplied ones. *)
Theorem searched_constants_has_one (constants : constants_arg mpf)
    (cs : list (mpf * string)) :
  searched_constants py_eval constants = Ret cs ->
  In (mpf_of_Z 1, "1") cs /\
  exists supplied,
    resolve_constants py_eval constants = Ret supplied /\
    ((forall c, In c supplied -> mpf_eqb c.1 (mpf_of_Z 1) = false) ->
     cs = (mpf_of_Z 1, "1") :: supplied).
Proof.
  unfold searched_constants. intros Hs.
  apply bind_Ret_inv in Hs as (supplied & Hr & Hs).
  rewrite with_one_prepends in Hs. injection Hs as <-.
  split; [left; reflexivity|].
  exists supplied. split; [exact Hr | reflexivity].
Qed.

End IdentifyProperties.

Section Evaluation.
Context `{Engine}.

Lemma identify_dict_any_eval (eval1 eval2 : string -> res mpf)
    (items : list (string * mpf)) (depth : nat) (x : mpf) (full : bool)
    (maxcoeff : Z) (tolerance : option mpf) (quadratics : bool) :
  identify eval1 depth x (ConstDict items) full maxcoeff tolerance quadratics =
  identify eval2 depth x (ConstDict items) full maxcoeff tolerance quadratics.
Proof.
  revert x. induction depth as [|depth IH]; intros x; simpl; [reflexivity|].
  rewrite IH. reflexivity.
Qed.






End Evaluation.

(** ** The reduction of fractions *)

(** The loop of [fracgcd] ends within [|y|] turns. *)
Lemma gcd_loop_enough (fuel : nat) (x y : Z) :
  (Z.abs_nat y <= fuel)%nat -> exists g, gcd_loop fuel x y = Some g.
Proof.
  revert x y. induction fuel as [|fuel IH]; intros x y Hy; simpl.
  - destruct (Z.eqb_spec y 0) as [->|Hne]; [eauto | lia].
  - destruct (Z.eqb_spec y 0) as [->|Hne]; [eauto|].
    apply IH.
    pose proof (Z.mod_bound_or x y Hne). lia.
Qed.

(** The loop of [fracgcd] leaves a greatest common divisor, up to sign. *)
Lemma gcd_loop_gcd (fuel : nat) (x y g : Z) :
  gcd_loop fuel x y = Some g -> Z.abs g = Z.gcd x y.
Proof.
  revert x y. induction fuel as [|fuel IH]; intros x y; simpl.
  - destruct (Z.eqb_spec y 0) as [->|Hne]; [|discriminate].
    intros [= <-]. rewrite Z.gcd_0_r. reflexivity.
  - destruct (Z.eqb_spec y 0) as [->|Hne].
    + intros [= <-]. rewrite Z.gcd_0_r. reflexivity.
    + intros Hg. apply IH in Hg. rewrite Hg.
      rewrite (Z.gcd_comm y), Z.gcd_mod by assumption.
      apply Z.gcd_comm.
Qed.

(** With floor remainders every remainder has the sign of the divisor, and
    so has the value the loop leaves. *)
Lemma gcd_loop_sign (fuel : nat) (x y g : Z) :
  y <> 0 -> gcd_loop fuel x y = Some g ->
  (0 < y -> 0 < g) /\ (y < 0 -> g < 0).
Proof.
  revert x y. induction fuel as [|fuel IH]; intros x y Hy; simpl.
  - destruct (Z.eqb_spec y 0); [contradiction | discriminate].
  - destruct (Z.eqb_spec y 0); [contradiction|].
    intros Hg.
    destruct (Z.eq_dec (x mod y) 0) as [Hz|Hnz].
    + rewrite Hz in Hg.
      destruct fuel; simpl in Hg; injection Hg as <-; lia.
    + destruct (IH _ _ Hnz Hg) as [Hpos Hneg].
      pose proof (Z.mod_pos_bound x y). pose proof (Z.mod_neg_bound x y).
      split; intros; [apply Hpos | apply Hneg]; lia.
Qed.

(** For a nonzero denominator [fracgcd] divides both numbers by the value
    [g] its loop leaves, which is their greatest common divisor with the
    sign of the denominator. *)
Lemma fracgcd_quotients (p q : Z) :
  q <> 0 ->
  exists g, g <> 0 /\ Z.abs g = Z.gcd p q /\ (0 < q -> 0 < g) /\ (q < 0 -> g < 0) /\
            fracgcd p q = Ret (if q / g =? 1 then FInt (p / g)
                               else FPair (p / g) (q / g)).
Proof.
  intros Hq. unfold fracgcd.
  destruct (gcd_loop_enough (Z.abs_nat q) p q (Nat.le_refl _)) as [g Hg].
  rewrite Hg.
  pose proof (gcd_loop_gcd _ _ _ _ Hg) as Habs.
  destruct (gcd_loop_sign _ _ _ _ Hq Hg) as [Hpos Hneg].
  assert (Hg0 : g <> 0) by lia.
  exists g. repeat (split; [assumption|]).
  destruct (Z.eqb_spec g 1) as [->|Hg1]; simpl.
  - rewrite !Z.div_1_r. destruct (q =? 1); reflexivity.
  - unfold floordiv. destruct (Z.eqb_spec g 0); [contradiction|]. simpl.
    destruct (q / g =? 1); reflexivity.
Qed.

(** for a nonzero denominator [fracgcd] returns the fraction in lowest
    terms with a positive denominator, as the integer alone when the
    denominator is 1. *)
Theorem fracgcd_lowest_terms (p q : Z) :
  q <> 0 ->
  exists p' q',
    fracgcd p q = Ret (if q' =? 1 then FInt p' else FPair p' q') /\
    0 < q' /\ p' * q = p * q' /\ Z.gcd p' q' = 1.
Proof.
  intros Hq.
  destruct (fracgcd_quotients p q Hq) as (g & Hg0 & Habs & Hpos & Hneg & Hf).
  assert (Hdp : (g | p)).
  { apply Z.divide_abs_l. rewrite Habs. apply Z.gcd_divide_l. }
  assert (Hdq : (g | q)).
  { apply Z.divide_abs_l. rewrite Habs. apply Z.gcd_divide_r. }
  destruct Hdp as [a Ha]. destruct Hdq as [b Hb].
  assert (Hpa : p / g = a) by (subst p; apply Z.div_mul; assumption).
  assert (Hqb : q / g = b) by (subst q; apply Z.div_mul; assumption).
  rewrite Hpa, Hqb in Hf.
  exists a, b. split; [exact Hf|].
  split; [nia|]. split; [subst; ring|].
  assert (Hmul : Z.gcd p q = Z.abs g * Z.gcd a b).
  { subst p q. rewrite !(Z.mul_comm _ g). apply Z.gcd_mul_mono_l. }
  rewrite <- Habs in Hmul.
  assert (Z.abs g <> 0) by lia.
  pose proof (Z.gcd_nonneg a b). nia.
Qed.

(** [fracgcd] raises only for [0/0], and then ZeroDivisionError. *)
Theorem fracgcd_raises_iff (p q : Z) (e : exn) :
  fracgcd p q = Raise e <-> p = 0 /\ q = 0 /\ e = ZeroDivisionError.
Proof.
  split.
  - intros Hr. destruct (Z.eq_dec q 0) as [->|Hq].
    + unfold fracgcd in Hr.
      assert (Hg : gcd_loop (Z.abs_nat 0) p 0 = Some p) by reflexivity.
      rewrite Hg in Hr. unfold floordiv in Hr.
      destruct (Z.eqb_spec p 1) as [->|Hp1]; simpl in Hr; [discriminate|].
      destruct (Z.eqb_spec p 0) as [->|Hp0]; simpl in Hr.
      * injection Hr as <-. auto.
      * destruct (0 / p =? 1); discriminate.
    + destruct (fracgcd_quotients p q Hq) as (g & _ & _ & _ & _ & Hf).
      rewrite Hf in Hr. destruct (q / g =? 1); discriminate.
  - intros (-> & -> & ->). reflexivity.
Qed.

(** ** More on the relation engine *)

Lemma pslq_fixed_single (sq : Z -> Z -> Z) (prec eps v : Z) :
  pslq_fixed sq prec 1 eps [PyNone; PyInt v] = Raise ZeroDivisionError \/
  pslq_fixed sq prec 1 eps [PyNone; PyInt v] = Raise KeyError.
Proof.
  unfold pslq_fixed, pslq_init.
  assert (Hs : init_norms sq prec 1 [PyNone; PyInt v]
               = Ret [PyNone; PyInt (sq (0 + Z.shiftr (v ^ 2) prec) prec)])
    by reflexivity.
  rewrite Hs, bind_Ret. clear Hs.
  set (t := sq (0 + Z.shiftr (v ^ 2) prec) prec).
  destruct (Z.eq_dec t 0) as [Ht|Ht].
  - left.
    assert (Hn : init_normalize prec 1 [PyNone; PyInt v] [PyNone; PyInt t]
                 = Raise ZeroDivisionError).
    { lazy -[Z.shiftl Z.div Z.eqb t]. rewrite Ht. reflexivity. }
    rewrite Hn. reflexivity.
  - right.
    assert (Hn : init_normalize prec 1 [PyNone; PyInt v] [PyNone; PyInt t]
                 = Ret ([PyNone; PyInt (Z.shiftl v prec / t)],
                        [PyNone; PyInt (Z.shiftl t prec / t)])).
    { lazy -[Z.shiftl Z.div Z.eqb t].
      destruct (Z.eqb_spec t 0); [contradiction|]. reflexivity. }
    rewrite Hn, bind_Ret. clear Hn.
    reflexivity.
Qed.

Section MorePslq.
Context `{Engine}.

(** on a vector of one element [pslq] never returns: the setup raises,
    or the norm is zero and the normalization divides by it, or the first
    pass, whose pivot stays [-1], looks up a row of [H] that does not
    exist. *)
Theorem pslq_single_raises (x : mpf) (eps : option mpf) :
  exists e, pslq [x] eps = Raise e.
Proof.
  unfold pslq.
  destruct (pslq_args [x] eps) as [[[[prec n] epsf] xf]|e] eqn:Ha;
    [|exists e; reflexivity].
  apply pslq_args_inv in Ha as (_ & -> & _ & _ & -> & _).
  rewrite bind_Ret. simpl length. simpl map.
  destruct (pslq_fixed_single sqrt_fixed prec epsf (to_fixed x prec)) as [Hr|Hr];
    change (Z.of_nat 1) with 1; rewrite Hr; eauto.
Qed.

(** A relation the engine returns has [n] coefficients. *)
Lemma pslq_fixed_length (sq : Z -> Z -> Z) (prec n epsf : Z) (xf : list pyval)
    (vec : list Z) :
  pslq_fixed sq prec n epsf xf = Ret (Some vec) -> length vec = Z.to_nat n.
Proof.
  intros Hr. unfold pslq_fixed in Hr.
  apply bind_Ret_inv in Hr as (st0 & Hi & Hl).
  apply loop_found in Hl as (k & st & Hk & Hst & Hp).
  apply pass_found in Hp as (st' & Hred & Hc).
  apply check_from_found in Hc as (i & yi & Hin & Hyi & Hlt & Hcand & Hb).
  apply candidate_entries, Forall2_length in Hcand.
  rewrite <- Hcand. unfold py_range. rewrite length_seqZ. f_equal. lia.
Qed.

(** a returned relation has one coefficient for each input value. *)
Theorem pslq_result_length (x : list mpf) (eps : option mpf) (vec : list Z) :
  pslq x eps = Ret (Some vec) -> length vec = length x.
Proof.
  intros Hr. unfold pslq in Hr.
  apply bind_Ret_inv in Hr as ([[[prec n] epsf] xf] & Ha & Hr).
  apply pslq_fixed_length in Hr.
  apply pslq_args_inv in Ha as (_ & -> & _). lia.
Qed.

Lemma findpoly_from_length (x : mpf) (degrees : list Z) (xs : list mpf) (l : list Z) :
  findpoly_from x degrees xs = Ret (Some l) ->
  (length xs < length l <= length xs + length degrees)%nat.
Proof.
  revert xs. induction degrees as [|i rest IH]; intros xs; simpl; [discriminate|].
  intros Hf.
  apply bind_Ret_inv in Hf as (xi & Hxi & Hf).
  apply bind_Ret_inv in Hf as (a & Ha & Hf).
  destruct a as [a|].
  - injection Hf as <-. unfold pslq in Ha.
    apply bind_Ret_inv in Ha as ([[[prec n] epsf] xf] & Hargs & Ha).
    apply pslq_fixed_length in Ha.
    apply pslq_args_inv in Hargs as (_ & -> & _).
    rewrite length_reverse, Ha, Nat2Z.id, length_app. simpl. lia.
  - apply IH in Hf. rewrite length_app in Hf. simpl in Hf. lia.
Qed.

(** a polynomial [findpoly] returns is [[1, 0]] for [x = 0], and
    otherwise has between 2 and [n + 1] coefficients, that is, degree
    between 1 and [n]; for [n < 1] and [x <> 0] nothing is tried and
    [None] is returned. *)
Theorem findpoly_degree (x : mpf) (n : Z) :
  (forall l, findpoly x n = Ret (Some l) ->
     (mpf_eqb x (mpf_of_Z 0) = true /\ l = [1; 0]) \/
     (mpf_eqb x (mpf_of_Z 0) = false /\ 1 <= n /\
      (2 <= length l <= Z.to_nat n + 1)%nat)) /\
  (mpf_eqb x (mpf_of_Z 0) = false -> n < 1 -> findpoly x n = Ret None).
Proof.
  unfold findpoly. split.
  - intros l Hf. destruct (mpf_eqb x (mpf_of_Z 0)).
    + left. injection Hf as <-. auto.
    + right. split; [reflexivity|].
      apply findpoly_from_length in Hf.
      unfold py_range in Hf. rewrite length_seqZ in Hf. simpl length in Hf.
      split; lia.
  - intros -> Hn. unfold py_range.
    assert (Hseq : seqZ 1 (n + 1 - 1) = []).
    { unfold seqZ. replace (Z.to_nat (n + 1 - 1)) with 0%nat by lia. reflexivity. }
    rewrite Hseq. reflexivity.
Qed.

End MorePslq.

(** ** More on the formatters and the recogniser *)

Lemma pslq_terms_zero {V : Type} (q : Z) (r : list Z) (i : nat)
    (constants : list (V * string)) :
  Forall (fun p => p = 0) r -> pslq_terms q r i constants = Ret [].
Proof.
  intros Hr. revert i. induction Hr as [|p r -> Hr IH]; intros i; simpl; auto.
Qed.

Lemma prod_terms_zero {V : Type} (q : Z) (r : list Z) (i : nat)
    (constants : list (V * string)) (num den : list string) :
  Forall (fun p => p = 0) r -> prod_terms q r i constants num den = Ret (num, den).
Proof.
  intros Hr. revert i. induction Hr as [|p r -> Hr IH]; intros i; simpl; auto.
Qed.

(** for a relation whose coefficients after the first are all zero,
    whatever the first one and the constants are, [pslqstring] returns
    ["0"] and [prodstring] returns [None]. *)
Theorem formatters_zero_tail {V : Type} (q : Z) (r : list Z)
    (constants : list (V * string)) :
  Forall (fun p => p = 0) r ->
  pslqstring (q :: r) constants = Ret "0" /\
  prodstring (q :: r) constants = Ret None.
Proof.
  intros Hr. unfold pslqstring, prodstring.
  rewrite (pslq_terms_zero _ _ _ _ Hr), (prod_terms_zero _ _ _ _ _ _ Hr).
  split; reflexivity.
Qed.

(** Inserting keeps the earlier of two strings of the same length first. *)
Lemma insert_by_len_filter (n : nat) (s : string) (l : list string) :
  Sorted shorter l ->
  filter (fun t => String.length t = n) (insert_by_len s l) =
  filter (fun t => String.length t = n) (l ++ [s]).
Proof.
  induction 1 as [|t l Hs IH Hhd]; simpl; [reflexivity|].
  destruct (Nat.leb_spec (String.length t) (String.length s)) as [Hle|Hgt].
  - rewrite !filter_cons, IH. reflexivity.
  - assert (Hts : Forall (shorter t) l).
    { apply Sorted_extends; [intros a b c; unfold shorter; lia|].
      constructor; assumption. }
    assert (Hall : Forall (fun u => (String.length s < String.length u)%nat) (t :: l)).
    { constructor; [exact Hgt|].
      eapply Forall_impl; [exact Hts|]. unfold shorter. simpl. intros; lia. }
    rewrite filter_cons.
    change (t :: l ++ [s]) with ((t :: l) ++ [s]). rewrite filter_app.
    assert (Hnil : filter (fun u => String.length u = n) [s] = [] \/
                   filter (fun u => String.length u = n) (t :: l) = []).
    { rewrite filter_cons, filter_nil.
      destruct (decide (String.length s = n)) as [Hn|Hn]; [right|left; reflexivity].
      clear -Hall Hn. induction Hall as [|u us Hu Hus IHu]; [reflexivity|].
      rewrite filter_cons. destruct (decide (String.length u = n)); [lia|].
      apply IHu. }
    rewrite (filter_cons _ s), filter_nil in Hnil |- *.
    destruct (decide (String.length s = n)) as [Hn|Hn].
    + destruct Hnil as [Hnil|Hnil]; [discriminate|]. rewrite Hnil. reflexivity.
    + rewrite app_nil_r. reflexivity.
Qed.

Lemma sort_by_len_stable (n : nat) (l : list string) :
  filter (fun t => String.length t = n) (sort_by_len l) =
  filter (fun t => String.length t = n) l.
Proof.
  unfold sort_by_len.
  assert (Hgen : forall acc, Sorted shorter acc ->
            filter (fun t => String.length t = n)
                   (foldl (fun acc s => insert_by_len s acc) acc l) =
            filter (fun t => String.length t = n) (acc ++ l)).
  { induction l as [|s l IH]; intros acc Hacc; simpl.
    - rewrite app_nil_r. reflexivity.
    - rewrite IH by (apply insert_by_len_sorted, Hacc).
      rewrite filter_app, insert_by_len_filter by exact Hacc.
      rewrite <- filter_app, <- app_assoc. reflexivity. }
  apply (Hgen [] (Sorted_nil _)).
Qed.

(** [sorted(solutions, key=len)] raises TypeError when a solution is
    [None]; otherwise it returns the solutions rearranged in order of
    nondecreasing length, those of one length in the order in which they
    were found. *)
Theorem sorted_by_len_stable (solutions : list (option string)) :
  (In None solutions -> sorted_by_len solutions = Raise TypeError) /\
  (forall strs, solutions = map Some strs ->
     exists l, sorted_by_len solutions = Ret l /\
               Permutation l strs /\
               Sorted (fun a b => (String.length a <= String.length b)%nat) l /\
               forall n, filter (fun t => String.length t = n) l =
                         filter (fun t => String.length t = n) strs).
Proof.
  unfold sorted_by_len. split.
  - intros Hin. induction solutions as [|o rest IH]; [contradiction|].
    simpl. destruct o as [s|]; [|reflexivity].
    destruct Hin as [Hs|Hin]; [discriminate|].
    rewrite bind_Ret.
    destruct (map_res _ rest) as [strs|e]; [|].
    + specialize (IH Hin). discriminate.
    + specialize (IH Hin). simpl in IH |- *. congruence.
  - intros strs ->.
    assert (Hm : map_res (fun o : option string =>
                            match o with
                            | Some s => Ret s
                            | None => Raise TypeError
                            end) (map Some strs) = Ret strs).
    { induction strs as [|s strs IH]; simpl; [reflexivity|].
      rewrite IH. reflexivity. }
    rewrite Hm, bind_Ret. exists (sort_by_len strs).
    split; [reflexivity|]. split; [apply sort_by_len_perm|].
    split; [apply sort_by_len_spec | intros n; apply sort_by_len_stable].
Qed.

Section MoreIdentify.
Context `{Engine}.
Variable py_eval : string -> res mpf.

(** the constant 1 is put in front of the resolved constants in every
    case, also when one of them already has the value 1 or the name
    ["1"]: the list searched is one longer than the list supplied. *)
Theorem searched_constants_prepends (constants : constants_arg mpf)
    (supplied : list (mpf * string)) :
  resolve_constants py_eval constants = Ret supplied ->
  searched_constants py_eval constants = Ret ((mpf_of_Z 1, "1") :: supplied).
Proof.
  intros Hr. unfold searched_constants. rewrite Hr, bind_Ret, with_one_prepends.
  reflexivity.
Qed.

End MoreIdentify.

(** [round_fixed] gives the multiple of [2^prec] nearest to [x], the
    upper one when [x] is halfway between two of them. *)
Theorem round_fixed_nearest (x prec : Z) :
  0 < prec ->
  exists k, round_fixed x prec = k * 2 ^ prec /\
            Z.shiftr (round_fixed x prec) prec = k /\
            - 2 ^ (prec - 1) <= x - k * 2 ^ prec < 2 ^ (prec - 1).
Proof.
  intros Hp. unfold round_fixed.
  rewrite Z.shiftl_1_l, Z.shiftr_div_pow2, Z.shiftl_mul_pow2 by lia.
  exists ((x + 2 ^ (prec - 1)) / 2 ^ prec).
  split; [reflexivity|]. split.
  - rewrite Z.shiftr_div_pow2 by lia. apply Z.div_mul.
    apply Z.pow_nonzero; lia.
  - assert (Hpow : 2 ^ prec = 2 * 2 ^ (prec - 1)).
    { replace prec with (1 + (prec - 1)) at 1 by lia.
      rewrite Z.pow_add_r by lia. reflexivity. }
    assert (Hh : 0 < 2 ^ (prec - 1)) by (apply Z.pow_pos_nonneg; lia).
    pose proof (Z.div_mod (x + 2 ^ (prec - 1)) (2 ^ prec) ltac:(lia)) as Hdm.
    pose proof (Z.mod_pos_bound (x + 2 ^ (prec - 1)) (2 ^ prec) ltac:(lia)) as Hb.
    lia.
Qed.

(** ** Vectors and ODE steps *)

Lemma for_app {I S : Type} (l1 l2 : list I) (body : I -> S -> res S) (s : S) :
  for_ (l1 ++ l2) body s = (s' ← for_ l1 body s; for_ l2 body s').
Proof.
  revert s. induction l1 as [|i l1 IH]; intros s; simpl; [reflexivity|].
  destruct (body i s) as [s'|e]; simpl; [apply IH | reflexivity].
Qed.

Section NumericsProperties.
Context `{Engine}.

Lemma list_item_Some {A : Type} (l : list A) (i : nat) (v : A) :
  l !! i = Some v -> list_item l i = Ret v.
Proof. intros Hl. unfold list_item. rewrite Hl. reflexivity. Qed.

Lemma map_res_ok {A B : Type} (f : A -> res B) (g : A -> B) (l : list A) :
  (forall a, In a l -> f a = Ret (g a)) -> map_res f l = Ret (map g l).
Proof.
  induction l as [|a l IH]; intros Hf; simpl; [reflexivity|].
  rewrite (Hf a (or_introl eq_refl)), bind_Ret, IH, bind_Ret; [reflexivity|].
  intros b Hb. apply Hf. right. exact Hb.
Qed.

Lemma map_res_returns {A B : Type} (f : A -> res B) (l : list A) :
  (forall a, In a l -> exists b, f a = Ret b) -> exists bs, map_res f l = Ret bs.
Proof.
  induction l as [|a l IH]; intros Hf; simpl; [eauto|].
  destruct (Hf a (or_introl eq_refl)) as [b ->].
  destruct IH as [bs ->]; [intros c Hc; apply Hf; right; exact Hc|].
  simpl. eauto.
Qed.

(** The loop of assertions of [vadd]. *)
Lemma for_assert_lengths (args : list (list mpf)) (n : nat) :
  for_ args (fun x _ => py_assert (length x =? n)%nat) tt =
  if forallb (fun x => (length x =? n)%nat) args then Ret tt
  else Raise AssertionError.
Proof.
  induction args as [|x args IH]; simpl; [reflexivity|].
  destruct (length x =? n)%nat; simpl; [|reflexivity].
  destruct (py_assert true) as [[]|] eqn:Ha; [|discriminate]. exact IH.
Qed.

Lemma vadd_entry (rest : list (list mpf)) (n i : nat) (s0 : mpf) :
  Forall (fun x => length x = n) rest -> (i < n)%nat ->
  exists s,
    for_ rest (fun x s => xi ← list_item x i; Ret (mpf_add s xi)) s0 = Ret s /\
    foldl (fun acc x => s ← acc; xi ← x !! i; Some (mpf_add s xi)) (Some s0) rest
      = Some s.
Proof.
  intros Hlen Hi. revert s0. induction Hlen as [|x rest Hx Hrest IH]; intros s0; simpl.
  - eauto.
  - destruct (lookup_lt_is_Some_2 x i ltac:(lia)) as [xi Hxi].
    rewrite (list_item_Some _ _ _ Hxi), bind_Ret, Hxi. simpl. apply IH.
Qed.

(** [vadd] on a first vector and at least one more: the assertions on the
    lengths, then the sums. *)
Lemma vadd_unfold (x0 : list mpf) (rest : list (list mpf)) :
  rest <> [] ->
  vadd (x0 :: rest) =
  if forallb (fun x => (length x =? length x0)%nat) rest
  then map_res (fun i =>
                  s ← list_item x0 i;
                  for_ rest (fun x s => xi ← list_item x i; Ret (mpf_add s xi)) s)
               (seq 0 (length x0))
  else Raise AssertionError.
Proof.
  intros Hrest. unfold vadd.
  destruct (Z.leb_spec 2 (Z.of_nat (length (x0 :: rest)))) as [_|Hlen].
  2: { destruct rest; [contradiction | simpl in Hlen; lia]. }
  change (py_assert true) with (@Ret unit tt). rewrite bind_Ret.
  rewrite (list_item_Some (x0 :: rest) 0 x0 eq_refl), bind_Ret, for_assert_lengths.
  simpl forallb. rewrite Nat.eqb_refl. simpl andb. simpl drop. rewrite drop_0.
  destruct (forallb _ rest); reflexivity.
Qed.

Lemma vadd_cons (x0 : list mpf) (rest : list (list mpf)) :
  rest <> [] ->
  Forall (fun x => length x = length x0) rest ->
  exists R, vadd (x0 :: rest) = Ret R /\ length R = length x0 /\
            forall i, (i < length x0)%nat -> R !! i = column_sum (x0 :: rest) i.
Proof.
  intros Hne Hrest. rewrite (vadd_unfold x0 rest Hne).
  assert (Hfa : forallb (fun x => (length x =? length x0)%nat) rest = true).
  { apply forallb_forall. intros x Hx. apply Nat.eqb_eq.
    apply (proj1 (List.Forall_forall _ _) Hrest x Hx). }
  rewrite Hfa.
  set (g := fun i => default (mpf_of_Z 0) (column_sum (x0 :: rest) i)).
  exists (map g (seq 0 (length x0))).
  split; [|split].
  - apply map_res_ok. intros i Hi. apply in_seq in Hi. cbv beta.
    destruct (lookup_lt_is_Some_2 x0 i ltac:(lia)) as [s0 Hs0].
    rewrite (list_item_Some _ _ _ Hs0), bind_Ret.
    destruct (vadd_entry rest (length x0) i s0 Hrest ltac:(lia)) as (s & Hs & Hc).
    rewrite Hs. unfold g, column_sum. rewrite Hs0. simpl. rewrite Hc. reflexivity.
  - rewrite length_map, length_seq. reflexivity.
  - intros i Hi. rewrite list_lookup_fmap, lookup_seq_lt by exact Hi. simpl.
    unfold g.
    destruct (lookup_lt_is_Some_2 x0 i Hi) as [s0 Hs0].
    destruct (vadd_entry rest (length x0) i s0 Hrest Hi) as (s & _ & Hc).
    unfold column_sum. rewrite Hs0. simpl. rewrite Hc. reflexivity.
Qed.

Lemma vadd_mismatch (x0 x : list mpf) (rest : list (list mpf)) :
  In x rest -> length x <> length x0 -> vadd (x0 :: rest) = Raise AssertionError.
Proof.
  intros Hx Hne. rewrite vadd_unfold by (intros ->; destruct Hx).
  destruct (forallb _ rest) eqn:Hall; [|reflexivity].
  rewrite forallb_forall in Hall. apply Hall, Nat.eqb_eq in Hx. contradiction.
Qed.

(** [vadd] raises only AssertionError, and exactly when it is given
    fewer than two vectors or a vector whose length differs from that of
    the first. *)
Theorem vadd_raises_iff (args : list (list mpf)) (e : exn) :
  vadd args = Raise e <->
  e = AssertionError /\
  ((length args < 2)%nat \/
   exists x0 x, args !! 0%nat = Some x0 /\ In x args /\ length x <> length x0).
Proof.
  destruct args as [|x0 [|x1 rest]].
  - split; [intros [= <-]; split; [reflexivity | left; simpl; lia]
           | intros [-> _]; reflexivity].
  - split; [intros [= <-]; split; [reflexivity | left; simpl; lia]
           | intros [-> _]; reflexivity].
  - destruct (decide (Forall (fun x => length x = length x0) (x1 :: rest)))
      as [Hall|Hex].
    + destruct (vadd_cons x0 (x1 :: rest) ltac:(discriminate) Hall) as (R & HR & _).
      rewrite HR. split; [discriminate|].
      intros [_ [Hlt|(y0 & x & Hy0 & Hx & Hne)]]; [simpl in Hlt; lia|].
      exfalso. injection Hy0 as <-. destruct Hx as [<-|Hx]; [congruence|].
      apply Hne. apply (proj1 (List.Forall_forall _ _) Hall x Hx).
    + apply not_Forall_Exists in Hex; [|intros x; apply _].
      apply List.Exists_exists in Hex as (x & Hx & Hne).
      rewrite (vadd_mismatch x0 x (x1 :: rest) Hx Hne).
      split; [|intros [-> _]; reflexivity].
      intros [= <-]. split; [reflexivity|]. right.
      exists x0, x. split; [reflexivity|]. split; [right; exact Hx | exact Hne].
Qed.

(** given at least two vectors, all of the length of the first, [vadd]
    returns a vector of that length whose entry [i] is the sum of the
    entries [i], added from left to right. *)
Theorem vadd_columns (args : list (list mpf)) (x0 : list mpf) :
  (2 <= length args)%nat ->
  args !! 0%nat = Some x0 ->
  (forall x, In x args -> length x = length x0) ->
  exists R, vadd args = Ret R /\ length R = length x0 /\
            forall i, (i < length x0)%nat -> R !! i = column_sum args i.
Proof.
  intros Hlen H0 Hall.
  destruct args as [|y0 rest]; [discriminate|]. injection H0 as ->.
  apply vadd_cons.
  - intros ->. simpl in Hlen. lia.
  - apply List.Forall_forall. intros x Hx. apply Hall. right. exact Hx.
Qed.

Lemma vadd_two (a b : list mpf) :
  (length a = length b -> vadd [a; b] = Ret (zip_with mpf_add a b)) /\
  (length a <> length b -> vadd [a; b] = Raise AssertionError).
Proof.
  split.
  - intros Hab.
    destruct (vadd_cons a [b]) as (R & HR & Hlen & Hcol); [discriminate|auto|].
    rewrite HR. f_equal. apply list_eq. intros i.
    destruct (decide (i < length a)%nat) as [Hi|Hi].
    + rewrite (Hcol i Hi), lookup_zip_with. simpl.
      destruct (a !! i); simpl; [|reflexivity].
      destruct (b !! i); reflexivity.
    + rewrite !lookup_ge_None_2; [reflexivity| |lia].
      rewrite length_zip_with. lia.
  - intros Hab. apply (vadd_mismatch a b [b]); [left; reflexivity | congruence].
Qed.

(** the Euler step returns [y[i] + h*X[i]] for the derivatives [X] that
    [derivs(y, x)] returns, and raises AssertionError when [X] is not as
    long as [y]. *)
Theorem ODE_step_euler_result (derivs : list mpf -> mpf -> res (list mpf))
    (x : mpf) (y : list mpf) (h : mpf) (X : list mpf) :
  derivs y x = Ret X ->
  (length X = length y ->
   ODE_step_euler derivs x y h =
     Ret (zip_with (fun yi Xi => mpf_add yi (mpf_mul h Xi)) y X)) /\
  (length X <> length y -> ODE_step_euler derivs x y h = Raise AssertionError).
Proof.
  intros HX. unfold ODE_step_euler. rewrite HX, bind_Ret.
  destruct (vadd_two y (smul h X)) as [Heq Hne].
  unfold smul in *. rewrite length_map in Heq, Hne.
  split; intros Hlen.
  - rewrite Heq by congruence. f_equal.
    rewrite zip_with_fmap_r. reflexivity.
  - apply Hne. congruence.
Qed.

Section RungeKuttaProperties.
Variable ldexp : mpf -> Z -> mpf.
Variable half : mpf.

(** when [1/3] can be computed and [derivs] returns, for every vector
    as long as [y], a vector of the same length, the Runge-Kutta step
    returns a vector as long as [y]. *)
Theorem ODE_step_rk4_length (derivs : list mpf -> mpf -> res (list mpf))
    (x : mpf) (y : list mpf) (h third : mpf) :
  mpf_div (mpf_of_Z 1) (mpf_of_Z 3) = Ret third ->
  (forall v t, length v = length y ->
               exists d, derivs v t = Ret d /\ length d = length y) ->
  exists v, ODE_step_rk4 ldexp half derivs x y h = Ret v /\ length v = length y.
Proof.
  intros Hthird Hd. unfold ODE_step_rk4. rewrite Hthird, bind_Ret.
  destruct (Hd y x eq_refl) as (d1 & -> & Hl1). rewrite bind_Ret.
  assert (Hv : forall k, length k = length y ->
             vadd [y; k] = Ret (zip_with mpf_add y k) /\
             length (zip_with mpf_add y k) = length y).
  { intros k Hk. split; [apply vadd_two; congruence|].
    rewrite length_zip_with. lia. }
  assert (Hs : forall a d, length d = length y -> length (smul a d) = length y).
  { intros a d Hl. unfold smul. rewrite length_map. exact Hl. }
  destruct (Hv (smul half (smul h d1))) as [-> Hl2]; [auto|]. rewrite bind_Ret.
  destruct (Hd _ (mpf_add x (ldexp h (-1))) Hl2) as (d2 & -> & Hld2). rewrite bind_Ret.
  destruct (Hv (smul half (smul h d2))) as [-> Hl3]; [auto|]. rewrite bind_Ret.
  destruct (Hd _ (mpf_add x (ldexp h (-1))) Hl3) as (d3 & -> & Hld3). rewrite bind_Ret.
  destruct (Hv (smul h d3)) as [-> Hl4]; [auto|]. rewrite bind_Ret.
  destruct (Hd _ (mpf_add x h) Hl4) as (d4 & -> & Hld4). rewrite bind_Ret.
  match goal with |- exists v, map_res ?f ?l = _ /\ _ =>
    destruct (map_res_returns f l) as [v Hv']
  end.
  - intros i Hi. apply in_seq in Hi.
    destruct (lookup_lt_is_Some_2 y i ltac:(lia)) as [yi Hyi].
    destruct (lookup_lt_is_Some_2 (smul h d1) i ltac:(rewrite Hs; lia)) as [k1 Hk1].
    destruct (lookup_lt_is_Some_2 (smul h d2) i ltac:(rewrite Hs; lia)) as [k2 Hk2].
    destruct (lookup_lt_is_Some_2 (smul h d3) i ltac:(rewrite Hs; lia)) as [k3 Hk3].
    destruct (lookup_lt_is_Some_2 (smul h d4) i ltac:(rewrite Hs; lia)) as [k4 Hk4].
    rewrite (list_item_Some _ _ _ Hyi), bind_Ret.
    rewrite (list_item_Some _ _ _ Hk2), bind_Ret.
    rewrite (list_item_Some _ _ _ Hk3), bind_Ret.
    rewrite (list_item_Some _ _ _ Hk1), bind_Ret.
    rewrite (list_item_Some _ _ _ Hk4), bind_Ret. eauto.
  - exists v. split; [exact Hv'|].
    apply map_res_Forall2, Forall2_length in Hv'.
    rewrite <- Hv', length_seq. reflexivity.
Qed.

(** when the derivatives returned for [y] itself are not as many as
    the entries of [y], the Runge-Kutta step raises AssertionError. *)
Theorem ODE_step_rk4_mismatch (derivs : list mpf -> mpf -> res (list mpf))
    (x : mpf) (y : list mpf) (h third : mpf) (d1 : list mpf) :
  mpf_div (mpf_of_Z 1) (mpf_of_Z 3) = Ret third ->
  derivs y x = Ret d1 ->
  length d1 <> length y ->
  ODE_step_rk4 ldexp half derivs x y h = Raise AssertionError.
Proof.
  intros Hthird Hd Hne. unfold ODE_step_rk4.
  rewrite Hthird, bind_Ret, Hd, bind_Ret.
  destruct (vadd_two y (smul half (smul h d1))) as [_ ->]; [reflexivity|].
  unfold smul. rewrite !length_map. congruence.
Qed.

End RungeKuttaProperties.

(** [odeint] returns one state for each time of [t_list] (and the
    initial state alone for an empty list); the first is [x0], and each
    next one is what [step] returns for the time, the state before and
    the difference to the next time. *)
Theorem odeint_states {X : Type} (step : mpf -> X -> mpf -> res X)
    (x0 : X) (t_list : list mpf) (result : list X) :
  odeint step x0 t_list = Ret result ->
  length result = Nat.max 1 (length t_list) /\
  result !! 0%nat = Some x0 /\
  forall i t0 t1 xi,
    t_list !! i = Some t0 -> t_list !! S i = Some t1 -> result !! i = Some xi ->
    exists xi', step t0 xi (mpf_sub t1 t0) = Ret xi' /\ result !! S i = Some xi'.
Proof.
  unfold odeint. intros Ho.
  apply bind_Ret_inv in Ho as ([x r] & Hf & Ho). injection Ho as <-.
  assert (Hgen : forall m x r,
            for_ (seq 0 m) (fun i xr =>
                t1 ← list_item t_list (i + 1);
                t0 ← list_item t_list i;
                x ← step t0 xr.1 (mpf_sub t1 t0);
                Ret (x, xr.2 ++ [x])) (x0, [x0]) = Ret (x, r) ->
            length r = S m /\ r !! 0%nat = Some x0 /\ r !! m = Some x /\
            forall i t0 t1 xi,
              (i < m)%nat ->
              t_list !! i = Some t0 -> t_list !! S i = Some t1 -> r !! i = Some xi ->
              exists xi', step t0 xi (mpf_sub t1 t0) = Ret xi' /\ r !! S i = Some xi').
  { induction m as [|m IH]; intros x' r' Hm.
    - simpl in Hm. injection Hm as <- <-. repeat split; auto. intros; lia.
    - rewrite seq_S, for_app in Hm. simpl in Hm.
      apply bind_Ret_inv in Hm as ([xm rm] & Hpre & Hm).
      destruct (IH _ _ Hpre) as (Hlen & Hhd & Hlast & Hchain).
      apply bind_Ret_inv in Hm as ([xn rn] & Hm & Hret). injection Hret as <- <-.
      apply bind_Ret_inv in Hm as (t1 & Ht1 & Hm).
      apply bind_Ret_inv in Hm as (t0 & Ht0 & Hm).
      apply bind_Ret_inv in Hm as (xs & Hstep & Hm). injection Hm as <- <-.
      simpl in *.
      unfold list_item in Ht1, Ht0.
      destruct (t_list !! (m + 1)%nat) as [t1'|] eqn:E1; [|discriminate].
      destruct (t_list !! m) as [t0'|] eqn:E0; [|discriminate].
      injection Ht1 as ->. injection Ht0 as ->.
      rewrite Nat.add_1_r in E1.
      repeat split.
      + rewrite length_app. simpl. lia.
      + rewrite lookup_app_l by lia. exact Hhd.
      + rewrite lookup_app_r by lia. rewrite Hlen, Nat.sub_diag. reflexivity.
      + intros i ta tb xi Hi Hta Htb Hxi.
        destruct (decide (i < m)%nat) as [Hlt|Hge].
        * rewrite lookup_app_l in Hxi by lia.
          destruct (Hchain i ta tb xi Hlt Hta Htb Hxi) as (xi' & Hs & Hn).
          exists xi'. split; [exact Hs|]. rewrite lookup_app_l by lia. exact Hn.
        * assert (i = m) by lia. subst i.
          rewrite lookup_app_l in Hxi by lia.
          rewrite Hlast in Hxi. injection Hxi as <-.
          rewrite E0 in Hta. injection Hta as <-.
          rewrite E1 in Htb. injection Htb as <-.
          exists xs. split; [exact Hstep|].
          rewrite lookup_app_r by lia. rewrite Hlen, Nat.sub_diag. reflexivity. }
  destruct (Hgen _ _ _ Hf) as (Hlen & Hhd & _ & Hchain).
  split; [simpl; lia|]. split; [exact Hhd|].
  intros i t0 t1 xi Ht0 Ht1 Hxi.
  apply (Hchain i t0 t1 xi); auto.
  apply lookup_lt_Some in Ht1. lia.
Qed.

End NumericsProperties.

(** ** Chebyshev polynomials in expanded form *)

Section ChebyshevProperties.
Variable num : Type.
Variable num_of_Z : Z -> num.
Variables nadd nsub nmul : num -> num -> num.

Lemma combine_from_length (f : num -> num -> num) (k : nat) (vals l : list num) :
  length (combine_from num f k vals l) = length l.
Proof.
  revert k l. induction vals as [|c vals IH]; intros k l; simpl; [reflexivity|].
  rewrite IH, length_alter. reflexivity.
Qed.

Lemma update_item_Some (f : num -> num) (i : nat) (l : list num) (v : num) :
  l !! i = Some v -> update_item num f i l = Ret (<[i := f v]> l).
Proof. intros Hl. unfold update_item. rewrite Hl. reflexivity. Qed.

Lemma for_update_items (f : num -> num -> num) (k : nat) (vals l : list num) :
  (k + length vals <= length l)%nat ->
  for_ (zip (seq k (length vals)) vals)
       (fun ic Tmp => update_item num (fun v => f v ic.2) ic.1 Tmp) l
  = Ret (combine_from num f k vals l).
Proof.
  revert k l. induction vals as [|c vals IH]; intros k l Hlen; simpl in *.
  - reflexivity.
  - destruct (lookup_lt_is_Some_2 l k ltac:(lia)) as [v Hv].
    rewrite (update_item_Some _ _ _ _ Hv), bind_Ret.
    rewrite IH by (rewrite length_insert; lia).
    f_equal. f_equal. apply list_eq. intros j.
    destruct (decide (j = k)) as [->|Hne].
    + rewrite list_lookup_insert_eq, list_lookup_alter_eq by lia.
      rewrite Hv. reflexivity.
    + rewrite list_lookup_insert_ne, list_lookup_alter_ne by auto. reflexivity.
Qed.

Lemma chebT_step_result (a b : num) (Ta Tb : list num) :
  (length Tb <= length Ta)%nat ->
  chebT_step num num_of_Z nadd nsub nmul a b (Ta, Tb) =
  Ret (combine_from num nsub 0 Tb
         (combine_from num (fun v c => nadd v (nmul (nmul (num_of_Z 2) b) c)) 0 Ta
            (num_of_Z 0 :: map (fun t => nmul (nmul (num_of_Z 2) a) t) Ta)), Ta).
Proof.
  intros Hlen. unfold chebT_step, enumerate.
  rewrite (for_update_items (fun v c => nadd v (nmul (nmul (num_of_Z 2) b) c)))
    by (simpl; rewrite length_map; lia).
  rewrite bind_Ret.
  rewrite (for_update_items nsub)
    by (rewrite combine_from_length; simpl; rewrite length_map; lia).
  reflexivity.
Qed.

Lemma chebT_state_lengths (a b : num) (k : nat) :
  exists Ta Tb, chebT_state num num_of_Z nadd nsub nmul a b k = Ret (Ta, Tb) /\
                length Ta = (k + 2)%nat /\ length Tb = (k + 1)%nat.
Proof.
  induction k as [|k (Ta & Tb & IH & Ha & Hb)]; simpl.
  - exists [b; a], [num_of_Z 1]. auto.
  - rewrite IH, bind_Ret, chebT_step_result by lia.
    eexists _, Ta. split; [reflexivity|].
    rewrite !combine_from_length. simpl. rewrite length_map. lia.
Qed.

(** the generator never fails, and the list it yields at call [k] has
    [k + 1] coefficients. *)
Theorem chebT_length (a b : num) (k : nat) :
  exists l, chebT num num_of_Z nadd nsub nmul a b k = Ret l /\
            length l = (k + 1)%nat.
Proof.
  destruct k as [|k]; simpl.
  - exists [num_of_Z 1]. auto.
  - destruct (chebT_state_lengths a b k) as (Ta & Tb & -> & Ha & _).
    rewrite bind_Ret. exists Ta. split; [reflexivity | simpl; lia].
Qed.

End ChebyshevProperties.

(** *** Integer coefficients *)

Lemma eval_cons (c : Z) (l : list Z) (x : Z) :
  eval_ascending (c :: l) x = c + x * eval_ascending l x.
Proof. reflexivity. Qed.

Lemma eval_alter (d : Z) (k : nat) (l : list Z) (x : Z) :
  (k < length l)%nat ->
  eval_ascending (alter (fun v => v + d) k l) x =
  eval_ascending l x + x ^ Z.of_nat k * d.
Proof.
  revert k. induction l as [|c l IH]; intros k Hk; [simpl in Hk; lia|].
  destruct k as [|k].
  - change (alter (fun v => v + d) 0%nat (c :: l)) with ((c + d) :: l).
    rewrite !eval_cons. change (Z.of_nat 0) with 0. ring.
  - change (alter (fun v => v + d) (S k) (c :: l))
      with (c :: alter (fun v => v + d) k l).
    rewrite !eval_cons, IH by (simpl in Hk; lia).
    rewrite Nat2Z.inj_succ, Z.pow_succ_r by lia. ring.
Qed.

Lemma eval_combine_from (g : Z -> Z) (k : nat) (vals l : list Z) (x : Z) :
  (k + length vals <= length l)%nat ->
  eval_ascending (combine_from Z (fun v c => v + g c) k vals l) x =
  eval_ascending l x + x ^ Z.of_nat k * eval_ascending (map g vals) x.
Proof.
  revert k l. induction vals as [|c vals IH]; intros k l Hlen.
  - simpl. ring.
  - change (combine_from Z (fun v c => v + g c) k (c :: vals) l)
      with (combine_from Z (fun v c => v + g c) (S k) vals
              (alter (fun v => v + g c) k l)).
    simpl length in Hlen.
    rewrite IH by (rewrite length_alter; lia).
    rewrite eval_alter by lia.
    change (map g (c :: vals)) with (g c :: map g vals).
    rewrite eval_cons, Nat2Z.inj_succ, Z.pow_succ_r by lia. ring.
Qed.

Lemma eval_map_mul (m : Z) (l : list Z) (x : Z) :
  eval_ascending (map (fun t => m * t) l) x = m * eval_ascending l x.
Proof.
  induction l as [|c l IH]; [simpl; ring|].
  change (map (fun t => m * t) (c :: l)) with (m * c :: map (fun t => m * t) l).
  rewrite !eval_cons, IH. ring.
Qed.

Lemma chebyshev_pair_S (k : nat) (y : Z) :
  chebyshev_pair (S k) y =
  ((chebyshev_pair k y).2, 2 * y * (chebyshev_pair k y).2 - (chebyshev_pair k y).1).
Proof. simpl. destruct (chebyshev_pair k y). reflexivity. Qed.

Lemma chebT_state_values (a b : Z) (k : nat) (x : Z) :
  exists Ta Tb,
    chebT_state Z (fun z => z) Z.add Z.sub Z.mul a b k = Ret (Ta, Tb) /\
    (length Tb <= length Ta)%nat /\
    (eval_ascending Tb x, eval_ascending Ta x) = chebyshev_pair k (a * x + b).
Proof.
  induction k as [|k (Ta & Tb & IH & Hlen & Hval)].
  - exists [b; a], [1]. split; [reflexivity|]. split; [simpl; lia|].
    unfold chebyshev_pair. rewrite !eval_cons. simpl eval_ascending. f_equal; ring.
  - simpl chebT_state. rewrite IH, bind_Ret, chebT_step_result by exact Hlen.
    eexists _, Ta. split; [reflexivity|].
    split; [rewrite !combine_from_length; simpl; rewrite length_map; lia|].
    rewrite (chebyshev_pair_S k), <- Hval. cbn [fst snd]. f_equal.
    change (fun v c : Z => v - c) with (fun v c : Z => v + (fun c => - (1) * c) c).
    rewrite (eval_combine_from (fun c => - (1) * c))
      by (rewrite combine_from_length; simpl; rewrite length_map; lia).
    rewrite (eval_combine_from (fun c => 2 * b * c))
      by (simpl; rewrite length_map; lia).
    rewrite !eval_map_mul, eval_cons, eval_map_mul.
    change (Z.of_nat 0) with 0. ring.
Qed.

(** for integers [a] and [b] the list yielded at call [k] holds the
    coefficients, lowest degree first, of the Chebyshev polynomial [T_k]
    of [a*x + b]: its value at every integer [x] is [T_k(a*x + b)]. *)
Theorem chebT_integers (a b : Z) (k : nat) (x : Z) :
  exists l, chebT Z (fun z => z) Z.add Z.sub Z.mul a b k = Ret l /\
            eval_ascending l x = chebyshev k (a * x + b).
Proof.
  destruct k as [|k].
  - exists [1]. split; [reflexivity|]. unfold chebyshev. simpl. ring.
  - destruct (chebT_state_values a b k x) as (Ta & Tb & Hs & _ & Hv).
    simpl chebT. rewrite Hs, bind_Ret. exists Ta. split; [reflexivity|].
    unfold chebyshev. rewrite chebyshev_pair_S, <- Hv. reflexivity.
Qed.

(** ** Polynomial evaluation *)

Section PolyvalProperties.
Variable num : Type.
Variable nzero : num.
Variables nadd nmul : num -> num -> num.


Lemma polyval_fold_value (x : num) (rest : list num) (c0 q0 q1 : num) :
  (foldl (polyval_step num nadd nmul x true) (c0, q0) rest).1 =
  (foldl (polyval_step num nadd nmul x false) (c0, q1) rest).1.
Proof.
  revert c0 q0 q1. induction rest as [|c rest IH]; intros c0 q0 q1; simpl.
  - reflexivity.
  - apply IH.
Qed.

(** One more coefficient after a first one and the coefficients [rest]. *)
Lemma polyval_snoc (c0 : num) (rest : list num) (c x p q : num) :
  polyval num nzero nadd nmul (c0 :: rest) x true = PolyPair p q ->
  polyval num nzero nadd nmul ((c0 :: rest) ++ [c]) x true =
    PolyPair (nadd c (nmul x p)) (nadd p (nmul x q)) /\
  polyval num nzero nadd nmul ((c0 :: rest) ++ [c]) x false =
    PolyValue (nadd c (nmul x p)).
Proof.
  simpl. intros [= Hp Hq]. rewrite !foldl_app. simpl.
  rewrite <- (polyval_fold_value x rest c0 nzero nzero), Hp, Hq.
  auto.
Qed.

(** Horner's rule, one coefficient at a time: appending [c] to a list
    that is not empty turns the value [p] into [c + x*p] and the
    derivative [q] into [p + x*q]; the value is the same with and without
    [derivative]. *)
Theorem polyval_append (coeffs : list num) (c x p q : num) :
  polyval num nzero nadd nmul coeffs x true = PolyPair p q ->
  polyval num nzero nadd nmul coeffs x false = PolyValue p /\
  polyval num nzero nadd nmul (coeffs ++ [c]) x true =
    PolyPair (nadd c (nmul x p)) (nadd p (nmul x q)) /\
  polyval num nzero nadd nmul (coeffs ++ [c]) x false = PolyValue (nadd c (nmul x p)).
Proof.
  destruct coeffs as [|c0 rest]; [discriminate|].
  intros Hpq. split; [|apply polyval_snoc; exact Hpq].
  simpl in *. injection Hpq as Hp Hq.
  rewrite <- (polyval_fold_value x rest c0 nzero nzero), Hp. reflexivity.
Qed.

Section Exact.
Variable none : num.
Hypothesis laws : semi_ring_theory nzero none nadd nmul eq.
Add Ring num_ring : laws.

Lemma power_sum_app (cs : list num) (c x : num) :
  power_sum num nzero nadd nmul none (cs ++ [c]) x =
  nadd c (nmul x (power_sum num nzero nadd nmul none cs x)).
Proof.
  induction cs as [|d cs IH]; simpl.
  - ring.
  - rewrite IH, length_app. simpl. rewrite Nat.add_1_r. simpl. ring.
Qed.

Lemma times_mul (k : nat) (x y : num) :
  times num nzero nadd k (nmul x y) = nmul x (times num nzero nadd k y).
Proof. induction k as [|k IH]; simpl; [ring | rewrite IH; ring]. Qed.

Lemma derivative_sum_app (cs : list num) (c x : num) :
  derivative_sum num nzero nadd nmul none (cs ++ [c]) x =
  nadd (power_sum num nzero nadd nmul none cs x)
       (nmul x (derivative_sum num nzero nadd nmul none cs x)).
Proof.
  induction cs as [|d cs IH]; simpl.
  - ring.
  - rewrite IH, length_app. simpl. rewrite Nat.add_1_r. simpl.
    destruct (length cs) as [|k]; simpl.
    + ring.
    + replace (nmul d (nmul x (power num nmul none x k)))
        with (nmul x (nmul d (power num nmul none x k))) by ring.
      rewrite times_mul. ring.
Qed.

(** when sums and products obey the laws of a commutative semiring
    (exact arithmetic), [polyval] returns the sum of [c * x^k] over the
    coefficients, highest degree first, and with [derivative] also the
    sum of [k * c * x^(k-1)]. *)
Theorem polyval_sums (coeffs : list num) (x : num) :
  coeffs <> [] ->
  polyval num nzero nadd nmul coeffs x false =
    PolyValue (power_sum num nzero nadd nmul none coeffs x) /\
  polyval num nzero nadd nmul coeffs x true =
    PolyPair (power_sum num nzero nadd nmul none coeffs x)
             (derivative_sum num nzero nadd nmul none coeffs x).
Proof.
  induction coeffs as [|c coeffs IH] using rev_ind; [congruence|]. intros _.
  destruct coeffs as [|c0 rest].
  - simpl. split; f_equal; ring.
  - destruct (IH ltac:(discriminate)) as [_ Hd].
    destruct (polyval_snoc _ _ c x _ _ Hd) as (Ht & Hf).
    rewrite Ht, Hf, power_sum_app, derivative_sum_app. auto.
Qed.

End Exact.
End PolyvalProperties.

(** ** The secant method *)

Section SecantProperties.
Context `{Engine}.
Variable mpf_leb : mpf -> mpf -> bool.
Variable quarter : mpf.

Lemma secant_loop_returns (f : mpf -> res mpf) (weps : mpf) (steps : nat)
    (x xprev fxprev deriv : mpf) :
  (forall z, exists v, f z = Ret v) ->
  (forall a b e, mpf_div a b = Raise e -> e = ZeroDivisionError) ->
  exists r, secant_loop mpf_leb f weps steps x xprev fxprev (Some deriv) = Ret r.
Proof.
  intros Hf Hdiv. revert x xprev fxprev deriv.
  induction steps as [|steps IH]; intros x xprev fxprev deriv; simpl; [eauto|].
  destruct (Hf x) as [fx ->]. rewrite bind_Ret.
  unfold secant_deriv.
  destruct (mpf_div (mpf_sub x xprev) (mpf_sub fx fxprev)) as [d|e] eqn:Hd.
  - rewrite bind_Ret. simpl.
    destruct (mpf_leb _ weps); [eauto | apply IH].
  - rewrite (Hdiv _ _ _ Hd), bind_Ret. simpl.
    destruct (mpf_leb _ weps); [eauto | apply IH].
Qed.

(** when the first quotient [xdiff / ydiff] is a zero division, as it
    is when [f] has the same value at both start points, [secant]
    raises ZeroDivisionError. *)
Theorem secant_first_zero_division (f : mpf -> res mpf) (x0 : mpf)
    (x1 : option mpf) (maxsteps : Z) (fx fxprev : mpf) :
  1 <= maxsteps ->
  f (secant_start quarter x0 x1).2 = Ret fxprev ->
  f (secant_start quarter x0 x1).1 = Ret fx ->
  mpf_div (mpf_sub (secant_start quarter x0 x1).1 (secant_start quarter x0 x1).2)
          (mpf_sub fx fxprev) = Raise ZeroDivisionError ->
  secant mpf_leb quarter f x0 x1 maxsteps = Raise ZeroDivisionError.
Proof.
  intros Hm Hp Hx Hd. unfold secant. 
  unfold secant_start in *. simpl in *.
  rewrite Hp, bind_Ret.
  destruct (Z.to_nat maxsteps) as [|steps] eqn:Hs; [lia|].
  simpl. rewrite Hx, bind_Ret. unfold secant_deriv. rewrite Hd. reflexivity.
Qed.

(** when [f] returns everywhere, division raises nothing but
    ZeroDivisionError and the first quotient can be computed, [secant]
    returns: a later zero division reuses the quotient before it. *)
Theorem secant_returns (f : mpf -> res mpf) (x0 : mpf)
    (x1 : option mpf) (maxsteps : Z) (fx fxprev deriv : mpf) :
  (forall z, exists v, f z = Ret v) ->
  (forall a b e, mpf_div a b = Raise e -> e = ZeroDivisionError) ->
  f (secant_start quarter x0 x1).2 = Ret fxprev ->
  f (secant_start quarter x0 x1).1 = Ret fx ->
  mpf_div (mpf_sub (secant_start quarter x0 x1).1 (secant_start quarter x0 x1).2)
          (mpf_sub fx fxprev) = Ret deriv ->
  exists r, secant mpf_leb quarter f x0 x1 maxsteps = Ret r.
Proof.
  intros Hf Hdiv Hp Hx Hd. unfold secant.
  unfold secant_start in *. simpl in *.
  rewrite Hp, bind_Ret.
  destruct (Z.to_nat maxsteps) as [|steps]; simpl; [eauto|].
  rewrite Hx, bind_Ret. unfold secant_deriv. rewrite Hd, bind_Ret. simpl.
  destruct (mpf_leb _ _); [eauto|].
  apply secant_loop_returns; assumption.
Qed.

End SecantProperties.

(** ** The integer matrices behind [A] and [B] *)

Lemma sumZ_ext (l : list Z) (f g : Z -> Z) :
  (forall k, In k l -> f k = g k) -> sumZ l f = sumZ l g.
Proof.
  induction l as [|k l IH]; intros Hfg; simpl; [reflexivity|].
  rewrite (Hfg k (or_introl eq_refl)), IH; [reflexivity|].
  intros k' Hk'. apply Hfg. right. exact Hk'.
Qed.

Lemma sumZ_add (l : list Z) (f g : Z -> Z) :
  sumZ l (fun k => f k + g k) = sumZ l f + sumZ l g.
Proof. induction l as [|k l IH]; simpl; [reflexivity | rewrite IH; ring]. Qed.

Lemma sumZ_scale (l : list Z) (c : Z) (f : Z -> Z) :
  sumZ l (fun k => c * f k) = c * sumZ l f.
Proof. induction l as [|k l IH]; simpl; [ring | rewrite IH; ring]. Qed.

Lemma sumZ_zero (l : list Z) (f : Z -> Z) :
  (forall k, In k l -> f k = 0) -> sumZ l f = 0.
Proof.
  induction l as [|k l IH]; intros Hf; simpl; [reflexivity|].
  rewrite (Hf k (or_introl eq_refl)), IH; [reflexivity|].
  intros k' Hk'. apply Hf. right. exact Hk'.
Qed.

Lemma sumZ_delta_l (l : list Z) (a : Z) (f : Z -> Z) :
  List.NoDup l -> In a l -> sumZ l (fun k => delta a k * f k) = f a.
Proof.
  induction 1 as [|k l Hk Hl IH]; intros Ha; [contradiction|]. simpl.
  destruct Ha as [->|Ha].
  - unfold delta at 1. rewrite Z.eqb_refl.
    rewrite sumZ_zero; [ring|].
    intros k' Hk'. unfold delta.
    destruct (Z.eqb_spec a k') as [->|]; [contradiction | ring].
  - rewrite IH by exact Ha. unfold delta.
    destruct (Z.eqb_spec a k) as [->|]; [contradiction | ring].
Qed.

Lemma py_range_NoDup (a b : Z) : List.NoDup (py_range a b).
Proof. apply NoDup_ListNoDup, NoDup_seqZ. Qed.

Lemma delta_sym (a b : Z) : delta a b = delta b a.
Proof. unfold delta. rewrite Z.eqb_sym. reflexivity. Qed.

(** The identity matrix is its own inverse. *)
Lemma inverse_identity (n : Z) : inverse n delta delta.
Proof.
  intros a b Ha Hb.
  rewrite sumZ_delta_l; [reflexivity | apply py_range_NoDup|].
  apply elem_of_py_range. lia.
Qed.

(** Subtracting [c] times row [j] from row [i] on the left and adding [c]
    times column [i] to column [j] on the right keeps the product. *)
Lemma inverse_row_operation (n c i j : Z) (MA MB : Z -> Z -> Z) :
  1 <= i <= n -> 1 <= j <= n -> i <> j ->
  inverse n MA MB ->
  inverse n (fun a k => if a =? i then MA i k - c * MA j k else MA a k)
            (fun k b => if b =? j then MB k j + c * MB k i else MB k b).
Proof.
  intros Hi Hj Hij Hinv a b Ha Hb.
  pose proof (Hinv a b Ha Hb) as Hab.
  pose proof (Hinv i i Hi Hi) as Hii. pose proof (Hinv i j Hi Hj) as Hij'.
  pose proof (Hinv j i Hj Hi) as Hji. pose proof (Hinv j j Hj Hj) as Hjj.
  pose proof (Hinv i b Hi Hb) as Hib. pose proof (Hinv j b Hj Hb) as Hjb.
  pose proof (Hinv a i Ha Hi) as Hai. pose proof (Hinv a j Ha Hj) as Haj.
  unfold delta in *.
  destruct (Z.eqb_spec a i) as [->|Hai']; destruct (Z.eqb_spec b j) as [->|Hbj'].
  - assert (Hk : forall k,
              (MA i k - c * MA j k) * (MB k j + c * MB k i) =
              (MA i k * MB k j + c * (MA i k * MB k i))
              + ((- c) * (MA j k * MB k j) + (- (c * c)) * (MA j k * MB k i)))
      by (intros; ring).
    rewrite (sumZ_ext _ _ _ (fun k _ => Hk k)).
    rewrite !sumZ_add, !sumZ_scale, Hii, Hij', Hji, Hjj.
    rewrite Z.eqb_refl in *.
    destruct (Z.eqb_spec i j); [contradiction|].
    destruct (Z.eqb_spec j i); [congruence|]. rewrite ?Z.eqb_refl. cbv iota. ring.
  - assert (Hk : forall k,
              (MA i k - c * MA j k) * MB k b =
              MA i k * MB k b + (- c) * (MA j k * MB k b)) by (intros; ring).
    rewrite (sumZ_ext _ _ _ (fun k _ => Hk k)).
    rewrite sumZ_add, sumZ_scale, Hib, Hjb.
    destruct (Z.eqb_spec j b); [congruence|]. cbv iota. ring.
  - assert (Hk : forall k,
              MA a k * (MB k j + c * MB k i) =
              MA a k * MB k j + c * (MA a k * MB k i)) by (intros; ring).
    rewrite (sumZ_ext _ _ _ (fun k _ => Hk k)).
    rewrite sumZ_add, sumZ_scale, Hai, Haj.
    destruct (Z.eqb_spec a i); [contradiction|]. cbv iota. ring.
  - exact Hab.
Qed.

Lemma exchange_range (n m a : Z) :
  m = -1 \/ 1 <= m <= n - 1 -> 1 <= a <= n -> 1 <= exchange m a <= n.
Proof.
  intros Hm Ha. unfold exchange.
  destruct (Z.eqb_spec a m); [lia|]. destruct (Z.eqb_spec a (m + 1)); lia.
Qed.

Lemma exchange_delta (m a b : Z) : delta (exchange m a) (exchange m b) = delta a b.
Proof.
  unfold delta, exchange.
  destruct (Z.eqb_spec a m), (Z.eqb_spec b m), (Z.eqb_spec a (m + 1)),
    (Z.eqb_spec b (m + 1)), (Z.eqb_spec a b); subst;
    repeat match goal with |- context [?u =? ?v] => destruct (Z.eqb_spec u v) end;
    try reflexivity; lia.
Qed.

(** Exchanging two rows on the left and the same two columns on the right
    keeps the product. *)
Lemma inverse_exchange (n m : Z) (MA MB : Z -> Z -> Z) :
  m = -1 \/ 1 <= m <= n - 1 ->
  inverse n MA MB ->
  inverse n (fun a k => MA (exchange m a) k) (fun k b => MB k (exchange m b)).
Proof.
  intros Hm Hinv a b Ha Hb.
  rewrite (Hinv _ _ (exchange_range n m a Hm Ha) (exchange_range n m b Hm Hb)).
  apply exchange_delta.
Qed.

(** *** What the loops do to the dictionaries *)

Lemma dict_get_Some (d : gmap (Z * Z) Z) (i j v : Z) :
  dict_get d i j = Ret v <-> d !! (i, j) = Some v.
Proof.
  unfold dict_get. destruct (d !! (i, j)); split; intros Hd; congruence.
Qed.

Lemma for_invariant {I S : Type} (Inv : S -> Prop) (l : list I)
    (body : I -> S -> res S) :
  (forall i s s', In i l -> Inv s -> body i s = Ret s' -> Inv s') ->
  forall s s', Inv s -> for_ l body s = Ret s' -> Inv s'.
Proof.
  induction l as [|i l IH]; intros Hbody s s' Hs Hf; simpl in Hf.
  - injection Hf as <-. exact Hs.
  - apply bind_Ret_inv in Hf as (s1 & H1 & Hf).
    apply (IH (fun j t t' Hj => Hbody j t t' (or_intror Hj)) s1 s'); [|exact Hf].
    apply (Hbody i s s1 (or_introl eq_refl) Hs H1).
Qed.

Lemma for_break_invariant {I S : Type} (Inv : S -> Prop) (l : list I)
    (body : I -> S -> res (ctl S)) :
  (forall i s c, In i l -> Inv s -> body i s = Ret c ->
                 match c with
                 | Next s' => Inv s'
                 | Break s' => Inv s'
                 end) ->
  forall s s', Inv s -> for_break l body s = Ret s' -> Inv s'.
Proof.
  induction l as [|i l IH]; intros Hbody s s' Hs Hf; simpl in Hf.
  - injection Hf as <-. exact Hs.
  - apply bind_Ret_inv in Hf as (c & Hc & Hf).
    pose proof (Hbody i s c (or_introl eq_refl) Hs Hc) as Hpost.
    destruct c as [s1|s1].
    + apply (IH (fun j t c' Hj => Hbody j t c' (or_intror Hj)) s1 s' Hpost Hf).
    + injection Hf as <-. exact Hpost.
Qed.

(** The loop over [k] of a row operation, on [A] and [B] together. *)
Lemma row_operation_loop (prec t i j : Z) (l : list Z)
    (A0 B0 A' B' : gmap (Z * Z) Z) :
  i <> j -> List.NoDup l ->
  for_ l (fun k AB =>
            let '(A, B) := AB in
            aik ← dict_get A i k;
            ajk ← dict_get A j k;
            let A := dict_set A i k (aik - Z.shiftr (t * ajk) prec) in
            bkj ← dict_get B k j;
            bki ← dict_get B k i;
            let B := dict_set B k j (bkj + Z.shiftr (t * bki) prec) in
            Ret (A, B)) (A0, B0) = Ret (A', B') ->
  (forall a b, ~ (a = i /\ In b l) -> A' !! (a, b) = A0 !! (a, b)) /\
  (forall b, In b l ->
     exists x y, A0 !! (i, b) = Some x /\ A0 !! (j, b) = Some y /\
                 A' !! (i, b) = Some (x - Z.shiftr (t * y) prec)) /\
  (forall a b, ~ (b = j /\ In a l) -> B' !! (a, b) = B0 !! (a, b)) /\
  (forall a, In a l ->
     exists x y, B0 !! (a, j) = Some x /\ B0 !! (a, i) = Some y /\
                 B' !! (a, j) = Some (x + Z.shiftr (t * y) prec)).
Proof.
  intros Hij Hnd. revert A0 B0.
  induction Hnd as [|k l Hk Hnd IH]; intros A0 B0 Hf; simpl in Hf.
  - injection Hf as <- <-. repeat split; auto; intros ? [].
  - apply bind_Ret_inv in Hf as ([A1 B1] & H1 & Hf).
    apply bind_Ret_inv in H1 as (aik & Haik & H1).
    apply bind_Ret_inv in H1 as (ajk & Hajk & H1).
    apply bind_Ret_inv in H1 as (bkj & Hbkj & H1).
    apply bind_Ret_inv in H1 as (bki & Hbki & H1).
    injection H1 as <- <-.
    apply dict_get_Some in Haik, Hajk, Hbkj, Hbki.
    destruct (IH _ _ Hf) as (HA1 & HA2 & HB1 & HB2). clear IH Hf.
    unfold dict_set in *.
    repeat split.
    + intros a b Hab. rewrite HA1 by (intros [-> Hb]; apply Hab; simpl; auto).
      apply lookup_insert_ne. intros [= -> ->]. apply Hab. simpl. auto.
    + intros b [<-|Hb].
      * exists aik, ajk. split; [exact Haik|]. split; [exact Hajk|].
        rewrite HA1 by (intros [_ Hkl]; contradiction).
        apply lookup_insert_eq.
      * destruct (HA2 b Hb) as (x & y & Hx & Hy & Hxy).
        exists x, y.
        rewrite lookup_insert_ne in Hx by (intros [= ->]; contradiction).
        rewrite lookup_insert_ne in Hy by (intros [= -> ?]; contradiction).
        auto.
    + intros a b Hab. rewrite HB1 by (intros [-> Ha]; apply Hab; simpl; auto).
      apply lookup_insert_ne. intros [= -> ->]. apply Hab. simpl. auto.
    + intros a [<-|Ha].
      * exists bkj, bki. split; [exact Hbkj|]. split; [exact Hbki|].
        rewrite HB1 by (intros [_ Hkl]; contradiction).
        apply lookup_insert_eq.
      * destruct (HB2 a Ha) as (x & y & Hx & Hy & Hxy).
        exists x, y.
        rewrite lookup_insert_ne in Hx by (intros [= ->]; contradiction).
        rewrite lookup_insert_ne in Hy by (intros [= ? ->]; contradiction).
        auto.
Qed.

Lemma shiftr_scaled (prec c m : Z) :
  0 <= prec -> Z.shiftr (c * 2 ^ prec * (m * 2 ^ prec)) prec = c * m * 2 ^ prec.
Proof.
  intros Hp. rewrite Z.shiftr_div_pow2 by exact Hp.
  replace (c * 2 ^ prec * (m * 2 ^ prec)) with (c * m * 2 ^ prec * 2 ^ prec) by ring.
  apply Z.div_mul. apply Z.pow_nonzero; lia.
Qed.

(** A row operation with an integer multiplier keeps [A] and [B] inverse
    integer matrices. *)
Lemma reduce_apply_unimodular (prec n c i j : Z) (st st' : pslq_state) :
  0 <= prec -> 1 <= i <= n -> 1 <= j <= n -> i <> j ->
  reduce_apply prec n (c * 2 ^ prec) i j st = Ret st' ->
  unimodular prec n st -> unimodular prec n st'.
Proof.
  intros Hp Hi Hj Hij Hr (MA & MB & HA & HB & Hinv).
  unfold reduce_apply in Hr.
  apply bind_Ret_inv in Hr as (yj & _ & Hr).
  apply bind_Ret_inv in Hr as (yi & _ & Hr).
  apply bind_Ret_inv in Hr as (y' & _ & Hr).
  apply bind_Ret_inv in Hr as (H' & _ & Hr).
  apply bind_Ret_inv in Hr as ([A' B'] & Hloop & Hr).
  injection Hr as <-. simpl.
  apply row_operation_loop in Hloop as (HA1 & HA2 & HB1 & HB2);
    [|exact Hij|apply py_range_NoDup].
  exists (fun a k => if a =? i then MA i k - c * MA j k else MA a k),
         (fun k b => if b =? j then MB k j + c * MB k i else MB k b).
  split; [|split; [|apply inverse_row_operation; assumption]].
  - intros a b Ha Hb. simpl.
    destruct (Z.eqb_spec a i) as [->|Hai].
    + destruct (HA2 b) as (x & y & Hx & Hy & ->); [apply elem_of_py_range; lia|].
      rewrite (HA i b Hi Hb) in Hx. rewrite (HA j b Hj Hb) in Hy.
      injection Hx as <-. injection Hy as <-.
      rewrite shiftr_scaled by exact Hp. f_equal. ring.
    + rewrite HA1 by (intros [? _]; contradiction). apply HA; assumption.
  - intros a b Ha Hb. simpl.
    destruct (Z.eqb_spec b j) as [->|Hbj].
    + destruct (HB2 a) as (x & y & Hx & Hy & ->); [apply elem_of_py_range; lia|].
      rewrite (HB a j Ha Hj) in Hx. rewrite (HB a i Ha Hi) in Hy.
      injection Hx as <-. injection Hy as <-.
      rewrite shiftr_scaled by exact Hp. f_equal. ring.
    + rewrite HB1 by (intros [? _]; contradiction). apply HB; assumption.
Qed.

Lemma foldl_Raise {A B : Type} (f : res A -> B -> res A) (e : exn) (l : list B) :
  (forall b, f (Raise e) b = Raise e) -> foldl f (Raise e) l = Raise e.
Proof. intros Hf. induction l as [|b l IH]; simpl; [reflexivity|]. rewrite Hf. exact IH. Qed.

(** The exchange of the values at the keys [f i] and [g i], for [i] in
    [cols]. *)
Lemma dict_swap_lookup (f g : Z -> Z * Z) (cols : list Z) (d d' : gmap (Z * Z) Z) :
  (forall i i', f i <> g i') ->
  (forall i i', f i = f i' -> i = i') ->
  (forall i i', g i = g i' -> i = i') ->
  List.NoDup cols ->
  dict_swap (map (fun i => (f i, g i)) cols) d = Ret d' ->
  (forall i, In i cols -> d' !! f i = d !! g i /\ d' !! g i = d !! f i) /\
  (forall key, (forall i, In i cols -> key <> f i /\ key <> g i) ->
               d' !! key = d !! key).
Proof.
  intros Hfg Hf Hg Hnd. revert d.
  induction Hnd as [|k l Hk Hnd IH]; intros d Hs.
  - injection Hs as <-. split; [intros ? []|auto].
  - unfold dict_swap in Hs. simpl in Hs.
    destruct (dict_get d (g k).1 (g k).2) as [vb|e] eqn:Hvb.
    2:{ simpl in Hs. rewrite foldl_Raise in Hs by reflexivity. discriminate. }
    destruct (dict_get d (f k).1 (f k).2) as [va|e] eqn:Hva.
    2:{ simpl in Hs. rewrite foldl_Raise in Hs by reflexivity. discriminate. }
    simpl in Hs.
    apply dict_get_Some in Hvb, Hva.
    rewrite <- surjective_pairing in Hvb, Hva.
    destruct (IH _ Hs) as [Hsw Hother]. clear IH Hs.
    unfold dict_set in *. rewrite <- !surjective_pairing in *.
    split.
    + intros i [<-|Hi].
      * split.
        -- rewrite Hother.
           ++ rewrite lookup_insert_ne by (apply not_eq_sym, Hfg).
              rewrite lookup_insert_eq. congruence.
           ++ intros i Hi. split; [|apply Hfg].
              intros E. apply Hf in E. subst. contradiction.
        -- rewrite Hother.
           ++ rewrite lookup_insert_eq. congruence.
           ++ intros i Hi. split; [apply not_eq_sym, Hfg|].
              intros E. apply Hg in E. subst. contradiction.
      * destruct (Hsw i Hi) as [H1 H2].
        rewrite H1, H2.
        assert (Hik : i <> k) by (intros ->; contradiction).
        split.
        -- rewrite !lookup_insert_ne; [reflexivity| |].
           ++ apply Hfg.
           ++ intros E. apply Hg in E. congruence.
        -- rewrite !lookup_insert_ne; [reflexivity| |].
           ++ intros E. apply Hf in E. congruence.
           ++ apply not_eq_sym, Hfg.
    + intros key Hkey. rewrite Hother by (intros i Hi; apply Hkey; right; exact Hi).
      destruct (Hkey k (or_introl eq_refl)) as [H1 H2].
      rewrite !lookup_insert_ne; auto.
Qed.

Lemma unimodular_matrices (prec n : Z) (st st' : pslq_state) :
  st_A st' = st_A st -> st_B st' = st_B st ->
  unimodular prec n st -> unimodular prec n st'.
Proof. unfold unimodular. intros -> ->. auto. Qed.

Lemma pivot_range (sq : Z -> Z -> Z) (prec n : Z) (H : gmap (Z * Z) Z) (m sz : Z) :
  pivot sq prec n H = Ret (m, sz) -> m = -1 \/ 1 <= m <= n - 1.
Proof.
  unfold pivot. intros Hp.
  apply (for_invariant (fun mz : Z * Z => mz.1 = -1 \/ 1 <= mz.1 <= n - 1)
           _ _) in Hp; [exact Hp| |left; reflexivity].
  intros i mz mz' Hi Hmz Hb.
  apply bind_Ret_inv in Hb as (h & _ & Hb). injection Hb as <-.
  apply elem_of_py_range in Hi.
  destruct (_ <? _); [right; simpl; lia | exact Hmz].
Qed.

Lemma swap_rows_unimodular (prec n m : Z) (st st' : pslq_state) :
  m = -1 \/ 1 <= m <= n - 1 ->
  swap_rows n m st = Ret st' ->
  unimodular prec n st -> unimodular prec n st'.
Proof.
  intros Hm Hs (MA & MB & HA & HB & Hinv). unfold swap_rows in Hs.
  apply bind_Ret_inv in Hs as (a & _ & Hs).
  apply bind_Ret_inv in Hs as (b & _ & Hs).
  apply bind_Ret_inv in Hs as (y1 & _ & Hs).
  apply bind_Ret_inv in Hs as (y2 & _ & Hs).
  apply bind_Ret_inv in Hs as (H' & _ & Hs).
  apply bind_Ret_inv in Hs as (A' & HA' & Hs).
  apply bind_Ret_inv in Hs as (B' & HB' & Hs).
  injection Hs as <-.
  apply (dict_swap_lookup (fun i => (m, i)) (fun i => (m + 1, i))) in HA'
    as [HAs HAo];
    [|intros i i' [= ? ?]; lia|intros i i' [= ?]; assumption
     |intros i i' [= ?]; assumption|apply py_range_NoDup].
  apply (dict_swap_lookup (fun i => (i, m)) (fun i => (i, m + 1))) in HB'
    as [HBs HBo];
    [|intros i i' [= ? ?]; lia|intros i i' [= ?]; assumption
     |intros i i' [= ?]; assumption|apply py_range_NoDup].
  exists (fun a k => MA (exchange m a) k), (fun k b => MB k (exchange m b)).
  split; [|split; [|apply inverse_exchange; assumption]]; simpl.
  - intros r c Hr Hc. unfold exchange.
    assert (Hin : In c (py_range 1 (n + 1))) by (apply elem_of_py_range; lia).
    destruct (Z.eqb_spec r m) as [->|Hrm].
    + rewrite (proj1 (HAs c Hin)). apply HA; lia.
    + destruct (Z.eqb_spec r (m + 1)) as [->|Hrm1].
      * rewrite (proj2 (HAs c Hin)). apply HA; lia.
      * rewrite HAo; [apply HA; assumption|].
        intros i _. split; intros [= ? ?]; contradiction.
  - intros r c Hr Hc. unfold exchange.
    assert (Hin : In r (py_range 1 (n + 1))) by (apply elem_of_py_range; lia).
    destruct (Z.eqb_spec c m) as [->|Hcm].
    + rewrite (proj1 (HBs r Hin)). apply HB; lia.
    + destruct (Z.eqb_spec c (m + 1)) as [->|Hcm1].
      * rewrite (proj2 (HBs r Hin)). apply HB; lia.
      * rewrite HBo; [apply HB; assumption|].
        intros i _. split; intros [= ? ?]; contradiction.
Qed.

Lemma reduce_quotient_scaled (prec : Z) (st : pslq_state) (i j t : Z) :
  0 <= prec -> reduce_quotient prec st i j = Ret t -> exists c, t = c * 2 ^ prec.
Proof.
  intros Hp Hq. unfold reduce_quotient in Hq.
  apply bind_Ret_inv in Hq as (hij & _ & Hq).
  apply bind_Ret_inv in Hq as (hjj & _ & Hq).
  apply bind_Ret_inv in Hq as (q & _ & Hq). injection Hq as <-.
  unfold round_fixed. rewrite Z.shiftl_mul_pow2 by exact Hp. eauto.
Qed.

Lemma elem_of_py_range_down (a j : Z) : In j (py_range_down a) <-> 1 <= j <= a.
Proof.
  unfold py_range_down. rewrite <- list_elem_of_In, elem_of_reverse, elem_of_seqZ. lia.
Qed.

Lemma reduce_rows_unimodular (prec n m : Z) (st st' : pslq_state) :
  0 <= prec ->
  reduce_rows prec n m st = Ret st' ->
  unimodular prec n st -> unimodular prec n st'.
Proof.
  intros Hp Hr Hst. unfold reduce_rows in Hr.
  apply (for_invariant (unimodular prec n) _ _) in Hr; [exact Hr| |exact Hst].
  intros i s s' Hi Hs Hb. apply elem_of_py_range in Hi.
  apply (for_break_invariant (unimodular prec n) _ _) in Hb; [exact Hb| |exact Hs].
  intros j s1 c Hj Hs1 Hc. apply elem_of_py_range_down in Hj.
  destruct (reduce_quotient prec s1 i j) as [t|e] eqn:Hq.
  - apply bind_Ret_inv in Hc as (s2 & Ha & Hc). injection Hc as <-.
    destruct (reduce_quotient_scaled _ _ _ _ _ Hp Hq) as [c ->].
    apply (reduce_apply_unimodular prec n c i j s1 s2); auto; lia.
  - destruct e; try discriminate. injection Hc as <-. exact Hs1.
Qed.

Lemma init_reduce_unimodular (prec n : Z) (st st' : pslq_state) :
  0 <= prec ->
  init_reduce prec n st = Ret st' ->
  unimodular prec n st -> unimodular prec n st'.
Proof.
  intros Hp Hr Hst. unfold init_reduce in Hr.
  apply (for_invariant (unimodular prec n) _ _) in Hr; [exact Hr| |exact Hst].
  intros i s s' Hi Hs Hb. apply elem_of_py_range in Hi.
  apply (for_invariant (unimodular prec n) _ _) in Hb; [exact Hb| |exact Hs].
  intros j s1 s2 Hj Hs1 Hc. apply elem_of_py_range_down in Hj.
  apply bind_Ret_inv in Hc as (t & Hq & Ha).
  destruct (reduce_quotient_scaled _ _ _ _ _ Hp Hq) as [c ->].
  apply (reduce_apply_unimodular prec n c i j s1 s2); auto; lia.
Qed.

Lemma reduce_pass_unimodular (sq : Z -> Z -> Z) (prec n : Z) (st st' : pslq_state) :
  0 <= prec ->
  reduce_pass sq prec n st = Ret (Some st') ->
  unimodular prec n st -> unimodular prec n st'.
Proof.
  intros Hp Hr Hst. unfold reduce_pass in Hr.
  apply bind_Ret_inv in Hr as ([m sz] & Hpiv & Hr). simpl in Hr.
  apply pivot_range in Hpiv.
  apply bind_Ret_inv in Hr as (st1 & Hsw & Hr).
  apply (swap_rows_unimodular prec) in Hsw; [|exact Hpiv|exact Hst].
  destruct (m <=? n - 2).
  - apply bind_Ret_inv in Hr as (t0 & _ & Hr).
    destruct (t0 =? 0); [discriminate|].
    apply bind_Ret_inv in Hr as (H' & _ & Hr).
    apply bind_Ret_inv in Hr as (st2 & Hred & Hr). injection Hr as <-.
    apply (reduce_rows_unimodular _ _ _ _ _ Hp Hred).
    apply (unimodular_matrices prec n st1); auto.
  - apply bind_Ret_inv in Hr as (st2 & Hred & Hr). injection Hr as <-.
    apply (reduce_rows_unimodular _ _ _ _ _ Hp Hred Hsw).
Qed.

Lemma after_passes_unimodular (sq : Z -> Z -> Z) (prec n eps : Z) (k : nat)
    (st0 st : pslq_state) :
  0 <= prec ->
  after_passes sq prec n eps k st0 = Some st ->
  unimodular prec n st0 -> unimodular prec n st.
Proof.
  intros Hp. revert st0. induction k as [|k IH]; intros st0 Hk Hst0; simpl in Hk.
  - injection Hk as <-. exact Hst0.
  - destruct (pslq_iteration sq prec n eps st0) as [[st1| |vec]|e] eqn:Hit;
      try discriminate.
    apply (IH st1 Hk).
    unfold pslq_iteration in Hit.
    apply bind_Ret_inv in Hit as (o & Ho & Hit).
    destruct o as [st1'|]; [|discriminate].
    apply bind_Ret_inv in Hit as (c & _ & Hit).
    destruct c; [discriminate|]. injection Hit as <-.
    apply (reduce_pass_unimodular _ _ _ _ _ Hp Ho Hst0).
Qed.

(** Step 1 of the initialization leaves the identity in [A] and [B]. *)
Lemma init_step1_identity (prec n : Z) :
  0 <= prec ->
  represents prec n (st_A (init_step1 prec n)) delta /\
  represents prec n (st_B (init_step1 prec n)) delta.
Proof.
  intros Hp. unfold init_step1.
  set (step := fun (i : Z) (st : pslq_state) (j : Z) =>
         let v := Z.shiftl (bool_to_Z (i =? j)) prec in
         mkState (st_y st) (dict_set (st_H st) i j 0)
                 (dict_set (st_A st) i j v) (dict_set (st_B st) i j v)).
  assert (Hinner : forall i L, List.NoDup L -> forall st,
            (forall b, In b L ->
               st_A (foldl (step i) st L) !! (i, b) = Some (delta i b * 2 ^ prec) /\
               st_B (foldl (step i) st L) !! (i, b) = Some (delta i b * 2 ^ prec)) /\
            (forall a b, a <> i ->
               st_A (foldl (step i) st L) !! (a, b) = st_A st !! (a, b) /\
               st_B (foldl (step i) st L) !! (a, b) = st_B st !! (a, b))).
  { intros i L HL. induction HL as [|j L Hj HL IH]; intros st; simpl.
    - split; [intros ? []|auto].
    - destruct (IH (step i st j)) as [Hin Hout]. split.
      + intros b [<-|Hb]; [|apply Hin, Hb].
        assert (Hkeep : forall st',
                  st_A (foldl (step i) st' L) !! (i, j) = st_A st' !! (i, j) /\
                  st_B (foldl (step i) st' L) !! (i, j) = st_B st' !! (i, j)).
        { clear -Hj. induction L as [|k L IHL]; intros st'; simpl; [auto|].
          destruct (IHL ltac:(intros HjL; apply Hj; right; exact HjL) (step i st' k))
            as [HA HB].
          rewrite HA, HB. unfold step, dict_set. simpl.
          rewrite !lookup_insert_ne; [auto| |];
            intros [= ->]; apply Hj; left; reflexivity. }
        destruct (Hkeep (step i st j)) as [-> ->].
        unfold step, dict_set. simpl. rewrite !lookup_insert_eq.
        rewrite Z.shiftl_mul_pow2 by exact Hp. unfold delta, bool_to_Z. auto.
      + intros a b Ha. destruct (Hout a b Ha) as [-> ->].
        unfold step, dict_set. simpl.
        rewrite !lookup_insert_ne; [auto| |]; intros [= -> _]; contradiction. }
  assert (Houter : forall L1, List.NoDup L1 -> forall st a b,
            In a L1 -> In b (py_range 1 (n + 1)) ->
            st_A (foldl (fun st i => foldl (step i) st (py_range 1 (n + 1))) st L1)
              !! (a, b) = Some (delta a b * 2 ^ prec) /\
            st_B (foldl (fun st i => foldl (step i) st (py_range 1 (n + 1))) st L1)
              !! (a, b) = Some (delta a b * 2 ^ prec)).
  { intros L1 HL1. induction HL1 as [|i L1 Hi HL1 IH]; intros st a b Ha Hb; simpl.
    - contradiction.
    - destruct Ha as [<-|Ha]; [|apply IH; assumption].
      assert (Hkeep : forall st',
                st_A (foldl (fun st i => foldl (step i) st (py_range 1 (n + 1))) st' L1)
                  !! (i, b) = st_A st' !! (i, b) /\
                st_B (foldl (fun st i => foldl (step i) st (py_range 1 (n + 1))) st' L1)
                  !! (i, b) = st_B st' !! (i, b)).
      { clear -Hi Hinner. induction L1 as [|k L1 IHL]; intros st'; simpl; [auto|].
        destruct (IHL ltac:(intros HiL; apply Hi; right; exact HiL)
                    (foldl (step k) st' (py_range 1 (n + 1)))) as [HA HB].
        rewrite HA, HB.
        apply (Hinner k _ (py_range_NoDup _ _) st').
        intros ->. apply Hi. left. reflexivity. }
      destruct (Hkeep (foldl (step i) st (py_range 1 (n + 1)))) as [-> ->].
      apply (Hinner i _ (py_range_NoDup _ _) st). exact Hb. }
  split; intros a b Ha Hb;
    apply (Houter _ (py_range_NoDup _ _)); apply elem_of_py_range; lia.
Qed.

Lemma pslq_init_unimodular (sq : Z -> Z -> Z) (prec n : Z) (x : list pyval)
    (st0 : pslq_state) :
  0 <= prec ->
  pslq_init sq prec n x = Ret st0 -> unimodular prec n st0.
Proof.
  intros Hp Hi. unfold pslq_init in Hi.
  apply bind_Ret_inv in Hi as (s & _ & Hi).
  apply bind_Ret_inv in Hi as (ys & _ & Hi).
  apply bind_Ret_inv in Hi as (H' & _ & Hi).
  apply (init_reduce_unimodular _ _ _ _ Hp Hi).
  destruct (init_step1_identity prec n Hp) as [HA HB].
  exists delta, delta. simpl. split; [exact HA|]. split; [exact HB|].
  apply inverse_identity.
Qed.

Lemma round_fixed_scaled (prec c : Z) :
  0 < prec -> Z.shiftr (round_fixed (c * 2 ^ prec) prec) prec = c.
Proof.
  intros Hp. unfold round_fixed.
  rewrite Z.shiftr_shiftl_l, Z.sub_diag, Z.shiftl_0_r by lia.
  rewrite Z.shiftl_1_l, Z.shiftr_div_pow2 by lia.
  rewrite Z.div_add_l by (apply Z.pow_nonzero; lia).
  rewrite Z.div_small; [ring|].
  split; [apply Z.pow_nonneg; lia|].
  apply Z.pow_lt_mono_r; lia.
Qed.

Lemma dot_map (f g : Z -> Z) (l : list Z) :
  dot (map f l) (map g l) = sumZ l (fun k => f k * g k).
Proof. unfold dot. induction l as [|k l IH]; simpl; [reflexivity | rewrite IH; reflexivity]. Qed.

Lemma dot_divide (d : Z) (u v : list Z) :
  Forall (Z.divide d) v -> (d | dot u v).
Proof.
  intros Hv. revert u. induction Hv as [|y v Hy Hv IH]; intros u.
  - destruct u; apply Z.divide_0_r.
  - destruct u as [|x u]; [apply Z.divide_0_r|].
    unfold dot. simpl. apply Z.divide_add_r; [|apply IH].
    apply Z.divide_mul_r, Hy.
Qed.

Section UnimodularProperties.
Context `{Engine}.

(** throughout a run of [pslq], [A] and [B] hold integers scaled by
    [2^prec] without any rounding, and the integer matrices they hold are
    inverse to each other. *)
Theorem pslq_matrices_unimodular (x : list mpf) (eps : option mpf)
    (prec n epsf : Z) (xf : list pyval) (st0 st : pslq_state) (k : nat) :
  pslq_args x eps = Ret (prec, n, epsf, xf) ->
  pslq_init sqrt_fixed prec n xf = Ret st0 ->
  after_passes sqrt_fixed prec n epsf k st0 = Some st ->
  unimodular prec n st0 /\ unimodular prec n st /\
  forall st', reduce_pass sqrt_fixed prec n st = Ret (Some st') ->
              unimodular prec n st'.
Proof.
  intros Ha Hi Hk.
  assert (Hp : 0 <= prec) by (apply pslq_args_inv in Ha; lia).
  pose proof (pslq_init_unimodular _ _ _ _ _ Hp Hi) as H0.
  pose proof (after_passes_unimodular _ _ _ _ _ _ _ Hp Hk H0) as Hst.
  split; [exact H0|]. split; [exact Hst|].
  intros st' Hr. apply (reduce_pass_unimodular _ _ _ _ _ Hp Hr Hst).
Qed.

(** the coefficients [pslq] returns are coprime: some integers [row]
    combine them to 1.  So the returned vector is never the zero vector,
    and the only integers dividing all its entries are 1 and -1. *)
Theorem pslq_result_primitive (x : list mpf) (eps : option mpf) (vec : list Z) :
  pslq x eps = Ret (Some vec) ->
  (exists row, length row = length vec /\ dot row vec = 1) /\
  (exists v, In v vec /\ v <> 0) /\
  (forall d, Forall (Z.divide d) vec -> d = 1 \/ d = -1).
Proof.
  intros Hr.
  assert (Hrow : exists row, length row = length vec /\ dot row vec = 1).
  { unfold pslq in Hr.
    apply bind_Ret_inv in Hr as ([[[prec n] epsf] xf] & Ha & Hr).
    unfold pslq_fixed in Hr.
    apply bind_Ret_inv in Hr as (st0 & Hi & Hl).
    apply loop_found in Hl as (k & st & Hk & Hst & Hp).
    apply pass_found in Hp as (st' & Hred & Hc).
    apply check_from_found in Hc as (i & yi & Hin & _ & _ & Hcand & _).
    apply elem_of_py_range in Hin. apply candidate_entries in Hcand.
    assert (Hp : 0 < prec) by (apply pslq_args_inv in Ha; lia).
    assert (Hp0 : 0 <= prec) by lia.
    pose proof (pslq_init_unimodular _ _ _ _ _ Hp0 Hi) as H0.
    pose proof (after_passes_unimodular _ _ _ _ _ _ _ Hp0 Hst H0) as Hu.
    destruct (reduce_pass_unimodular _ _ _ _ _ Hp0 Hred Hu)
      as (MA & MB & _ & HB & Hinv).
    assert (Hvec : vec = map (fun j => MB j i) (py_range 1 (n + 1))).
    { assert (Hran : forall j, In j (py_range 1 (n + 1)) -> 1 <= j <= n)
        by (intros j Hj; apply elem_of_py_range in Hj; lia).
      revert Hcand Hran. generalize (py_range 1 (n + 1)). intros l Hcand.
      induction Hcand as [|j v l vec' (b & Hb & ->) Hcand IH]; intros Hran; simpl.
      - reflexivity.
      - assert (Hj : 1 <= j <= n) by (apply Hran; left; reflexivity).
        rewrite (HB j i Hj) in Hb by lia.
        injection Hb as <-. rewrite round_fixed_scaled by exact Hp.
        f_equal. apply IH. intros j' Hj'. apply Hran. right. exact Hj'. }
    exists (map (fun k => MA i k) (py_range 1 (n + 1))).
    split; [rewrite Hvec, !length_map; reflexivity|].
    rewrite Hvec, dot_map. rewrite (Hinv i i) by lia.
    unfold delta. rewrite Z.eqb_refl. reflexivity. }
  split; [exact Hrow|].
  destruct Hrow as (row & _ & Hdot).
  assert (Hdiv : forall d, Forall (Z.divide d) vec -> d = 1 \/ d = -1).
  { intros d Hd. apply (dot_divide d row) in Hd. rewrite Hdot in Hd.
    apply Z.divide_1_r in Hd. exact Hd. }
  split; [|exact Hdiv].
  destruct (decide (Forall (fun v => v = 0) vec)) as [Hall|Hex].
  - exfalso. destruct (Hdiv 0); [|lia|lia].
    eapply Forall_impl; [exact Hall|]. simpl. intros v ->. apply Z.divide_0_r.
  - apply not_Forall_Exists in Hex; [|intros v; apply _].
    apply List.Exists_exists in Hex. exact Hex.
Qed.

End UnimodularProperties.

(** ** The exceptions of [pslq] *)

Lemma outcome_bind {A B : Type} (E : exn -> Prop) (P : A -> Prop) (Q : B -> Prop)
    (m : res A) (f : A -> res B) :
  outcome E P m -> (forall a, P a -> outcome E Q (f a)) -> outcome E Q (m ≫= f).
Proof. destruct m as [a|e]; simpl; intros Hm Hf; [apply Hf, Hm | exact Hm]. Qed.

Lemma outcome_impl {A : Type} (E E' : exn -> Prop) (P Q : A -> Prop) (r : res A) :
  outcome E P r -> (forall e, E e -> E' e) -> (forall a, P a -> Q a) ->
  outcome E' Q r.
Proof. destruct r as [a|e]; simpl; auto. Qed.

Lemma outcome_for {I S : Type} (E : exn -> Prop) (Inv : S -> Prop) (l : list I)
    (body : I -> S -> res S) :
  (forall i s, In i l -> Inv s -> outcome E Inv (body i s)) ->
  forall s, Inv s -> outcome E Inv (for_ l body s).
Proof.
  induction l as [|i l IH]; intros Hbody s Hs; simpl; [exact Hs|].
  apply (outcome_bind E Inv).
  - apply Hbody; [left; reflexivity | exact Hs].
  - intros s' Hs'. apply IH; [|exact Hs'].
    intros j t Hj. apply Hbody. right. exact Hj.
Qed.

Lemma outcome_for_break {I S : Type} (E : exn -> Prop) (Inv : S -> Prop) (l : list I)
    (body : I -> S -> res (ctl S)) :
  (forall i s, In i l -> Inv s ->
     outcome E (fun c => match c with Next s' | Break s' => Inv s' end) (body i s)) ->
  forall s, Inv s -> outcome E Inv (for_break l body s).
Proof.
  induction l as [|i l IH]; intros Hbody s Hs; simpl; [exact Hs|].
  apply (outcome_bind E (fun c => match c with Next s' | Break s' => Inv s' end)).
  - apply Hbody; [left; reflexivity | exact Hs].
  - intros [s'|s'] Hs'; [|exact Hs'].
    apply IH; [|exact Hs'].
    intros j t Hj. apply Hbody. right. exact Hj.
Qed.

Lemma py_index_in (n k : Z) (y : list pyval) :
  length y = S (Z.to_nat n) -> 1 <= k <= n ->
  py_index (length y) k = Some (Z.to_nat k).
Proof.
  intros Hl Hk. unfold py_index. rewrite Hl.
  destruct (Z.ltb_spec k 0) as [?|_]; [lia|].
  destruct (Z.leb_spec 0 k) as [_|?]; [|lia].
  destruct (Z.ltb_spec k (Z.of_nat (S (Z.to_nat n)))) as [_|?]; [reflexivity|lia].
Qed.

Lemma list_get_in (n k : Z) (y : list pyval) :
  int_list n y -> 1 <= k <= n -> exists z, list_get y k = Ret (PyInt z).
Proof.
  intros [Hl Hy] Hk. destruct (Hy k Hk) as (z & Hz). exists z.
  unfold list_get. rewrite (py_index_in n k y Hl Hk), Hz. reflexivity.
Qed.

Lemma list_get_int_in (n k : Z) (y : list pyval) :
  int_list n y -> 1 <= k <= n -> exists z, list_get_int y k = Ret z.
Proof.
  intros Hy Hk. destruct (list_get_in n k y Hy Hk) as (z & Hz). exists z.
  unfold list_get_int. rewrite Hz. reflexivity.
Qed.

Lemma list_set_value (n k : Z) (v : pyval) (y : list pyval) :
  length y = S (Z.to_nat n) -> 1 <= k <= n ->
  list_set y k v = Ret (<[Z.to_nat k := v]> y).
Proof.
  intros Hl Hk. unfold list_set. rewrite (py_index_in n k y Hl Hk). reflexivity.
Qed.

Lemma int_list_insert (n k v : Z) (y : list pyval) :
  int_list n y -> 1 <= k <= n -> int_list n (<[Z.to_nat k := PyInt v]> y).
Proof.
  intros [Hl Hy] Hk. split; [rewrite length_insert; exact Hl|].
  intros k' Hk'. destruct (decide (Z.to_nat k = Z.to_nat k')) as [Heq|Hne].
  - exists v. rewrite <- Heq. apply list_lookup_insert_eq. lia.
  - rewrite list_lookup_insert_ne by exact Hne. apply Hy, Hk'.
Qed.

Lemma list_set_in (n k v : Z) (y : list pyval) :
  int_list n y -> 1 <= k <= n ->
  exists y', list_set y k (PyInt v) = Ret y' /\ int_list n y'.
Proof.
  intros Hy Hk. exists (<[Z.to_nat k := PyInt v]> y). split.
  - apply (list_set_value n); [apply Hy | exact Hk].
  - apply int_list_insert; assumption.
Qed.

Lemma dict_get_in (n i j : Z) (d : gmap (Z * Z) Z) :
  full n d -> 1 <= i <= n -> 1 <= j <= n -> exists v, dict_get d i j = Ret v.
Proof.
  intros Hd Hi Hj. destruct (Hd i j Hi Hj) as (v & Hv). exists v.
  unfold dict_get. rewrite Hv. reflexivity.
Qed.

Lemma full_set (n i j v : Z) (d : gmap (Z * Z) Z) :
  full n d -> full n (dict_set d i j v).
Proof.
  intros Hd a b Ha Hb. unfold dict_set.
  apply lookup_insert_is_Some'. right. apply Hd; assumption.
Qed.

Lemma floordiv_outcome (a b : Z) :
  outcome (fun e => e = ZeroDivisionError) (fun _ => True) (floordiv a b).
Proof. unfold floordiv. destruct (b =? 0); simpl; auto. Qed.

Section PslqExceptions.
Variable sq : Z -> Z -> Z.
Variables prec n eps : Z.

Lemma reduce_quotient_outcome (st : pslq_state) (i j : Z) :
  full n (st_H st) -> 1 <= i <= n -> 1 <= j <= n ->
  outcome (fun e => e = ZeroDivisionError) (fun _ => True)
          (reduce_quotient prec st i j).
Proof.
  intros HH Hi Hj. unfold reduce_quotient.
  destruct (dict_get_in n i j _ HH Hi Hj) as (hij & ->). rewrite bind_Ret.
  destruct (dict_get_in n j j _ HH Hj Hj) as (hjj & ->). rewrite bind_Ret.
  apply (outcome_bind _ (fun _ => True)); [apply floordiv_outcome|].
  intros q _. exact I.
Qed.

Lemma reduce_apply_outcome (E : exn -> Prop) (t i j : Z) (st : pslq_state) :
  well_formed n st -> 1 <= i <= n -> 1 <= j <= n ->
  outcome E (well_formed n) (reduce_apply prec n t i j st).
Proof.
  intros (Hy & HH & HA & HB) Hi Hj. unfold reduce_apply.
  destruct (list_get_int_in n j _ Hy Hj) as (yj & ->). rewrite bind_Ret.
  destruct (list_get_int_in n i _ Hy Hi) as (yi & ->). rewrite bind_Ret.
  destruct (list_set_in n j (yj + Z.shiftr (t * yi) prec) _ Hy Hj) as (y' & -> & Hy').
  rewrite bind_Ret.
  apply (outcome_bind E (full n)).
  { apply outcome_for; [|exact HH].
    intros k H Hk HHk. apply elem_of_py_range in Hk.
    destruct (dict_get_in n i k _ HHk Hi ltac:(lia)) as (hik & ->). rewrite bind_Ret.
    destruct (dict_get_in n j k _ HHk Hj ltac:(lia)) as (hjk & ->). rewrite bind_Ret.
    apply full_set, HHk. }
  intros H' HH'.
  apply (outcome_bind E (fun AB : gmap (Z * Z) Z * gmap (Z * Z) Z =>
                           full n AB.1 /\ full n AB.2)).
  { apply outcome_for; [|split; assumption].
    intros k [A B] Hk [HAk HBk]. apply elem_of_py_range in Hk. simpl in HAk, HBk.
    destruct (dict_get_in n i k _ HAk Hi ltac:(lia)) as (aik & ->). rewrite bind_Ret.
    destruct (dict_get_in n j k _ HAk Hj ltac:(lia)) as (ajk & ->). rewrite bind_Ret.
    destruct (dict_get_in n k j _ HBk ltac:(lia) Hj) as (bkj & ->). rewrite bind_Ret.
    destruct (dict_get_in n k i _ HBk ltac:(lia) Hi) as (bki & ->). rewrite bind_Ret.
    split; [apply (full_set n i k _ A HAk) | apply (full_set n k j _ B HBk)]. }
  intros [A B] [HA' HB']. exact (conj Hy' (conj HH' (conj HA' HB'))).
Qed.


Lemma init_reduce_outcome (st : pslq_state) :
  well_formed n st ->
  outcome (fun e => e = ZeroDivisionError) (well_formed n) (init_reduce prec n st).
Proof.
  intros Hst. unfold init_reduce.
  apply outcome_for; [|exact Hst].
  intros i st1 Hi Hst1. apply elem_of_py_range in Hi.
  apply outcome_for; [|exact Hst1].
  intros j st2 Hj Hst2. apply elem_of_py_range_down in Hj.
  apply (outcome_bind _ (fun _ => True)).
  - apply reduce_quotient_outcome; [apply Hst2|lia|lia].
  - intros t _. apply reduce_apply_outcome; [exact Hst2|lia|lia].
Qed.

Lemma init_norms_outcome (E : exn -> Prop) (x : list pyval) :
  0 <= n -> int_list n x -> outcome E (int_list n) (init_norms sq prec n x).
Proof.
  intros Hn Hx. unfold init_norms. apply outcome_for.
  - intros k s Hk Hs. apply elem_of_py_range in Hk.
    apply (outcome_bind E (fun _ => True)).
    + apply outcome_for; [|exact I].
      intros j t Hj _. apply elem_of_py_range in Hj.
      destruct (list_get_int_in n j x Hx ltac:(lia)) as (xj & ->). exact I.
    + intros t _.
      destruct (list_set_in n k (sq t prec) s Hs ltac:(lia)) as (s' & -> & Hs').
      exact Hs'.
  - split; [simpl; rewrite length_replicate; reflexivity|].
    intros k Hk. exists 0.
    replace (Z.to_nat k) with (S (Z.to_nat (k - 1))) by lia. simpl.
    apply lookup_replicate. split; [reflexivity|lia].
Qed.

Lemma init_normalize_outcome (x s : list pyval) :
  1 <= n -> int_list n x -> int_list n s ->
  outcome (fun e => e = ZeroDivisionError)
          (fun ys => int_list n ys.1 /\ int_list n ys.2)
          (init_normalize prec n x s).
Proof.
  intros Hn Hx Hs. unfold init_normalize.
  destruct (list_get_int_in n 1 s Hs ltac:(lia)) as (t & ->). rewrite bind_Ret.
  apply outcome_for; [|split; assumption].
  intros k [y s1] Hk [Hy Hs1]. apply elem_of_py_range in Hk. simpl in Hy, Hs1.
  destruct (list_get_int_in n k x Hx ltac:(lia)) as (xk & ->). rewrite bind_Ret.
  apply (outcome_bind _ (fun _ => True)); [apply floordiv_outcome|]. intros yk _.
  destruct (list_set_in n k yk y Hy ltac:(lia)) as (y' & -> & Hy'). rewrite bind_Ret.
  destruct (list_get_int_in n k s1 Hs1 ltac:(lia)) as (sk & ->). rewrite bind_Ret.
  apply (outcome_bind _ (fun _ => True)); [apply floordiv_outcome|]. intros sk' _.
  destruct (list_set_in n k sk' s1 Hs1 ltac:(lia)) as (s' & -> & Hs'). rewrite bind_Ret.
  split; assumption.
Qed.

Lemma full_foldl_set (f : Z -> Z * Z * Z) (l : list Z) (d : gmap (Z * Z) Z) :
  full n d ->
  full n (foldl (fun d j => dict_set d (f j).1.1 (f j).1.2 (f j).2) d l).
Proof.
  revert d. induction l as [|j l IH]; intros d Hd; simpl; [exact Hd|].
  apply IH, full_set, Hd.
Qed.

Lemma init_H_outcome (y s : list pyval) (H : gmap (Z * Z) Z) :
  int_list n y -> int_list n s -> full n H ->
  outcome (fun e => e = ZeroDivisionError) (full n) (init_H prec n y s H).
Proof.
  intros Hy Hs HH. unfold init_H. apply outcome_for; [|exact HH].
  intros i H1 Hi HH1. apply elem_of_py_range in Hi.
  pose proof (full_foldl_set (fun j => (i, j, 0)) (py_range (i + 1) n) H1 HH1) as HH2.
  simpl in HH2.
  apply (outcome_bind _ (full n)).
  - destruct (i <=? n - 1) eqn:Hle; [|exact HH2].
    apply Z.leb_le in Hle.
    destruct (list_get_int_in n (i + 1) s Hs ltac:(lia)) as (si1 & ->). rewrite bind_Ret.
    destruct (list_get_int_in n i s Hs ltac:(lia)) as (si & ->). rewrite bind_Ret.
    apply (outcome_bind _ (fun _ => True)); [apply floordiv_outcome|]. intros v _.
    apply full_set, HH2.
  - intros H3 HH3. apply outcome_for; [|exact HH3].
    intros j H4 Hj HH4. apply elem_of_py_range in Hj.
    destruct (list_get_int_in n i y Hy ltac:(lia)) as (yi & ->). rewrite bind_Ret.
    destruct (list_get_int_in n j y Hy ltac:(lia)) as (yj & ->). rewrite bind_Ret.
    destruct (list_get_int_in n j s Hs ltac:(lia)) as (sj & ->). rewrite bind_Ret.
    destruct (list_get_int_in n (j + 1) s Hs ltac:(lia)) as (sj1 & ->). rewrite bind_Ret.
    apply (outcome_bind _ (fun _ => True)); [apply floordiv_outcome|]. intros v _.
    apply full_set, HH4.
Qed.


Lemma init_step1_full :
  full n (st_H (init_step1 prec n)) /\ full n (st_A (init_step1 prec n)) /\
  full n (st_B (init_step1 prec n)).
Proof.
  unfold init_step1.
  set (step := fun (i : Z) (st : pslq_state) (j : Z) =>
         let v := Z.shiftl (bool_to_Z (i =? j)) prec in
         mkState (st_y st) (dict_set (st_H st) i j 0)
                 (dict_set (st_A st) i j v) (dict_set (st_B st) i j v)).
  assert (Hstep : forall i j st key,
            has_key key st \/ key = (i, j) -> has_key key (step i st j)).
  { intros i j st key Hk. unfold has_key, step, dict_set. simpl.
    rewrite !lookup_insert_is_Some'. destruct Hk as [(HH & HA & HB)| ->]; auto. }
  assert (Hinner : forall i L st key,
            has_key key st \/ (key.1 = i /\ In key.2 L) ->
            has_key key (foldl (step i) st L)).
  { intros i L. induction L as [|j L IH]; intros st key Hk; simpl.
    - destruct Hk as [Hk|[_ []]]. exact Hk.
    - apply IH. destruct Hk as [Hk|[Hi [Hj|Hj]]].
      + left. apply Hstep. left. exact Hk.
      + left. apply Hstep. right. destruct key as [a b]. simpl in *. congruence.
      + right. split; assumption. }
  assert (Houter : forall L L2 st key,
            has_key key st \/ (In key.1 L2 /\ In key.2 L) ->
            has_key key (foldl (fun st i => foldl (step i) st L) st L2)).
  { intros L L2. induction L2 as [|i L2 IH]; intros st key Hk; simpl.
    - destruct Hk as [Hk|[[] _]]. exact Hk.
    - apply IH. destruct Hk as [Hk|[[Hi|Hi] Hj]].
      + left. apply Hinner. left. exact Hk.
      + left. apply Hinner. right. split; [symmetry; exact Hi | exact Hj].
      + right. split; assumption. }
  assert (Hall : forall a b, 1 <= a <= n -> 1 <= b <= n ->
            has_key (a, b)
              (foldl (fun st i => foldl (step i) st (py_range 1 (n + 1)))
                     (mkState [] ∅ ∅ ∅) (py_range 1 (n + 1)))).
  { intros a b Ha Hb. apply Houter. right. simpl.
    split; apply elem_of_py_range; lia. }
  repeat split; intros a b Ha Hb; apply (Hall a b Ha Hb).
Qed.

Lemma int_list_values (xs : list Z) :
  n = Z.of_nat (length xs) -> int_list n (PyNone :: map PyInt xs).
Proof.
  intros ->. split; [simpl; rewrite length_map; f_equal; lia|].
  intros k Hk.
  replace (Z.to_nat k) with (S (Z.to_nat (k - 1))) by lia. simpl.
  destruct (lookup_lt_is_Some_2 xs (Z.to_nat (k - 1)) ltac:(lia)) as (z & Hz).
  exists z. rewrite list_lookup_fmap, Hz. reflexivity.
Qed.

Lemma pslq_init_outcome (x : list pyval) :
  1 <= n -> int_list n x ->
  outcome (fun e => e = ZeroDivisionError) (well_formed n) (pslq_init sq prec n x).
Proof.
  intros Hn Hx. unfold pslq_init.
  destruct init_step1_full as (HH & HA & HB).
  apply (outcome_bind _ (int_list n)).
  { apply init_norms_outcome; [lia | exact Hx]. }
  intros s Hs.
  apply (outcome_bind _ (fun ys => int_list n ys.1 /\ int_list n ys.2)).
  { apply init_normalize_outcome; assumption. }
  intros ys [Hy Hs'].
  apply (outcome_bind _ (full n)).
  { apply init_H_outcome; assumption. }
  intros H HH'. apply init_reduce_outcome.
  exact (conj Hy (conj HH' (conj HA HB))).
Qed.


Lemma py_range_cons (a b : Z) : a < b -> py_range a b = a :: py_range (a + 1) b.
Proof.
  intros Hab. unfold py_range. rewrite seqZ_cons by lia.
  f_equal. f_equal; lia.
Qed.

Lemma pivot_outcome (E : exn -> Prop) (H : gmap (Z * Z) Z) :
  2 <= n -> 0 <= sq (Z.shiftl 4 prec / 3) prec -> full n H ->
  outcome E (fun mz => 1 <= mz.1 <= n - 1) (pivot sq prec n H).
Proof.
  intros Hn Hg HH. unfold pivot.
  assert (Hsz : forall i h, 0 <= Z.shiftr (sq (Z.shiftl 4 prec / 3) prec ^ i * Z.abs h)
                                          (prec * (i - 1))).
  { intros i h. apply Z.shiftr_nonneg. apply Z.mul_nonneg_nonneg; [|lia].
    apply Z.pow_nonneg. exact Hg. }
  apply (outcome_impl E E (fun mz => 1 <= mz.1 <= n - 1 /\ 0 <= mz.2));
    [|auto|intros mz [Hm _]; exact Hm].
  rewrite (py_range_cons 1 n) by lia.
  change (1 + 1) with 2. simpl for_.
  destruct (dict_get_in n 1 1 H HH ltac:(lia) ltac:(lia)) as (h & ->).
  rewrite !bind_Ret.
  apply outcome_for.
  - intros i mz Hi [Hm Hz]. apply elem_of_py_range in Hi.
    destruct (dict_get_in n i i H HH ltac:(lia) ltac:(lia)) as (h' & ->).
    rewrite bind_Ret. simpl.
    destruct (mz.2 <? _); simpl; [|split; assumption].
    split; [lia | apply Hsz].
  - specialize (Hsz 1 h). simpl.
    destruct (Z.ltb_spec (-1) (Z.shiftr (sq (Z.shiftl 4 prec / 3) prec ^ 1 * Z.abs h)
                                        (prec * (1 - 1)))) as [_|?]; [|lia].
    simpl. split; [lia | exact Hsz].
Qed.

Lemma dict_swap_outcome (E : exn -> Prop) (keys : list ((Z * Z) * (Z * Z)))
    (d : gmap (Z * Z) Z) :
  full n d ->
  (forall ab, In ab keys ->
     (1 <= ab.1.1 <= n /\ 1 <= ab.1.2 <= n) /\
     (1 <= ab.2.1 <= n /\ 1 <= ab.2.2 <= n)) ->
  outcome E (full n) (dict_swap keys d).
Proof.
  intros Hd Hkeys. unfold dict_swap.
  assert (Hr : outcome E (full n) (Ret d)) by exact Hd.
  revert Hr. generalize (Ret d : res (gmap (Z * Z) Z)).
  induction keys as [|ab keys IH]; intros r Hr; simpl; [exact Hr|].
  apply IH; [intros ab' Hab'; apply Hkeys; right; exact Hab'|].
  destruct r as [d1|e]; [|exact Hr]. simpl in Hr. rewrite bind_Ret.
  destruct (Hkeys ab (or_introl eq_refl)) as ((Ha1 & Ha2) & (Hb1 & Hb2)).
  destruct (dict_get_in n _ _ d1 Hr Hb1 Hb2) as (vb & ->). rewrite bind_Ret.
  destruct (dict_get_in n _ _ d1 Hr Ha1 Ha2) as (va & ->). rewrite bind_Ret.
  apply full_set, full_set, Hr.
Qed.

Lemma swap_rows_outcome (E : exn -> Prop) (m : Z) (st : pslq_state) :
  well_formed n st -> 1 <= m <= n - 1 ->
  outcome E (well_formed n) (swap_rows n m st).
Proof.
  intros (Hy & HH & HA & HB) Hm. unfold swap_rows.
  destruct (list_get_in n (m + 1) _ Hy ltac:(lia)) as (a & ->). rewrite bind_Ret.
  destruct (list_get_in n m _ Hy ltac:(lia)) as (b & ->). rewrite bind_Ret.
  destruct (list_set_in n m a _ Hy ltac:(lia)) as (y1 & -> & Hy1). rewrite bind_Ret.
  destruct (list_set_in n (m + 1) b _ Hy1 ltac:(lia)) as (y2 & -> & Hy2).
  rewrite bind_Ret.
  assert (Hrows : forall ab,
            In ab (map (fun i => ((m, i), (m + 1, i))) (py_range 1 (n + 1))) ->
            (1 <= ab.1.1 <= n /\ 1 <= ab.1.2 <= n) /\
            (1 <= ab.2.1 <= n /\ 1 <= ab.2.2 <= n)).
  { intros ab Hab. apply in_map_iff in Hab as (i & <- & Hi).
    apply elem_of_py_range in Hi. simpl. lia. }
  assert (Hcols : forall ab,
            In ab (map (fun i => ((i, m), (i, m + 1))) (py_range 1 (n + 1))) ->
            (1 <= ab.1.1 <= n /\ 1 <= ab.1.2 <= n) /\
            (1 <= ab.2.1 <= n /\ 1 <= ab.2.2 <= n)).
  { intros ab Hab. apply in_map_iff in Hab as (i & <- & Hi).
    apply elem_of_py_range in Hi. simpl. lia. }
  apply (outcome_bind E (full n)); [apply dict_swap_outcome; assumption|].
  intros H' HH'.
  apply (outcome_bind E (full n)); [apply dict_swap_outcome; assumption|].
  intros A' HA'.
  apply (outcome_bind E (full n)); [apply dict_swap_outcome; assumption|].
  intros B' HB'.
  exact (conj Hy2 (conj HH' (conj HA' HB'))).
Qed.

Lemma rotation_norm_outcome (E : exn -> Prop) (m : Z) (H : gmap (Z * Z) Z) :
  full n H -> 1 <= m <= n - 1 ->
  outcome E (fun _ => True) (rotation_norm sq prec m H).
Proof.
  intros HH Hm. unfold rotation_norm.
  destruct (dict_get_in n m m H HH ltac:(lia) ltac:(lia)) as (hmm & ->).
  rewrite bind_Ret.
  destruct (dict_get_in n m (m + 1) H HH ltac:(lia) ltac:(lia)) as (hmm1 & ->).
  exact I.
Qed.

Lemma floordiv_nonzero (a b : Z) : b <> 0 -> floordiv a b = Ret (a / b).
Proof. intros Hb. unfold floordiv. destruct (Z.eqb_spec b 0); [lia|reflexivity]. Qed.

Lemma rotate_outcome (E : exn -> Prop) (m t0 : Z) (H : gmap (Z * Z) Z) :
  full n H -> 1 <= m <= n - 1 -> t0 <> 0 ->
  outcome E (full n) (rotate prec n m t0 H).
Proof.
  intros HH Hm Ht. unfold rotate.
  destruct (dict_get_in n m m H HH ltac:(lia) ltac:(lia)) as (hmm & ->).
  rewrite bind_Ret, (floordiv_nonzero _ t0 Ht), bind_Ret.
  destruct (dict_get_in n m (m + 1) H HH ltac:(lia) ltac:(lia)) as (hmm1 & ->).
  rewrite bind_Ret, (floordiv_nonzero _ t0 Ht), bind_Ret.
  apply outcome_for; [|exact HH].
  intros i H1 Hi HH1. apply elem_of_py_range in Hi.
  destruct (dict_get_in n i m H1 HH1 ltac:(lia) ltac:(lia)) as (t3 & ->).
  rewrite bind_Ret.
  destruct (dict_get_in n i (m + 1) H1 HH1 ltac:(lia) ltac:(lia)) as (t4 & ->).
  rewrite bind_Ret.
  apply full_set, full_set, HH1.
Qed.

Lemma reduce_rows_outcome (E : exn -> Prop) (m : Z) (st : pslq_state) :
  well_formed n st -> 1 <= m ->
  outcome E (well_formed n) (reduce_rows prec n m st).
Proof.
  intros Hst Hm. unfold reduce_rows.
  apply outcome_for; [|exact Hst].
  intros i st1 Hi Hst1. apply elem_of_py_range in Hi.
  apply outcome_for_break; [|exact Hst1].
  intros j st2 Hj Hst2. apply elem_of_py_range_down in Hj.
  pose proof (reduce_quotient_outcome st2 i j (proj1 (proj2 Hst2))
                ltac:(lia) ltac:(lia)) as Hq.
  destruct (reduce_quotient prec st2 i j) as [t|e]; simpl in Hq.
  - apply (outcome_bind E (well_formed n)).
    + apply reduce_apply_outcome; [exact Hst2|lia|lia].
    + intros st3 Hst3. exact Hst3.
  - subst e. exact Hst2.
Qed.

Lemma reduce_pass_outcome (E : exn -> Prop) (st : pslq_state) :
  2 <= n -> 0 <= sq (Z.shiftl 4 prec / 3) prec -> well_formed n st ->
  outcome E (fun o => match o with Some st' => well_formed n st' | None => True end)
          (reduce_pass sq prec n st).
Proof.
  intros Hn Hg Hst. unfold reduce_pass.
  apply (outcome_bind E (fun mz => 1 <= mz.1 <= n - 1)).
  { apply pivot_outcome; [exact Hn | exact Hg | apply Hst]. }
  intros [m sz] Hm. simpl in Hm. cbv zeta. simpl fst.
  apply (outcome_bind E (well_formed n)).
  { apply swap_rows_outcome; assumption. }
  intros st1 Hst1.
  destruct (m <=? n - 2).
  - apply (outcome_bind E (fun _ => True)).
    { apply rotation_norm_outcome; [apply Hst1 | exact Hm]. }
    intros t0 _. destruct (Z.eqb_spec t0 0) as [_|Ht0]; [exact I|].
    apply (outcome_bind E (full n)).
    { apply rotate_outcome; [apply Hst1 | exact Hm | exact Ht0]. }
    intros H' HH'.
    apply (outcome_bind E (well_formed n)).
    { apply reduce_rows_outcome; [|lia].
      destruct Hst1 as (Hy & _ & HA & HB). exact (conj Hy (conj HH' (conj HA HB))). }
    intros st2 Hst2. exact Hst2.
  - apply (outcome_bind E (well_formed n)).
    { apply reduce_rows_outcome; [exact Hst1|lia]. }
    intros st2 Hst2. exact Hst2.
Qed.

Lemma candidate_returns (B : gmap (Z * Z) Z) (i : Z) :
  1 <= n -> full n B -> 1 <= i <= n ->
  exists v vs, candidate prec n B i = Ret (v :: vs).
Proof.
  intros Hn HB Hi. unfold candidate.
  rewrite (map_res_ok _ (fun j => Z.shiftr (round_fixed (default 0 (B !! (j, i))) prec)
                                           prec)).
  - rewrite (py_range_cons 1 (n + 1)) by lia. simpl. eauto.
  - intros j Hj. apply elem_of_py_range in Hj.
    destruct (HB j i ltac:(lia) Hi) as (b & Hb).
    unfold dict_get. rewrite Hb. reflexivity.
Qed.

Lemma check_outcome (E : exn -> Prop) (st : pslq_state) :
  1 <= n -> well_formed n st -> outcome E (fun _ => True) (check prec n eps st).
Proof.
  intros Hn (Hy & _ & _ & HB). unfold check.
  assert (Hran : forall i, In i (py_range 1 (n + 1)) -> 1 <= i <= n)
    by (intros i Hi; apply elem_of_py_range in Hi; lia).
  revert Hran. generalize (py_range 1 (n + 1)).
  induction l as [|i l IH]; intros Hran; simpl; [exact I|].
  assert (Hl : outcome E (fun _ : option (list Z) => True) (check_from prec n eps l st))
    by (apply IH; intros i' Hi'; apply Hran; right; exact Hi').
  destruct (list_get_int_in n i _ Hy (Hran i (or_introl eq_refl))) as (yi & ->).
  rewrite bind_Ret.
  destruct (Z.abs yi <? eps); [|exact Hl].
  destruct (candidate_returns (st_B st) i Hn HB (Hran i (or_introl eq_refl)))
    as (v & vs & ->).
  rewrite bind_Ret. unfold py_max_abs. rewrite bind_Ret.
  destruct (_ <? 10 ^ 6); [exact I | exact Hl].
Qed.

Lemma pslq_iteration_outcome (E : exn -> Prop) (st : pslq_state) :
  2 <= n -> 0 <= sq (Z.shiftl 4 prec / 3) prec -> well_formed n st ->
  outcome E (fun o => match o with Continue st' => well_formed n st' | _ => True end)
          (pslq_iteration sq prec n eps st).
Proof.
  intros Hn Hg Hst. unfold pslq_iteration.
  apply (outcome_bind E (fun o => match o with
                                  | Some st' => well_formed n st'
                                  | None => True
                                  end)).
  { apply reduce_pass_outcome; assumption. }
  intros [st'|] Hst'; [|exact I].
  apply (outcome_bind E (fun _ => True)).
  { apply check_outcome; [lia | exact Hst']. }
  intros [vec|] _; [exact I | exact Hst'].
Qed.

Lemma main_loop_outcome (E : exn -> Prop) (reps : nat) (st : pslq_state) :
  2 <= n -> 0 <= sq (Z.shiftl 4 prec / 3) prec -> well_formed n st ->
  outcome E (fun _ => True) (main_loop sq prec n eps reps st).
Proof.
  intros Hn Hg. revert st. induction reps as [|k IH]; intros st Hst; simpl; [exact I|].
  apply (outcome_bind E (fun o => match o with
                                  | Continue st' => well_formed n st'
                                  | _ => True
                                  end)).
  { apply pslq_iteration_outcome; assumption. }
  intros [st'| |vec] Hst'; [apply IH; exact Hst' | exact I | exact I].
Qed.

End PslqExceptions.

Lemma list_get_int_value (y : list pyval) (k z : Z) :
  0 <= k < Z.of_nat (length y) -> y !! Z.to_nat k = Some (PyInt z) ->
  list_get_int y k = Ret z.
Proof.
  intros Hk Hz. unfold list_get_int, list_get, py_index.
  destruct (Z.ltb_spec k 0) as [?|_]; [lia|].
  destruct (Z.leb_spec 0 k) as [_|?]; [|lia].
  destruct (Z.ltb_spec k (Z.of_nat (length y))) as [_|?]; [|lia].
  simpl. rewrite Hz. reflexivity.
Qed.

Lemma norm_loop (prec : Z) (xs pre : list Z) (t : Z) :
  for_ (seqZ (1 + Z.of_nat (length pre)) (Z.of_nat (length xs)))
       (fun j t => xj ← list_get_int (PyNone :: map PyInt (pre ++ xs)) j;
                   Ret (t + Z.shiftr (xj ^ 2) prec)) t
  = Ret (foldl (fun t xj => t + Z.shiftr (xj ^ 2) prec) t xs).
Proof.
  revert pre t. induction xs as [|z xs IH]; intros pre t; [reflexivity|].
  rewrite seqZ_cons by (simpl; lia). simpl for_.
  rewrite (list_get_int_value _ _ z).
  - rewrite bind_Ret. simpl foldl.
    specialize (IH (pre ++ [z]) (t + Z.shiftr (z ^ 2) prec)).
    rewrite <- app_assoc in IH. simpl in IH. rewrite length_app in IH. simpl in IH.
    replace (Z.succ (1 + Z.of_nat (length pre)))
      with (1 + Z.of_nat (length pre + 1)) by lia.
    replace (Z.pred (Z.of_nat (S (length xs)))) with (Z.of_nat (length xs)) by lia.
    rewrite bind_Ret. exact IH.
  - simpl. rewrite length_map, length_app. simpl. lia.
  - replace (Z.to_nat (1 + Z.of_nat (length pre))) with (S (length pre)) by lia.
    simpl. rewrite list_lookup_fmap, lookup_app_r by lia.
    rewrite Nat.sub_diag. reflexivity.
Qed.

Lemma init_norms_first (sq : Z -> Z -> Z) (prec n : Z) (xs : list Z) :
  n = Z.of_nat (length xs) -> 1 <= n ->
  exists s, init_norms sq prec n (PyNone :: map PyInt xs) = Ret s /\
            int_list n s /\
            s !! 1%nat = Some (PyInt (sq (squared_norm prec xs) prec)).
Proof.
  intros Hlen Hn.
  pose proof (int_list_values n xs Hlen) as Hx.
  assert (Hgoal : outcome (fun _ => False)
            (fun s => int_list n s /\
                      s !! 1%nat = Some (PyInt (sq (squared_norm prec xs) prec)))
            (init_norms sq prec n (PyNone :: map PyInt xs))).
  { unfold init_norms. rewrite (py_range_cons 1 (n + 1)) by lia.
    change (1 + 1) with 2. simpl for_.
    assert (Hs0 : int_list n (PyNone :: replicate (Z.to_nat n) (PyInt 0))).
    { split; [simpl; rewrite length_replicate; reflexivity|].
      intros k Hk. exists 0.
      replace (Z.to_nat k) with (S (Z.to_nat (k - 1))) by lia. simpl.
      apply lookup_replicate. split; [reflexivity|lia]. }
    pose proof (norm_loop prec xs [] 0) as Hsum.
    change (1 + Z.of_nat (length [])) with 1 in Hsum.
    change ([] ++ xs) with xs in Hsum.
    change (py_range 1 (n + 1)) with (seqZ 1 (n + 1 - 1)).
    replace (n + 1 - 1) with (Z.of_nat (length xs)) by lia.
    rewrite Hsum, bind_Ret. fold (squared_norm prec xs).
    rewrite (list_set_value n 1 _ _ (proj1 Hs0)) by lia. rewrite bind_Ret.
    apply outcome_for.
    - intros k s Hk [Hs H1]. apply elem_of_py_range in Hk.
      apply (outcome_bind _ (fun _ => True)).
      + apply outcome_for; [|exact I].
        intros j t Hj _. apply elem_of_py_range in Hj.
        destruct (list_get_int_in n j _ Hx ltac:(lia)) as (xj & ->). exact I.
      + intros t _. rewrite (list_set_value n k _ _ (proj1 Hs)) by lia.
        split; [apply int_list_insert; [exact Hs|lia]|].
        rewrite list_lookup_insert_ne by lia. exact H1.
    - split; [apply int_list_insert; [exact Hs0|lia]|].
      change (Z.to_nat 1) with 1%nat. apply list_lookup_insert_eq.
      simpl. rewrite length_replicate. lia. }
  destruct (init_norms sq prec n (PyNone :: map PyInt xs)) as [s|e]; [|destruct Hgoal].
  exists s. split; [reflexivity | exact Hgoal].
Qed.

Lemma pslq_init_zero_norm (sq : Z -> Z -> Z) (prec n : Z) (xs : list Z) :
  n = Z.of_nat (length xs) -> 1 <= n ->
  sq (squared_norm prec xs) prec = 0 ->
  pslq_init sq prec n (PyNone :: map PyInt xs) = Raise ZeroDivisionError.
Proof.
  intros Hlen Hn Hzero. unfold pslq_init.
  destruct (init_norms_first sq prec n xs Hlen Hn) as (s & -> & Hs & H1).
  rewrite bind_Ret. rewrite Hzero in H1.
  unfold init_normalize.
  rewrite (list_get_int_value s 1 0); [|rewrite (proj1 Hs); lia|exact H1].
  rewrite bind_Ret, (py_range_cons 1 (n + 1)) by lia. simpl for_.
  destruct (list_get_int_in n 1 _ (int_list_values n xs Hlen) ltac:(lia)) as (x1 & ->).
  reflexivity.
Qed.

Section PslqExceptionProperties.
Context `{Engine}.

(** on two or more numbers, once the set-up has succeeded and with a
    square root of 4/3 that is not negative, the only exception [pslq]
    raises is ZeroDivisionError, and it comes from the initialization:
    once the initialization is through, the main loop raises nothing and
    [pslq] returns. *)
Theorem pslq_raises_zero_division (x : list mpf) (eps : option mpf)
    (prec n epsf : Z) (xf : list pyval) :
  pslq_args x eps = Ret (prec, n, epsf, xf) ->
  2 <= n ->
  0 <= sqrt_fixed (Z.shiftl 4 prec / 3) prec ->
  (exists st0 r, pslq_init sqrt_fixed prec n xf = Ret st0 /\ pslq x eps = Ret r) \/
  (pslq_init sqrt_fixed prec n xf = Raise ZeroDivisionError /\
   pslq x eps = Raise ZeroDivisionError).
Proof.
  intros Ha Hn Hg. rewrite (pslq_unfold _ _ _ _ _ _ Ha).
  destruct (pslq_args_inv _ _ _ _ _ _ Ha) as (_ & Hlen & _ & _ & Hxf & _).
  assert (Hx : int_list n xf).
  { rewrite Hxf, <- map_map. apply int_list_values.
    rewrite length_map. exact Hlen. }
  pose proof (pslq_init_outcome sqrt_fixed prec n xf ltac:(lia) Hx) as Hi.
  destruct (pslq_init sqrt_fixed prec n xf) as [st0|e]; simpl in Hi.
  - left. rewrite bind_Ret.
    pose proof (main_loop_outcome sqrt_fixed prec n epsf (fun _ => False) 100 st0
                  Hn Hg Hi) as Hl.
    destruct (main_loop sqrt_fixed prec n epsf 100 st0) as [r|e]; [|destruct Hl].
    exists st0, r. split; reflexivity.
  - right. subst e. split; reflexivity.
Qed.

(** when the square root of the squared norm of the fixed-point input
    is zero, as it is for an input of zeros, the normalization divides
    by it and [pslq] raises ZeroDivisionError. *)
Theorem pslq_zero_norm (x : list mpf) (eps : option mpf)
    (prec n epsf : Z) (xf : list pyval) :
  pslq_args x eps = Ret (prec, n, epsf, xf) ->
  sqrt_fixed (squared_norm prec (map (fun xk => to_fixed xk prec) x)) prec = 0 ->
  pslq x eps = Raise ZeroDivisionError.
Proof.
  intros Ha Hzero. rewrite (pslq_unfold _ _ _ _ _ _ Ha).
  destruct (pslq_args_inv _ _ _ _ _ _ Ha) as (_ & Hlen & Hn & _ & Hxf & _).
  rewrite Hxf, <- map_map.
  rewrite (pslq_init_zero_norm sqrt_fixed prec n); [reflexivity| |exact Hn|exact Hzero].
  rewrite length_map. exact Hlen.
Qed.

End PslqExceptionProperties.

(** ** Chebyshev approximation *)

Lemma for_keep_invariant {I S : Type} (Inv : S -> Prop) (l : list I)
    (body : I -> S -> S * option exn) :
  (forall i s, In i l -> Inv s -> Inv (body i s).1) ->
  forall s, Inv s -> Inv (for_keep l body s).1.
Proof.
  induction l as [|i l IH]; intros Hbody s Hs; simpl; [exact Hs|].
  pose proof (Hbody i s (or_introl eq_refl) Hs) as Hi.
  destruct (body i s) as [s' [e|]]; [exact Hi|].
  apply IH; [|exact Hi]. intros j t Hj. apply Hbody. right. exact Hj.
Qed.

Lemma set_item_length {A : Type} (l l' : list A) (i : nat) (v : A) :
  set_item l i v = Ret l' -> length l' = length l.
Proof.
  unfold set_item. destruct (l !! i); [|discriminate].
  intros [= <-]. apply length_insert.
Qed.

Section ChebyshevFitProperties.
Variable num : Type.
Variable of_Z : Z -> num.
Variable half : num.
Variables add sub mul : Z -> num -> num -> num.
Variable div : Z -> num -> num -> res num.
Variables neg abs pos cos : Z -> num -> num.
Variable pi : Z -> num.
Variable ltb : num -> num -> bool.
Variable int_sqrt : Z -> Z.

Lemma accumulate_length (prec : Z) (c Tk : list num) (k : nat) (d : list num) :
  length (accumulate num add mul prec c Tk k d).1 = length d.
Proof.
  unfold accumulate.
  apply (for_keep_invariant (fun d' : list num => length d' = length d));
    [|reflexivity].
  intros i d' _ Hd'.
  destruct (list_item d' i) as [di|e]; [|exact Hd']. rewrite bind_Ret.
  destruct (list_item c k) as [ck|e]; [|exact Hd']. rewrite bind_Ret.
  destruct (list_item Tk i) as [ti|e]; [|exact Hd']. rewrite bind_Ret.
  destruct (set_item d' i _) as [d2|e] eqn:Hset; [|exact Hd'].
  simpl. rewrite (set_item_length _ _ _ _ Hset). exact Hd'.
Qed.

Lemma accumulate_all_length (prec : Z) (c : list num) (ta tb : num) (N : Z)
    (d : list num) :
  length (accumulate_all num of_Z add sub mul prec c ta tb N d).1 = length d.
Proof.
  unfold accumulate_all.
  apply (for_keep_invariant (fun d' : list num => length d' = length d));
    [|reflexivity].
  intros k d' _ Hd'. destruct (chebT _ _ _ _ _ _ _ _) as [Tk|e]; [|exact Hd'].
  rewrite accumulate_length. exact Hd'.
Qed.

(** The local [d], once bound, has [N] entries. *)
Lemma chebyfit_try_length (orig : Z) (f : Z -> num -> res num) (a b : num) (N : Z)
    (d : list num) :
  (chebyfit_try num of_Z half add sub mul div neg abs cos pi ltb int_sqrt
                orig f a b N).1 = Some d ->
  0 <= N /\ length d = Z.to_nat N.
Proof.
  unfold chebyfit_try.
  destruct (Z.ltb_spec N 0) as [?|HN]; [discriminate|].
  destruct (coefficients _ _ _ _ _ _ _ _ _ _ _ _ _ _) as [c|e]; [|discriminate].
  assert (H0 : length (replicate (Z.to_nat N) (of_Z 0)) = Z.to_nat N)
    by apply length_replicate.
  destruct (set_first _ _ _ _ _ _ _) as [d1|e] eqn:H1.
  2: { intros [= <-]. split; [exact HN | exact H0]. }
  assert (Hd1 : length d1 = Z.to_nat N).
  { unfold set_first in H1.
    apply bind_Ret_inv in H1 as (c0 & _ & H1).
    apply bind_Ret_inv in H1 as (v & _ & H1).
    rewrite (set_item_length _ _ _ _ H1). exact H0. }
  destruct (chebT_arguments _ _ _ _ _ _ _ _ _) as [[ta tb]|e].
  2: { intros [= <-]. split; [exact HN | exact Hd1]. }
  pose proof (accumulate_all_length (orig + int_sqrt N + 20) c ta tb N d1) as Hloop.
  destruct (accumulate_all _ _ _ _ _ _ _ _ _ _ _) as [d2 [e|]]; simpl in Hloop.
  - intros [= <-]. split; [exact HN|]. rewrite Hloop. exact Hd1.
  - intros [= <-]. split; [exact HN|]. rewrite length_reverse, Hloop. exact Hd1.
Qed.

(** a list returned by [chebyfit] has [N] coefficients, whether the
    [try] block came to its end or not. *)
Theorem chebyfit_length (orig : Z) (f : Z -> num -> res num) (a b : num) (N : Z)
    (error : bool) (d : list num) (err : option num) :
  chebyfit num of_Z half add sub mul div neg abs pos cos pi ltb int_sqrt
           orig f a b N error = Ret (d, err) ->
  0 <= N /\ length d = Z.to_nat N.
Proof.
  unfold chebyfit. intros Hr.
  apply (chebyfit_try_length orig f a b N d).
  destruct (chebyfit_try _ _ _ _ _ _ _ _ _ _ _ _ _ _ _ _ _ _) as [[d'|] err'];
    simpl in *; destruct error; simpl in Hr; try discriminate.
  - destruct err'; simpl in Hr; [|discriminate]. congruence.
  - congruence.
Qed.

(** the [return] in the [finally] block drops every exception of the
    [try] block.  [chebyfit] raises nothing but UnboundLocalError, and
    without [error] it raises exactly when [d] was never bound: for a
    negative [N], or when computing a coefficient raised.  An exception
    after that, of [f] in the error estimate or of a division for
    [a = b], is lost and the list [d] as it stands is returned. *)
Theorem chebyfit_raises (orig : Z) (f : Z -> num -> res num) (a b : num) (N : Z) :
  (forall error e,
     chebyfit num of_Z half add sub mul div neg abs pos cos pi ltb int_sqrt
              orig f a b N error = Raise e ->
     e = OtherError "UnboundLocalError") /\
  ((exists e, chebyfit num of_Z half add sub mul div neg abs pos cos pi ltb int_sqrt
                       orig f a b N false = Raise e) <->
   N < 0 \/
   exists e, coefficients num of_Z half add sub mul div cos pi
                          (orig + int_sqrt N + 20) (f (orig + int_sqrt N + 20)) a b N
             = Raise e).
Proof.
  split.
  - intros error e. unfold chebyfit.
    destruct (chebyfit_try _ _ _ _ _ _ _ _ _ _ _ _ _ _ _ _ _ _) as [[d|] [err|]];
      destruct error; simpl; congruence.
  - unfold chebyfit, chebyfit_try.
    destruct (Z.ltb_spec N 0) as [HN|HN].
    { simpl. split; [intros _; left; exact HN | intros _; eexists; reflexivity]. }
    destruct (coefficients _ _ _ _ _ _ _ _ _ _ _ _ _ _) as [c|e0].
    2: { simpl. split; [intros _; right; exists e0; reflexivity
                       | intros _; eexists; reflexivity]. }
    split.
    + intros (e & He). exfalso. revert He.
      destruct (set_first _ _ _ _ _ _ _) as [d1|e1]; [|discriminate].
      destruct (chebT_arguments _ _ _ _ _ _ _ _ _) as [[ta tb]|e1]; [|discriminate].
      destruct (accumulate_all _ _ _ _ _ _ _ _ _ _ _) as [d2 [e2|]]; discriminate.
    + intros [?|(e & He)]; [lia|discriminate].
Qed.

End ChebyshevFitProperties.

(** ** The properties on concrete inputs *)

Module Examples.
Import Dyadic.

(** A vector of one element: the pivot stays [-1] and the exchange of
    rows [-1] and [0] of [H] fails. *)
Lemma pslq_single_element : pslq [of_Z 5] None = Raise KeyError.
Proof. vm_compute. reflexivity. Qed.

(** The docstring's [identify(0.22222222222222222)]. *)
Lemma identify_two_ninths :
  identify eval 2 two_ninths (ConstList []) false 1000 None true = Ret (RStr "(2/9)").
Proof. vm_compute. reflexivity. Qed.

Lemma pslq_empty_returns_nothing_fails :
  pslq [] None = Raise AssertionError /\ pslq [] None <> Ret None.
Proof. split; [reflexivity | discriminate]. Qed.

Lemma pslq_target_not_floored_quotient :
  pslq_target 200 1 = 100 /\
  (forall floor, spec_target floor 200 1 <> 100) /\
  pslq_target 100 2 = 50 /\
  pslq_target 100 4 = 75 /\
  (forall floor, spec_target floor 100 2 = 50 -> spec_target floor 100 4 <> 75).
Proof.
  unfold spec_target.
  repeat split; try reflexivity.
  - intros floor. change (200 / 1) with 200. lia.
  - intros floor. change (100 / 2) with 50. change (100 / 4) with 25. lia.
Qed.


(** For zero the strings of a list are not evaluated. *)
Lemma identify_zero_evaluates_nothing :
  identify (fun _ => Raise (OtherError "NameError")) 2 0 (ConstList ["nosuchname"])
           false 1000 None true = Ret (RStr "0").
Proof. reflexivity. Qed.

Lemma pslq_default_threshold_witness :
  pslq [of_Z 2; of_Z 4] None =
  (e ← mpf_pow_int (mpf_of_Z 2) (- 39); pslq [of_Z 2; of_Z 4] (Some e)).
Proof.
  refine (proj1 (pslq_default_threshold (H:=engine) [of_Z 2; of_Z 4] _ _)).
  - discriminate.
  - vm_compute. discriminate.
Defined.

Lemma pslq_returns_checked_candidate_witness :
  pslq [of_Z 2; of_Z 4] None = Ret (Some [-2; 1]) /\
  Forall (fun v => Z.abs v < 10 ^ 6) [-2; 1].
Proof.
  assert (Hr : pslq [of_Z 2; of_Z 4] None = Ret (Some [-2; 1]))
    by (vm_compute; reflexivity).
  split; [exact Hr|].
  destruct (pslq_returns_checked_candidate (H:=engine) _ _ _ Hr)
    as (prec & n & epsf & xf & st0 & k & st & st' & i & yi & Hall).
  apply Hall.
Defined.

Lemma pslq_iteration_budget_witness :
  [of_Z 5; of_Z 10000019] <> [] /\ pslq [of_Z 5; of_Z 10000019] None = Ret None.
Proof.
  assert (Hx : [of_Z 5; of_Z 10000019] <> []) by discriminate.
  split; [exact Hx|].
  destruct (pslq_iteration_budget (H:=engine) [of_Z 5; of_Z 10000019] None Hx)
    as [(e & He & _)|(prec & n & epsf & xf & st0 & Ha & Hi & Hex & _)].
  - vm_compute in He. discriminate.
  - vm_compute in Ha. injection Ha as <- <- <- <-.
    vm_compute in Hi. injection Hi as <-.
    eapply Hex. vm_compute. reflexivity.
Defined.

Lemma pslq_zero_rotation_norm_witness :
  pslq [of_Z 1; of_Z 2; of_Z 3] (Some 0) = Ret None.
Proof.
  eapply proj2.
  eapply (pslq_zero_rotation_norm (H:=engine)) with (k := 4%nat).
  - vm_compute. reflexivity.
  - vm_compute. reflexivity.
  - lia.
  - vm_compute. reflexivity.
  - vm_compute. reflexivity.
  - vm_compute. reflexivity.
  - vm_compute. discriminate.
  - vm_compute. reflexivity.
Defined.

Lemma identify_formulas_bounded_witness :
  identify eval 2 two_ninths (ConstList []) false 1000 None true = Ret (RStr "(2/9)") /\
  formula_origin eval (ConstList []) 1000 None two_ninths "(2/9)".
Proof.
  assert (Hr : identify eval 2 two_ninths (ConstList []) false 1000 None true
               = Ret (RStr "(2/9)")) by (vm_compute; reflexivity).
  split; [exact Hr|].
  exact (List.Forall_inv (identify_formulas_bounded (H:=engine) _ _ _ _ _ _ _ _ _ Hr)).
Defined.

Lemma identify_negative_witness :
  identify eval 2 (- two_ninths) (ConstList []) false 1000 None true
    = Ret (RStr "-((2/9))").
Proof.
  refine (identify_negative (H:=engine) eval 1 (- two_ninths) (ConstList []) false
            1000 None true (RStr "(2/9)") _ _ _ _);
    vm_compute; reflexivity.
Defined.

Lemma searched_constants_has_one_witness :
  searched_constants eval (ConstList ["pi"])
    = Ret [(of_Z 1, "1"); (57952155664616982739, "pi")] /\
  In (of_Z 1, "1") [(of_Z 1, "1"); (57952155664616982739, "pi")].
Proof.
  assert (Hs : searched_constants eval (ConstList ["pi"])
               = Ret [(of_Z 1, "1"); (57952155664616982739, "pi")])
    by (vm_compute; reflexivity).
  split; [exact Hs|].
  exact (proj1 (searched_constants_has_one (H:=engine) eval _ _ Hs)).
Defined.

Lemma identify_full_sorted_witness :
  (identify eval 2 one_half (ConstList []) true 1000 None true
     = Ret (RList ["1/2"; "(1/2)"; "1/(2)"; "1/sqrt(4)"; "sqrt((1/4))";
                   "(sqrt(8)/4)**2"; "1/(sqrt(8)/2)**2"]) /\
   Sorted (fun a b => (String.length a <= String.length b)%nat)
          ["1/2"; "(1/2)"; "1/(2)"; "1/sqrt(4)"; "sqrt((1/4))";
           "(sqrt(8)/4)**2"; "1/(sqrt(8)/2)**2"] /\
   full_result eval (ConstList []) 1000 None true one_half
               ["1/2"; "(1/2)"; "1/(2)"; "1/sqrt(4)"; "sqrt((1/4))";
                "(sqrt(8)/4)**2"; "1/(sqrt(8)/2)**2"]) /\
  (no_match eval (ConstList []) 3 None false (- (7 * one / 23)) /\
   identify eval 2 (- (7 * one / 23)) (ConstList []) true 3 None false
     = Ret (RList [])).
Proof.
  split.
  - assert (Hr : identify eval 2 one_half (ConstList []) true 1000 None true
                 = Ret (RList ["1/2"; "(1/2)"; "1/(2)"; "1/sqrt(4)"; "sqrt((1/4))";
                               "(sqrt(8)/4)**2"; "1/(sqrt(8)/2)**2"]))
      by (vm_compute; reflexivity).
    split; [exact Hr|].
    destruct (identify_full_sorted (H:=engine) _ _ _ _ _ _ _ _ Hr)
      as (l & [= <-] & Hsorted & Hfull & _).
    split; assumption.
  - assert (Hno : no_match (H:=engine) eval (ConstList []) 3 None false
                           (- (7 * one / 23))).
    { apply no_match_negative; [reflexivity | reflexivity |].
      eapply no_match_search.
      - reflexivity.
      - reflexivity.
      - vm_compute. reflexivity.
      - vm_compute. reflexivity.
      - exists []. split; vm_compute; reflexivity. }
    split; [exact Hno|].
    destruct (identify (H:=engine) eval 2 (- (7 * one / 23)) (ConstList []) true 3
                       None false) as [r|e] eqn:Hr; [|vm_compute in Hr; discriminate].
    destruct (identify_full_sorted (H:=engine) _ _ _ _ _ _ _ _ Hr)
      as (l & -> & _ & _ & Hempty).
    rewrite (Hempty Hno). reflexivity.
Defined.

End Examples.

(** ** Further properties on concrete inputs *)

Module Checks.
Import Dyadic.

Lemma fracgcd_lowest_terms_witness :
  exists p' q',
    fracgcd 6 (-4) = Ret (if q' =? 1 then FInt p' else FPair p' q') /\
    0 < q' /\ p' * (-4) = 6 * q' /\ Z.gcd p' q' = 1.
Proof. apply (fracgcd_lowest_terms 6 (-4)). lia. Defined.

Lemma pslq_result_length_witness :
  length [-2; 1] = length [of_Z 2; of_Z 4].
Proof.
  apply (pslq_result_length (H:=engine) [of_Z 2; of_Z 4] None).
  vm_compute. reflexivity.
Defined.

Lemma formatters_zero_tail_witness :
  pslqstring [3; 0; 0] [(of_Z 1, "1"); (of_Z 2, "pi"); (of_Z 3, "e")] = Ret "0" /\
  prodstring [3; 0; 0] [(of_Z 1, "1"); (of_Z 2, "pi"); (of_Z 3, "e")] = Ret None.
Proof.
  apply (formatters_zero_tail 3 [0; 0]).
  constructor; [reflexivity|]. constructor; [reflexivity|]. constructor.
Defined.

Lemma searched_constants_prepends_witness :
  searched_constants eval (ConstList ["pi"; "sqrt(2)"])
    = Ret [(of_Z 1, "1"); (57952155664616982739, "pi");
           (26087635650665564424, "sqrt(2)")].
Proof.
  apply (searched_constants_prepends (H:=engine) eval).
  vm_compute. reflexivity.
Defined.

Lemma round_fixed_nearest_witness :
  exists k, round_fixed 14 2 = k * 2 ^ 2 /\
            Z.shiftr (round_fixed 14 2) 2 = k /\
            - 2 ^ (2 - 1) <= 14 - k * 2 ^ 2 < 2 ^ (2 - 1).
Proof. apply (round_fixed_nearest 14 2). lia. Defined.

Lemma vadd_columns_witness :
  exists R, vadd [[of_Z 1; of_Z 2]; [of_Z 3; of_Z 4]; [of_Z 5; of_Z 6]] = Ret R /\
            length R = length [of_Z 1; of_Z 2] /\
            forall i, (i < length [of_Z 1; of_Z 2])%nat ->
                      R !! i = column_sum [[of_Z 1; of_Z 2]; [of_Z 3; of_Z 4];
                                           [of_Z 5; of_Z 6]] i.
Proof.
  apply (vadd_columns (H:=engine)).
  - simpl. lia.
  - reflexivity.
  - intros x [<-|[<-|[<-|[]]]]; reflexivity.
Defined.

Lemma ODE_step_euler_result_witness :
  ODE_step_euler (fun y _ => Ret y) (of_Z 0) [of_Z 1; of_Z 2] one_half
    = Ret [of_Z 1 + one_half; of_Z 3].
Proof.
  apply (proj1 (ODE_step_euler_result (H:=engine) (fun y _ => Ret y) (of_Z 0)
                  [of_Z 1; of_Z 2] one_half [of_Z 1; of_Z 2] eq_refl)).
  reflexivity.
Defined.

Lemma ODE_step_rk4_length_witness :
  exists v, ODE_step_rk4 (fun x k => Z.shiftl x k) one_half (fun y _ => Ret y)
              (of_Z 0) [of_Z 1; of_Z 2] one_half = Ret v /\
            length v = length [of_Z 1; of_Z 2].
Proof.
  eapply (ODE_step_rk4_length (H:=engine)).
  - vm_compute. reflexivity.
  - intros v t Hv. exists v. split; [reflexivity | exact Hv].
Defined.

Lemma ODE_step_rk4_mismatch_witness :
  ODE_step_rk4 (fun x k => Z.shiftl x k) one_half (fun _ _ => Ret [])
    (of_Z 0) [of_Z 1; of_Z 2] one_half = Raise AssertionError.
Proof.
  eapply (ODE_step_rk4_mismatch (H:=engine)).
  - vm_compute. reflexivity.
  - reflexivity.
  - discriminate.
Defined.

Lemma odeint_states_witness :
  length [5; 5 + of_Z 1; 5 + of_Z 3] = Nat.max 1 (length [of_Z 0; of_Z 1; of_Z 3]) /\
  [5; 5 + of_Z 1; 5 + of_Z 3] !! 0%nat = Some 5 /\
  forall i t0 t1 xi,
    [of_Z 0; of_Z 1; of_Z 3] !! i = Some t0 ->
    [of_Z 0; of_Z 1; of_Z 3] !! S i = Some t1 ->
    [5; 5 + of_Z 1; 5 + of_Z 3] !! i = Some xi ->
    exists xi', Ret (xi + mpf_sub t1 t0) = Ret xi' /\
                [5; 5 + of_Z 1; 5 + of_Z 3] !! S i = Some xi'.
Proof.
  apply (odeint_states (H:=engine) (fun _ x dt => Ret (x + dt)) 5
           [of_Z 0; of_Z 1; of_Z 3]).
  vm_compute. reflexivity.
Defined.

Lemma polyval_append_witness :
  polyval Z 0 Z.add Z.mul [1; 2; 3] 2 false = PolyValue 11 /\
  polyval Z 0 Z.add Z.mul ([1; 2; 3] ++ [4]) 2 true = PolyPair (4 + 2 * 11) (11 + 2 * 6) /\
  polyval Z 0 Z.add Z.mul ([1; 2; 3] ++ [4]) 2 false = PolyValue (4 + 2 * 11).
Proof.
  apply (polyval_append Z 0 Z.add Z.mul [1; 2; 3] 4 2 11 6).
  reflexivity.
Defined.

Lemma polyval_sums_witness :
  polyval Z 0 Z.add Z.mul [1; 2; 3] 2 false =
    PolyValue (power_sum Z 0 Z.add Z.mul 1 [1; 2; 3] 2) /\
  polyval Z 0 Z.add Z.mul [1; 2; 3] 2 true =
    PolyPair (power_sum Z 0 Z.add Z.mul 1 [1; 2; 3] 2)
             (derivative_sum Z 0 Z.add Z.mul 1 [1; 2; 3] 2).
Proof.
  apply (polyval_sums Z 0 Z.add Z.mul 1).
  - constructor; intros; lia.
  - discriminate.
Defined.

Lemma secant_first_zero_division_witness :
  secant Z.leb (Z.shiftl 1 62) (fun _ => Ret (of_Z 7)) (of_Z 1) None 10
    = Raise ZeroDivisionError.
Proof.
  eapply (secant_first_zero_division (H:=engine)).
  - lia.
  - reflexivity.
  - reflexivity.
  - vm_compute. reflexivity.
Defined.

Lemma secant_returns_witness :
  exists r, secant Z.leb (Z.shiftl 1 62) (fun z => Ret (z - of_Z 2)) (of_Z 1) None 10
            = Ret r.
Proof.
  eapply (secant_returns (H:=engine)).
  - intros z. eexists. reflexivity.
  - intros a b e. simpl. unfold div. destruct (b =? 0); congruence.
  - reflexivity.
  - reflexivity.
  - vm_compute. reflexivity.
Defined.

Lemma pslq_matrices_unimodular_witness :
  exists st0 st,
    pslq_init (fun x prec => Z.sqrt (Z.shiftl x prec)) 113 2
      [PyNone; PyInt (Z.shiftl 5 113); PyInt (Z.shiftl 10000019 113)] = Ret st0 /\
    after_passes (fun x prec => Z.sqrt (Z.shiftl x prec)) 113 2 (Z.shiftl 1 74) 3 st0
      = Some st /\
    unimodular 113 2 st0 /\ unimodular 113 2 st.
Proof.
  assert (Ha : pslq_args (H:=engine) [of_Z 5; of_Z 10000019] None
               = Ret (113, 2, Z.shiftl 1 74,
                      [PyNone; PyInt (Z.shiftl 5 113); PyInt (Z.shiftl 10000019 113)]))
    by (vm_compute; reflexivity).
  destruct (pslq_init (fun x prec => Z.sqrt (Z.shiftl x prec)) 113 2
              [PyNone; PyInt (Z.shiftl 5 113); PyInt (Z.shiftl 10000019 113)])
    as [st0|e] eqn:Hi; [|vm_compute in Hi; discriminate].
  destruct (after_passes (fun x prec => Z.sqrt (Z.shiftl x prec)) 113 2
              (Z.shiftl 1 74) 3 st0) as [st|] eqn:Hk.
  - exists st0, st.
    destruct (pslq_matrices_unimodular (H:=engine) _ _ _ _ _ _ st0 st 3%nat Ha Hi Hk)
      as (H0 & Hst & _).
    repeat split; assumption.
  - exfalso. vm_compute in Hi. injection Hi as <-. vm_compute in Hk. discriminate.
Defined.

Lemma pslq_result_primitive_witness :
  (exists row, length row = length [-2; 1] /\ dot row [-2; 1] = 1) /\
  (exists v, In v [-2; 1] /\ v <> 0) /\
  (forall d, Forall (Z.divide d) [-2; 1] -> d = 1 \/ d = -1).
Proof.
  apply (pslq_result_primitive (H:=engine) [of_Z 2; of_Z 4] None).
  vm_compute. reflexivity.
Defined.

Lemma pslq_raises_zero_division_witness :
  (exists st0 r,
     pslq_init (fun x prec => Z.sqrt (Z.shiftl x prec)) 113 2
       [PyNone; PyInt (Z.shiftl 2 113); PyInt (Z.shiftl 4 113)] = Ret st0 /\
     pslq [of_Z 2; of_Z 4] None = Ret r) \/
  (pslq_init (fun x prec => Z.sqrt (Z.shiftl x prec)) 113 2
     [PyNone; PyInt (Z.shiftl 2 113); PyInt (Z.shiftl 4 113)] = Raise ZeroDivisionError /\
   pslq [of_Z 2; of_Z 4] None = Raise ZeroDivisionError).
Proof.
  apply (pslq_raises_zero_division (H:=engine) [of_Z 2; of_Z 4] None 113 2
           (Z.shiftl 1 74)).
  - vm_compute. reflexivity.
  - lia.
  - vm_compute. discriminate.
Defined.

Lemma pslq_zero_norm_witness :
  pslq [of_Z 0; of_Z 0; of_Z 0] None = Raise ZeroDivisionError.
Proof.
  eapply (pslq_zero_norm (H:=engine)).
  - vm_compute. reflexivity.
  - vm_compute. reflexivity.
Defined.

Lemma chebyfit_length_witness :
  0 <= 3 /\ length [-18446744073709551616; 0; 0] = Z.to_nat 3.
Proof.
  apply (chebyfit_length Z of_Z one_half (fun _ => Z.add) (fun _ => Z.sub)
           (fun _ => mul) (fun _ => div) (fun _ => Z.opp) (fun _ => Z.abs)
           (fun _ z => z) (fun _ x => one - mul x x / 2)
           (fun _ => 57952155664616982739) Z.ltb Z.sqrt 53
           (fun _ x => Ret (mul x x)) (of_Z 1) (of_Z 1) 3 false _ None).
  vm_compute. reflexivity.
Defined.

End Checks.
